(** * ULZ: an LZ77 codec (ulz.hpp), embedded and verified

    The C++ class [ULZ] is embedded shallowly.

    - Buffers ([U8*]) are total maps from byte offsets to byte values; a
      pointer into a buffer is an offset from its start.  The cells past a
      buffer's logical length are the guard region ([EXCESS]) the caller
      reserves.  Multi-byte loads and stores are little-endian.
    - The scratch arrays [HashTable] and [Prev] are total maps from indices
      to [int]s; [Hash32_range] and [slot_range] show that the code indexes
      them within their bounds.
    - [int] values are mathematical integers (signed overflow is undefined
      in C++, and none occurs while lengths stay below 2^31); conversions to
      [U8], [U16] and [U32] and unsigned arithmetic carry their reduction.
      What the compressors return is kept as the length [op-out] itself
      ([r_ret]); [to_int] is the narrowing to [int] of the return statement,
      the identity up to [INT_MAX].  The statements that need the returned
      [int] to be the length keep the input at or below [max_in_len], where
      the length is shown to fit.
    - Loops are recursive functions on a fuel or on the code's own
      counter.  The main loops return [None] when the fuel runs out and are
      proved to return; the fuel of the inner loops is shown to suffice by
      their specifications ([match_len_spec], [WildCopy_inv],
      [EncodeMod_fuel]).
    - The compressors log the back-references they emit, and the
      decompressor keeps two high-water marks of the offsets it touches.
      Both are ghost state: they feed no computation. *)

From Stdlib Require Import ZArith List Lia Bool.
Import ListNotations.
Open Scope Z_scope.

Module ULZ.

(** ** Constants of the class *)

Definition EXCESS : Z := 16.
Definition WINDOW_BITS : Z := 17.
Definition WINDOW_SIZE : Z := Z.shiftl 1 WINDOW_BITS.
Definition WINDOW_MASK : Z := WINDOW_SIZE - 1.
Definition MIN_MATCH : Z := 4.
Definition HASH_BITS : Z := 19.
Definition HASH_SIZE : Z := Z.shiftl 1 HASH_BITS.
Definition NIL : Z := -1.

(** ** Memory *)

(** A byte buffer, addressed by offset.  Offsets past the logical length are
    the guard region the caller reserves ([EXCESS]). *)
Definition mem := Z -> Z.

(** An [int] array ([HashTable], [Prev]). *)
Definition table := Z -> Z.

Definition store (m : Z -> Z) (a v : Z) : Z -> Z :=
  fun a' => if a' =? a then v else m a'.

(** The buffer holding the bytes of [l] from offset 0 on, zero elsewhere. *)
Definition of_list (l : list Z) : mem :=
  fun a => if a <? 0 then 0 else nth (Z.to_nat a) l 0.

(** Every cell holds a byte. *)
Definition bytes_ok (m : mem) : Prop := forall a, 0 <= m a < 256.

(** Two buffers hold the same bytes on [lo, hi). *)
Definition agree (lo hi : Z) (m1 m2 : mem) : Prop :=
  forall a, lo <= a < hi -> m1 a = m2 a.

(** Conversions to the unsigned types. *)
Definition u8 (x : Z) : Z := x mod 256.
Definition u16 (x : Z) : Z := x mod 65536.
Definition u32 (x : Z) : Z := x mod 4294967296.

(** ** Utils *)

Definition Min (a b : Z) : Z := if a <? b then a else b.
Definition Max (a b : Z) : Z := if a >? b then a else b.

(** Little-endian loads and store. *)
Definition UnalignedLoad16 (m : mem) (p : Z) : Z :=
  m p + Z.shiftl (m (p + 1)) 8.

Definition UnalignedLoad32 (m : mem) (p : Z) : Z :=
  m p + Z.shiftl (m (p + 1)) 8 + Z.shiftl (m (p + 2)) 16
  + Z.shiftl (m (p + 3)) 24.

Definition UnalignedStore16 (m : mem) (p x : Z) : mem :=
  store (store m p (u8 x)) (p + 1) (u8 (Z.shiftr x 8)).

(** [UnalignedCopy64 (d, s)]: the eight source bytes are loaded, then stored.
    [sm] is the buffer the source pointer points into, as it is when the copy
    happens. *)
Definition UnalignedCopy64 (dm : mem) (d : Z) (sm : mem) (s : Z) : mem :=
  fun a => if (d <=? a) && (a <? d + 8) then sm (s + (a - d)) else dm a.

(** [WildCopy (d, s, n)]: one chunk always, then chunks while [i < n].
    [src] gives the source buffer from the current destination buffer: the
    constant function when the source is another buffer, the identity when
    source and destination are the same buffer (the decoder's overlapping
    match copy). *)
Fixpoint WildCopy_loop (fuel : nat) (src : mem -> mem) (dm : mem)
  (d s n i : Z) : mem :=
  match fuel with
  | O => dm
  | S f =>
      if i <? n
      then WildCopy_loop f src (UnalignedCopy64 dm (d + i) (src dm) (s + i))
             d s n (i + 8)
      else dm
  end.

Definition WildCopy (src : mem -> mem) (dm : mem) (d s n : Z) : mem :=
  WildCopy_loop (Z.to_nat n) src (UnalignedCopy64 dm d (src dm) s) d s n 8.

Definition other (m : mem) : mem -> mem := fun _ => m.
Definition same : mem -> mem := fun m => m.

Definition Hash32 (m : mem) (p : Z) : Z :=
  Z.shiftr (u32 (UnalignedLoad32 m p * 2654435769)) (32 - HASH_BITS).

(** ** The variable-length integer codec *)

(** [EncodeMod (p, x)]: returns the buffer and the advanced pointer.  [x] is a
    [U32], so the loop body runs at most four times; [fuel] bounds it. *)
Fixpoint EncodeMod_loop (fuel : nat) (m : mem) (p x : Z) : mem * Z :=
  match fuel with
  | S f =>
      if 128 <=? x
      then EncodeMod_loop f (store m p (u8 (128 + Z.land (x - 128) 127)))
             (p + 1) (Z.shiftr (x - 128) 7)
      else (store m p (u8 x), p + 1)
  | O => (store m p (u8 x), p + 1)
  end.

Definition EncodeMod (m : mem) (p x : Z) : mem * Z :=
  EncodeMod_loop 5 m p (u32 x).

(** [DecodeMod (p)]: returns the value and the advanced pointer.  The loop
    [for (i=0; i<=21; i+=7)] has four rounds. *)
Fixpoint DecodeMod_loop (rounds : nat) (m : mem) (p x i : Z) : Z * Z :=
  match rounds with
  | O => (x, p)
  | S r =>
      let c := m p in
      let x' := u32 (x + Z.shiftl c i) in
      if c <? 128 then (x', p + 1)
      else DecodeMod_loop r m (p + 1) x' (i + 7)
  end.

Definition DecodeMod (m : mem) (p : Z) : Z * Z :=
  DecodeMod_loop 4 m p 0 0.

(** ** The compressors *)

(** The scratch arrays of an instance. *)
Record tables := mkTables { HashTable : table; Prev : table }.

(** A back-reference as the compressor emits it: the input position at which
    the match starts, its distance and its length.  The compressors log the
    back-references they emit; the log is ghost state and influences
    nothing. *)
Record backref := mkBackref { br_pos : Z; br_dist : Z; br_len : Z }.

(** The local variables of [CompressFast] and [Compress] at the head of the
    main loop, with the output buffer, the instance's arrays and the log. *)
Record cstate := mkC {
  c_p : Z;
  c_anchor : Z;
  c_op : Z;
  c_out : mem;
  c_tab : tables;
  c_log : list backref
}.

(** What a compressor leaves: the returned [int], the output buffer, the
    instance's arrays, and the log.  [r_ret] is the length [op-out] of lines
    199 and 348, which is the [int] returned as long as it fits one. *)
Record cresult := mkR {
  r_ret : Z;
  r_out : mem;
  r_tab : tables;
  r_log : list backref
}.

(** [while (len<max_match && in[s+len]==in[p+len]) ++len;] *)
Fixpoint match_len (fuel : nat) (inb : mem) (s p max_match len : Z) : Z :=
  match fuel with
  | O => len
  | S f =>
      if (len <? max_match) && (inb (s + len) =? inb (p + len))
      then match_len f inb s p max_match (len + 1)
      else len
  end.

(** The token byte followed by the pending literals: lines 152-162. *)
Definition put_literals (inb out : mem) (op anchor run token : Z) : mem * Z :=
  let '(out1, op1) :=
    if run >=? 7
    then EncodeMod (store out op (u8 (Z.shiftl 7 5 + token))) (op + 1) (run - 7)
    else (store out op (u8 (Z.shiftl run 5 + token)), op + 1) in
  (WildCopy (other inb) out1 op1 anchor run, op1 + run).

(** The length extension and the distance: lines 167-171. *)
Definition put_match (out : mem) (op len dist : Z) : mem * Z :=
  let '(out2, op2) :=
    if len >=? 15 then EncodeMod out op (len - 15) else (out, op) in
  (UnalignedStore16 out2 op2 (u16 dist), op2 + 2).

(** A token with its back-reference: lines 147-171 (and 291-315). *)
Definition emit_match (inb out : mem) (op anchor p dist best_len : Z)
  : mem * Z :=
  let len := best_len - MIN_MATCH in
  let token := Z.land (Z.shiftr dist 12) 16 + Min len 15 in
  let '(out1, op1) :=
    if negb (anchor =? p)
    then put_literals inb out op anchor (p - anchor) token
    else (store out op (u8 token), op + 1) in
  put_match out1 op1 len dist.

(** The trailing literals: lines 184-197 (and 333-346). *)
Definition emit_last (inb out : mem) (op anchor p : Z) : mem * Z :=
  if negb (anchor =? p)
  then put_literals inb out op anchor (p - anchor) 0
  else (out, op).

Definition finish (inb : mem) (st : cstate) : cresult :=
  let '(out', op') :=
    emit_last inb (c_out st) (c_op st) (c_anchor st) (c_p st) in
  mkR op' out' (c_tab st) (c_log st).

(** [while (p<in_len) body]: every round moves [p] forward, so [in_len]
    rounds are enough; [None] is "out of fuel". *)
Fixpoint enc_loop (step : cstate -> cstate) (in_len : Z) (fuel : nat)
  (st : cstate) {struct fuel} : option cstate :=
  if c_p st <? in_len
  then match fuel with
       | O => None
       | S f => enc_loop step in_len f (step st)
       end
  else Some st.

(** *** CompressFast *)

(** The probe of lines 122-140: returns [best_len], [dist] and [HashTable]. *)
Definition fast_find (inb : mem) (in_len : Z) (HT : table) (p : Z)
  : Z * Z * table :=
  let max_match := in_len - p in
  if max_match >=? MIN_MATCH
  then
    let limit := Max (p - WINDOW_SIZE) NIL in
    let h := Hash32 inb p in
    let s := HT h in
    let HT' := store HT h p in
    if (s >? limit) && (UnalignedLoad32 inb s =? UnalignedLoad32 inb p)
    then (match_len (Z.to_nat max_match) inb s p max_match MIN_MATCH,
          p - s, HT')
    else (0, 0, HT')
  else (0, 0, HT).

(** [HashTable[Hash32(&in[p])]=p++;] stores the old [p].  Whether the index
    is computed before or after the increment depends on the language
    version (C++17 evaluates the right operand of [=] first); [rhs_first]
    selects the order. *)
Definition fast_insert (rhs_first : bool) (inb : mem) (HT : table) (p : Z)
  : table :=
  store HT (Hash32 inb (if rhs_first then p + 1 else p)) p.

Definition fast_step (rhs_first : bool) (inb : mem) (in_len : Z)
  (st : cstate) : cstate :=
  let p := c_p st in
  let anchor := c_anchor st in
  let '(best_len0, dist, HT1) :=
    fast_find inb in_len (HashTable (c_tab st)) p in
  let best_len :=
    if (best_len0 =? MIN_MATCH) && (p - anchor >=? 7 + 128)
    then 0 else best_len0 in
  if best_len >=? MIN_MATCH
  then
    let '(out', op') :=
      emit_match inb (c_out st) (c_op st) anchor p dist best_len in
    let HT2 := fast_insert rhs_first inb HT1 (p + 1) in
    let HT3 := fast_insert rhs_first inb HT2 (p + 2) in
    let HT4 := fast_insert rhs_first inb HT3 (p + 3) in
    mkC (p + best_len) (p + best_len) op' out'
      (mkTables HT4 (Prev (c_tab st)))
      (c_log st ++ [mkBackref p dist best_len])
  else
    mkC (p + 1) anchor (c_op st) (c_out st)
      (mkTables HT1 (Prev (c_tab st))) (c_log st).

(** [for (i=0; i<HASH_SIZE; ++i) HashTable[i]=NIL;] *)
Definition reset : table := fun _ => NIL.

Definition CompressFast (rhs_first : bool) (tab : tables) (inb : mem)
  (in_len : Z) (out : mem) : option cresult :=
  let st0 := mkC 0 0 0 out (mkTables reset (Prev tab)) [] in
  option_map (finish inb)
    (enc_loop (fast_step rhs_first inb in_len) in_len (Z.to_nat in_len) st0).

(** *** Compress *)

(** The chain walk of lines 226-250.  [chain_len] counts down from
    [max_chain]; the walk returns [best_len] and [dist]. *)
Fixpoint chain_walk (chain_len : nat) (inb : mem) (prev : table)
  (p max_match limit s best_len dist : Z) : Z * Z :=
  match chain_len with
  | O => (best_len, dist)
  | S c =>
      if s >? limit
      then
        let '(best_len', dist', full) :=
          if (inb (s + best_len) =? inb (p + best_len))
             && (UnalignedLoad32 inb s =? UnalignedLoad32 inb p)
          then
            let len :=
              match_len (Z.to_nat max_match) inb s p max_match MIN_MATCH in
            if len >? best_len
            then (len, p - s, len =? max_match)
            else (best_len, dist, false)
          else (best_len, dist, false) in
        if full then (best_len', dist')
        else if Nat.eqb c 0 then (best_len', dist')
        else chain_walk c inb prev p max_match limit
               (prev (Z.land s WINDOW_MASK)) best_len' dist'
      else (best_len, dist)
  end.

(** The lazy-matching walk of lines 265-286: [true] when a candidate at [x]
    reaches [target_len] (the code then sets [best_len=0]). *)
Fixpoint lazy_walk (chain_len : nat) (inb : mem) (prev : table)
  (x target_len best_len limit s : Z) : bool :=
  match chain_len with
  | O => false
  | S c =>
      if s >? limit
      then
        if (inb (s + best_len) =? inb (x + best_len))
           && (UnalignedLoad32 inb s =? UnalignedLoad32 inb x)
           && (match_len (Z.to_nat target_len) inb s x target_len MIN_MATCH
               =? target_len)
        then true
        else if Nat.eqb c 0 then false
        else lazy_walk c inb prev x target_len best_len limit
               (prev (Z.land s WINDOW_MASK))
      else false
  end.

(** Lines 327-329 (and the body of the loop at 317-322). *)
Definition insert_chained (inb : mem) (tab : tables) (p : Z) : tables :=
  let h := Hash32 inb p in
  mkTables (store (HashTable tab) h p)
           (store (Prev tab) (Z.land p WINDOW_MASK) (HashTable tab h)).

(** [while (best_len--!=0) { insert; p++ }] *)
Fixpoint insert_run (n : nat) (inb : mem) (tab : tables) (p : Z) : tables :=
  match n with
  | O => tab
  | S n' => insert_run n' inb (insert_chained inb tab p) (p + 1)
  end.

Definition normal_step (level max_chain : Z) (inb : mem) (in_len : Z)
  (st : cstate) : cstate :=
  let p := c_p st in
  let anchor := c_anchor st in
  let tab := c_tab st in
  let max_match := in_len - p in
  let '(best_len0, dist) :=
    if max_match >=? MIN_MATCH
    then chain_walk (Z.to_nat max_chain) inb (Prev tab) p max_match
           (Max (p - WINDOW_SIZE) NIL) (HashTable tab (Hash32 inb p)) 0 0
    else (0, 0) in
  let best_len1 :=
    if (best_len0 =? MIN_MATCH) && (p - anchor >=? 7 + 128)
    then 0 else best_len0 in
  let best_len :=
    if (level >=? 5) && (best_len1 >=? MIN_MATCH) && (best_len1 <? max_match)
       && negb (p - anchor =? 6)
    then
      if lazy_walk (Z.to_nat max_chain) inb (Prev tab) (p + 1)
           (best_len1 + 1) best_len1 (Max (p + 1 - WINDOW_SIZE) NIL)
           (HashTable tab (Hash32 inb (p + 1)))
      then 0 else best_len1
    else best_len1 in
  if best_len >=? MIN_MATCH
  then
    let '(out', op') :=
      emit_match inb (c_out st) (c_op st) anchor p dist best_len in
    mkC (p + best_len) (p + best_len) op' out'
      (insert_run (Z.to_nat best_len) inb tab p)
      (c_log st ++ [mkBackref p dist best_len])
  else
    mkC (p + 1) anchor (c_op st) (c_out st) (insert_chained inb tab p)
      (c_log st).

Definition Compress (tab : tables) (inb : mem) (in_len : Z) (out : mem)
  (level : Z) : option cresult :=
  if (level <? 1) || (level >? 9)
  then Some (mkR (-1) out tab [])
  else
    let max_chain := if level <? 9 then Z.shiftl 1 level else Z.shiftl 1 13 in
    let st0 := mkC 0 0 0 out (mkTables reset (Prev tab)) [] in
    option_map (finish inb)
      (enc_loop (normal_step level max_chain inb in_len) in_len
         (Z.to_nat in_len) st0).

(** ** The decompressor *)

(** The local variables of [Decompress] with the output buffer.  [d_rd] and
    [d_wr] are ghost marks: one past the highest offset of the input read so
    far, and one past the highest offset of the output written so far. *)
Record dstate := mkD {
  d_ip : Z;
  d_op : Z;
  d_out : mem;
  d_rd : Z;
  d_wr : Z
}.

(** How one round of the main loop ends: it falls through to the next round,
    leaves the loop by [break], or returns -1. *)
Inductive outcome :=
| Next (st : dstate)
| Break (st : dstate)
| Fail (st : dstate).

(** What [Decompress] leaves: the returned [int], the output buffer and the
    two marks. *)
Record dresult := mkDR {
  dr_ret : Z;
  dr_out : mem;
  dr_rd : Z;
  dr_wr : Z
}.

(** The number of bytes [WildCopy (d, s, n)] moves. *)
Definition chunks (n : Z) : Z := if n <=? 8 then 8 else 8 * ((n + 7) / 8).

(** [*op++=*cp++;] repeated. *)
Fixpoint byte_copy (n : nat) (m : mem) (d s : Z) : mem :=
  match n with
  | O => m
  | S n' => byte_copy n' (store m d (m s)) (d + 1) (s + 1)
  end.

(** Lines 362-375. *)
Definition lit_phase (inb : mem) (ip_end op_end token : Z) (st : dstate)
  : outcome :=
  if token >=? 32
  then
    let run0 := Z.shiftr token 5 in
    let '(run, ip1) :=
      if run0 =? 7
      then let '(x, ip') := DecodeMod inb (d_ip st) in (run0 + x, ip')
      else (run0, d_ip st) in
    let rd1 := Z.max (d_rd st) ip1 in
    if (op_end - d_op st <? run) || (ip_end - ip1 <? run)
    then Fail (mkD ip1 (d_op st) (d_out st) rd1 (d_wr st))
    else
      let st' :=
        mkD (ip1 + run) (d_op st + run)
          (WildCopy (other inb) (d_out st) (d_op st) ip1 run)
          (Z.max rd1 (ip1 + chunks run))
          (Z.max (d_wr st) (d_op st + chunks run)) in
      if ip1 + run >=? ip_end then Break st' else Next st'
  else Next st.

(** Lines 380-402: the checks and the copy, once the length [len] is known
    and [ip] stands at [ip1]. *)
Definition match_copy (inb : mem) (op_end token len ip1 : Z) (st : dstate)
  : outcome :=
  let rd1 := Z.max (d_rd st) ip1 in
  if op_end - d_op st <? len
  then Fail (mkD ip1 (d_op st) (d_out st) rd1 (d_wr st))
  else
    let dist := Z.shiftl (Z.land token 16) 12 + UnalignedLoad16 inb ip1 in
    let ip2 := ip1 + 2 in
    let rd2 := Z.max rd1 ip2 in
    let cp := d_op st - dist in
    if d_op st <? dist
    then Fail (mkD ip2 (d_op st) (d_out st) rd2 (d_wr st))
    else if dist >=? 8
    then
      Next (mkD ip2 (d_op st + len)
              (WildCopy same (d_out st) (d_op st) cp len)
              rd2 (Z.max (d_wr st) (d_op st + chunks len)))
    else
      Next (mkD ip2 (d_op st + len)
              (byte_copy (Z.to_nat (len - 4))
                 (byte_copy 4 (d_out st) (d_op st) cp)
                 (d_op st + 4) (cp + 4))
              rd2 (Z.max (d_wr st) (d_op st + len))).

(** Lines 377-402. *)
Definition match_phase (inb : mem) (op_end token : Z) (st : dstate)
  : outcome :=
  let len0 := Z.land token 15 + MIN_MATCH in
  let '(len, ip1) :=
    if len0 =? 15 + MIN_MATCH
    then let '(x, ip') := DecodeMod inb (d_ip st) in (len0 + x, ip')
    else (len0, d_ip st) in
  match_copy inb op_end token len ip1 st.

(** One round of [while (ip<ip_end)]. *)
Definition dec_step (inb : mem) (ip_end op_end : Z) (st : dstate) : outcome :=
  let token := inb (d_ip st) in
  let st1 :=
    mkD (d_ip st + 1) (d_op st) (d_out st)
      (Z.max (d_rd st) (d_ip st + 1)) (d_wr st) in
  match lit_phase inb ip_end op_end token st1 with
  | Next st2 => match_phase inb op_end token st2
  | o => o
  end.

(** [return (ip==ip_end)?op-out:-1;] *)
Definition dec_finish (ip_end : Z) (st : dstate) : dresult :=
  mkDR (if d_ip st =? ip_end then d_op st else -1)
    (d_out st) (d_rd st) (d_wr st).

(** [return -1;] *)
Definition dec_fail (st : dstate) : dresult :=
  mkDR (-1) (d_out st) (d_rd st) (d_wr st).

(** The main loop: every round reads the token byte, so [in_len] rounds are
    enough; [None] is "out of fuel". *)
Fixpoint dec_loop (inb : mem) (ip_end op_end : Z) (fuel : nat) (st : dstate)
  {struct fuel} : option dresult :=
  if d_ip st <? ip_end
  then match fuel with
       | O => None
       | S f =>
           match dec_step inb ip_end op_end st with
           | Next st' => dec_loop inb ip_end op_end f st'
           | Break st' => Some (dec_finish ip_end st')
           | Fail st' => Some (dec_fail st')
           end
       end
  else Some (dec_finish ip_end st).

Definition Decompress (inb : mem) (in_len : Z) (out : mem) (out_len : Z)
  : option dresult :=
  dec_loop inb in_len out_len (Z.to_nat in_len) (mkD 0 0 out 0 0).

(** The state a round ends in, however it ends. *)
Definition outcome_state (o : outcome) : dstate :=
  match o with
  | Next st | Break st | Fail st => st
  end.

(** ** Specification-level readings of the varint format *)

(** What [DecodeMod] adds up over [n] bytes from [p]: each byte whole,
    shifted by seven bits per position. *)
Fixpoint byte_sum (n : nat) (m : mem) (p i : Z) : Z :=
  match n with
  | O => 0
  | S n' => Z.shiftl (m p) i + byte_sum n' m (p + 1) (i + 7)
  end.

(** The specification's words, "the sum of (byte_i AND 127) shifted left by
    7*i": the standard LSB-first base-128 reading of [n] bytes from [p]. *)
Fixpoint leb128_sum (n : nat) (m : mem) (p i : Z) : Z :=
  match n with
  | O => 0
  | S n' => Z.shiftl (Z.land (m p) 127) i + leb128_sum n' m (p + 1) (i + 7)
  end.

(** ** Specification predicates and invariants *)

(** The largest [int]: [CompressFast] and [Compress] return the length of
    the stream as an [int]. *)
Definition INT_MAX : Z := 2147483647.

(** The longest input whose stream is sure to fit an [int]: a stream takes
    at most one byte more per 16519 bytes of input, and three. *)
Definition max_in_len : Z := 2147353652.

(** [return op-out;] in a function that returns [int] (lines 199 and 348):
    the difference of the two pointers is narrowed to 32 bits, two's
    complement. *)
Definition to_int (x : Z) : Z :=
  (x + 2147483648) mod 4294967296 - 2147483648.

(** Values below [cap r] are encoded on at most [r] bytes. *)
Fixpoint cap (r : nat) : Z :=
  match r with
  | O => 0
  | S r' => 128 + 128 * cap r'
  end.

(** Two states at the same place of their streams and outputs. *)
Definition sim (stA stB : dstate) : Prop :=
  d_ip stA = d_ip stB /\ d_op stA = d_op stB.

(** A match of length [best_len] at distance [dist] for position [p], with
    at most [max_match] bytes left: the distance stays in the window and
    before [p], and (the buffer holding bytes) the input repeats. *)
Definition valid_match (inb : mem) (p max_match dist best_len : Z) : Prop :=
  MIN_MATCH <= best_len <= max_match /\
  1 <= dist <= p /\ dist < WINDOW_SIZE /\
  (bytes_ok inb ->
   forall k, 0 <= k < best_len -> inb (p - dist + k) = inb (p + k)).

(** Every bucket is empty or holds a position before [p]. *)
Definition ht_ok (p : Z) (HT : table) : Prop :=
  forall h, NIL <= HT h < p.

(** Every chain link of a position in the window of [p] is empty or points
    to an earlier position. *)
Definition prev_ok (p : Z) (prev : table) : Prop :=
  forall s, 0 <= s -> p - WINDOW_SIZE < s < p ->
            NIL <= prev (Z.land s WINDOW_MASK) < s.

(** The chain links agree on the window of [p]. *)
Definition prev_agree (p : Z) (prev1 prev2 : table) : Prop :=
  forall s, 0 <= s -> p - WINDOW_SIZE < s < p ->
            prev1 (Z.land s WINDOW_MASK) = prev2 (Z.land s WINDOW_MASK).

(** A back-reference within the window and within the input seen so far. *)
Definition backref_ok (b : backref) : Prop :=
  1 <= br_dist b < WINDOW_SIZE /\ br_dist b <= br_pos b.

(** What a round does to the scan: it passes one byte, or it emits a token
    for a valid match at [p] and passes the match. *)
Inductive step_shape (inb : mem) (in_len : Z) (st st' : cstate) : Prop :=
| shape_skip :
    c_p st' = c_p st + 1 -> c_anchor st' = c_anchor st ->
    c_op st' = c_op st -> c_out st' = c_out st -> c_log st' = c_log st ->
    step_shape inb in_len st st'
| shape_emit (dist best_len : Z) :
    valid_match inb (c_p st) (in_len - c_p st) dist best_len ->
    c_p st' = c_p st + best_len -> c_anchor st' = c_p st + best_len ->
    c_out st' = fst (emit_match inb (c_out st) (c_op st) (c_anchor st) (c_p st)
                       dist best_len) ->
    c_op st' = snd (emit_match inb (c_out st) (c_op st) (c_anchor st) (c_p st)
                      dist best_len) ->
    c_log st' = c_log st ++ [mkBackref (c_p st) dist best_len] ->
    step_shape inb in_len st st'.

(** The invariant of the main loops: the pending run starts at or before
    [p], the buckets hold positions before [p], the logged back-references
    are within bounds. *)
Definition enc_inv (st : cstate) : Prop :=
  0 <= c_anchor st <= c_p st /\ 0 <= c_op st /\
  ht_ok (c_p st) (HashTable (c_tab st)) /\
  Forall backref_ok (c_log st).

(** The decompressor, run on any buffer that starts with the [op] bytes
    written so far, gets through them in [n] rounds and then stands at
    [op] with the input up to [anchor] reproduced. *)
Definition decodes_to (inb : mem) (in_len : Z) (out : mem) (op anchor : Z)
  : Prop :=
  forall C ip_end D0,
    agree 0 op out C -> op <= ip_end ->
    exists n st,
      (forall k, dec_loop C ip_end in_len (n + k) (mkD 0 0 D0 0 0)
                 = dec_loop C ip_end in_len k st) /\
      d_ip st = op /\ d_op st = anchor /\ agree 0 anchor (d_out st) inb /\
      Z.of_nat n <= op.

(** Two compressor states that differ at most in the bytes past [op] of the
    output buffer and in the chain links. *)
Definition same_run (s1 s2 : cstate) : Prop :=
  c_p s1 = c_p s2 /\ c_anchor s1 = c_anchor s2 /\ c_op s1 = c_op s2 /\
  c_log s1 = c_log s2 /\ HashTable (c_tab s1) = HashTable (c_tab s2) /\
  agree 0 (c_op s1) (c_out s1) (c_out s2).

(** Two buffers with the same contents. *)
Definition same_mem (m1 m2 : mem) : Prop := forall a, m1 a = m2 a.

(** Two decompressor states that differ at most in how their output buffers
    are represented. *)
Definition deq (st st' : dstate) : Prop :=
  d_ip st = d_ip st' /\ d_op st = d_op st' /\ d_rd st = d_rd st' /\
  d_wr st = d_wr st' /\ same_mem (d_out st) (d_out st').

(** Two rounds that end the same way, in states that agree. *)
Definition oeq (o o' : outcome) : Prop :=
  match o, o' with
  | Next st, Next st' | Break st, Break st' | Fail st, Fail st' => deq st st'
  | _, _ => False
  end.

(** Two output buffers that hold the same bytes from their start on. *)
Definition from_start (m1 m2 : mem) : Prop := forall a, 0 <= a -> m1 a = m2 a.

(** Two decompressor states at the same place, their output buffers the
    same from their start on. *)
Definition dfrom (st st' : dstate) : Prop :=
  d_ip st = d_ip st' /\ d_op st = d_op st' /\ d_rd st = d_rd st' /\
  d_wr st = d_wr st' /\ from_start (d_out st) (d_out st').

(** Two rounds that end the same way, in such states. *)
Definition ofrom (o o' : outcome) : Prop :=
  match o, o' with
  | Next st, Next st' | Break st, Break st' | Fail st, Fail st' => dfrom st st'
  | _, _ => False
  end.

(** ** Predicates for the further properties *)

(** Two rounds that end the same way, at the same place of the stream and of
    the output. *)
Definition osim (o o' : outcome) : Prop :=
  match o, o' with
  | Next st, Next st' | Break st, Break st' | Fail st, Fail st' => sim st st'
  | _, _ => False
  end.

(** The number of bytes [EncodeMod] writes for the [U32] value [x]. *)
Definition ModSize (x : Z) : Z :=
  if x <? 128 then 1 else if x <? 16512 then 2
  else if x <? 2113664 then 3 else if x <? 270549120 then 4 else 5.

(** The bytes of the extension of a field that holds [x] from [base] on. *)
Definition ext_size (x base : Z) : Z :=
  if x >=? base then ModSize (u32 (x - base)) else 0.

(** So far the output exceeds the input passed by at most one byte per
    16519. *)
Definition within_budget (in_len : Z) (st : cstate) : Prop :=
  c_p st <= in_len /\ 16519 * (c_op st - c_anchor st) <= c_anchor st.

(** No cell before the buffer or from five past [op] on has been written. *)
Definition untouched (out0 : mem) (st : cstate) : Prop :=
  forall a, a < 0 \/ c_op st + 5 <= a -> c_out st a = out0 a.

(** A back-reference that is a repeat: at least [MIN_MATCH] bytes, all
    inside the input, each equal to the byte [br_dist] before it. *)
Definition genuine (inb : mem) (in_len : Z) (b : backref) : Prop :=
  MIN_MATCH <= br_len b /\ br_pos b + br_len b <= in_len /\
  forall k, 0 <= k < br_len b ->
            inb (br_pos b - br_dist b + k) = inb (br_pos b + k).

(** Back-references in the order of the input, none starting before the
    one before it ends; [lo] is where the first may start. *)
Fixpoint in_order (lo : Z) (log : list backref) : Prop :=
  match log with
  | [] => True
  | b :: l => lo <= br_pos b /\ in_order (br_pos b + br_len b) l
  end.

(** The log so far: repeats, in order, all passed by [anchor]. *)
Definition tidy_log (inb : mem) (in_len : Z) (st : cstate) : Prop :=
  Forall (genuine inb in_len) (c_log st) /\ in_order 0 (c_log st) /\
  Forall (fun b => br_pos b + br_len b <= c_anchor st) (c_log st).

(** The bytes of the tokens of a log, the first literal run starting at
    [lo]: per token the token byte, the literals with their extension, the
    length extension and two distance bytes. *)
Fixpoint tokens_size (lo : Z) (log : list backref) : Z :=
  match log with
  | [] => 0
  | b :: l =>
      1 + ext_size (br_pos b - lo) 7 + (br_pos b - lo)
      + ext_size (br_len b - MIN_MATCH) 15 + 2
      + tokens_size (br_pos b + br_len b) l
  end.

(** Where the last back-reference of a log ends ([lo] for none). *)
Fixpoint log_end (lo : Z) (log : list backref) : Z :=
  match log with
  | [] => lo
  | b :: l => log_end (br_pos b + br_len b) l
  end.

(** The bytes of the trailing literals from [lo] to the end of the input. *)
Definition tail_size (in_len lo : Z) : Z :=
  if lo =? in_len then 0 else 1 + ext_size (in_len - lo) 7 + (in_len - lo).

(** The bytes of the whole stream, from its back-references. *)
Definition stream_size (in_len : Z) (log : list backref) : Z :=
  tokens_size 0 log + tail_size in_len (log_end 0 log).

(** The output so far is accounted for by the log. *)
Definition accounted (in_len : Z) (st : cstate) : Prop :=
  c_p st <= in_len /\ c_op st = tokens_size 0 (c_log st) /\
  c_anchor st = log_end 0 (c_log st).

(** While nothing has been emitted, nothing has been written. *)
Definition no_token_yet (in_len : Z) (out0 : mem) (st : cstate) : Prop :=
  c_p st <= in_len /\
  (c_log st = [] -> c_anchor st = 0 /\ c_op st = 0 /\ c_out st = out0).

(** Two compressor states of runs on two inputs: at the same place, with
    the same bytes written below [op], and with the same arrays unless fewer
    than [MIN_MATCH] bytes are left (no probe follows then). *)
Definition same_in (in_len : Z) (s1 s2 : cstate) : Prop :=
  c_p s1 = c_p s2 /\ c_anchor s1 = c_anchor s2 /\ c_op s1 = c_op s2 /\
  c_log s1 = c_log s2 /\ agree 0 (c_op s1) (c_out s1) (c_out s2) /\
  (in_len - c_p s1 < MIN_MATCH \/ c_tab s1 = c_tab s2).

(** The candidates a chain walk looks at: the positions reached from [s]
    through the chain links while they stay above [limit], at most [n] of
    them. *)
Fixpoint chain_list (n : nat) (prev : table) (limit s : Z) : list Z :=
  match n with
  | O => []
  | S n' =>
      if s >? limit
      then s :: chain_list n' prev limit (prev (Z.land s WINDOW_MASK))
      else []
  end.

(** The length of the match of candidate [c] for position [p], as the inner
    loop of the walks measures it. *)
Definition match_at (inb : mem) (p max_match c : Z) : Z :=
  match_len (Z.to_nat max_match) inb c p max_match MIN_MATCH.

(** ** An input that does not compress *)

(** Groups of three bytes that count upwards: the first byte of group [q]
    holds [q mod 85], the second [85 + (q / 85) mod 85], the third
    [170 + (q / 7225) mod 85].  Three bytes in a row give the place they
    stand at, up to a multiple of 3 * 85^3. *)
Definition ramp (a : Z) : Z :=
  85 * (a mod 3) + (a / 3 / 85 ^ (a mod 3)) mod 85.

(** The four bytes that [ramp] has at 8, four bytes 255, then [ramp] from 8
    on: 170 3 85 170 255 255 255 255 170 3 85 170 4 85 170 5 ... *)
Definition long_input (a : Z) : Z :=
  if a <? 4 then ramp (a + 8) else if a <? 8 then 255 else ramp a.

(** * Proofs *)

(** [test_is b v]: the boolean test [b] has the value [v], by linear
    arithmetic over the context. *)
Ltac settle_test b v := replace b with v by lia.

Ltac settle_test_in b v H := replace b with v in H by lia.

Tactic Notation "test_is" constr(b) constr(v) := settle_test b v.

Tactic Notation "test_is" constr(b) constr(v) "in" hyp(H) :=
  settle_test_in b v H.

(** ** Arithmetic of the bit operations used by the codec *)

Lemma WINDOW_SIZE_val : WINDOW_SIZE = 131072.
Proof. reflexivity. Qed.

Lemma WINDOW_MASK_val : WINDOW_MASK = 131071.
Proof. reflexivity. Qed.

Lemma u8_small x : 0 <= x < 256 -> u8 x = x.
Proof. intros; unfold u8; apply Z.mod_small; lia. Qed.

Lemma u32_small x : 0 <= x < 4294967296 -> u32 x = x.
Proof. intros; unfold u32; apply Z.mod_small; lia. Qed.

Lemma land_127 x : Z.land x 127 = x mod 128.
Proof. change 127 with (Z.ones 7). rewrite Z.land_ones by lia. reflexivity. Qed.

Lemma shiftr_7 x : Z.shiftr x 7 = x / 128.
Proof. rewrite Z.shiftr_div_pow2 by lia. reflexivity. Qed.

Lemma store_eq m a v : store m a v a = v.
Proof. unfold store. rewrite Z.eqb_refl. reflexivity. Qed.

Lemma store_neq m a v a' : a' <> a -> store m a v a' = m a'.
Proof. intros H. unfold store. apply Z.eqb_neq in H. rewrite H. reflexivity. Qed.

(** The arrays are addressed within their bounds. *)
Lemma Hash32_range m p : 0 <= Hash32 m p < HASH_SIZE.
Proof.
  unfold Hash32, u32, HASH_SIZE, HASH_BITS.
  rewrite Z.shiftr_div_pow2 by lia. change (2 ^ (32 - 19)) with 8192.
  change (Z.shiftl 1 19) with 524288.
  pose proof (Z.mod_pos_bound (UnalignedLoad32 m p * 2654435769) 4294967296
                ltac:(lia)) as H.
  split.
  - apply Z.div_pos; lia.
  - apply Z.div_lt_upper_bound; lia.
Qed.

Lemma slot_range s : 0 <= Z.land s WINDOW_MASK < WINDOW_SIZE.
Proof.
  change WINDOW_MASK with (Z.ones 17). rewrite Z.land_ones by lia.
  rewrite WINDOW_SIZE_val. apply Z.mod_pos_bound. lia.
Qed.

(** ** EncodeMod and DecodeMod *)

Lemma cap_nonneg r : 0 <= cap r.
Proof. induction r; cbn [cap]; lia. Qed.

Lemma EncodeMod_loop_spec :
  forall rounds fuel m p x,
    (rounds <= fuel)%nat -> 0 <= x < cap rounds ->
    p < snd (EncodeMod_loop fuel m p x) <= p + Z.of_nat rounds /\
    (forall a, a < p \/ snd (EncodeMod_loop fuel m p x) <= a ->
               fst (EncodeMod_loop fuel m p x) a = m a) /\
    (forall a, 0 <= fst (EncodeMod_loop fuel m p x) a < 256 \/
               fst (EncodeMod_loop fuel m p x) a = m a) /\
    forall m2 acc i,
      agree p (snd (EncodeMod_loop fuel m p x)) (fst (EncodeMod_loop fuel m p x)) m2 ->
      0 <= acc -> 0 <= i -> acc + x * 2 ^ i < 4294967296 ->
      DecodeMod_loop rounds m2 p acc i
      = (acc + x * 2 ^ i, snd (EncodeMod_loop fuel m p x)).
Proof.
  induction rounds as [|r IH]; intros fuel m p x Hf Hx.
  - simpl in Hx. lia.
  - destruct fuel as [|f]; [lia|].
    assert (Hc := cap_nonneg r).
    cbn [EncodeMod_loop cap] in *.
    destruct (128 <=? x) eqn:E.
    + apply Z.leb_le in E.
      rewrite land_127, shiftr_7.
      set (b := 128 + (x - 128) mod 128).
      set (x1 := (x - 128) / 128).
      assert (Hb : 128 <= b < 256) by (subst b; pose proof (Z.mod_pos_bound (x - 128) 128); lia).
      assert (Hx1 : 0 <= x1 < cap r).
      { subst x1. split.
        - apply Z.div_pos; lia.
        - apply Z.div_lt_upper_bound; lia. }
      assert (Hsum : b + 128 * x1 = x).
      { subst b x1. pose proof (Z.div_mod (x - 128) 128). lia. }
      rewrite (u8_small b) by lia.
      destruct (IH f (store m p b) (p + 1) x1 ltac:(lia) Hx1) as (Hp & Hfr & Hby & Hdec).
      set (R := EncodeMod_loop f (store m p b) (p + 1) x1) in *.
      refine (conj _ (conj _ (conj _ _))).
      * lia.
      * intros a Ha. rewrite Hfr by lia. apply store_neq. lia.
      * intros a. destruct (Hby a) as [?|Heq]; [left; lia|].
        destruct (Z.eq_dec a p) as [->|Hne].
        -- left. rewrite Heq, store_eq. lia.
        -- right. rewrite Heq. apply store_neq. exact Hne.
      * intros m2 acc i Hag Hacc Hi Hlt.
        cbn [DecodeMod_loop].
        assert (Hm2 : m2 p = b).
        { rewrite <- Hag by lia. rewrite Hfr by lia. apply store_eq. }
        rewrite Hm2.
        test_is (b <? 128) false.
        rewrite Z.shiftl_mul_pow2 by lia.
        assert (Hpow : 2 ^ (i + 7) = 2 ^ i * 128).
        { rewrite Z.pow_add_r by lia. reflexivity. }
        assert (Hpos : 0 < 2 ^ i) by (apply Z.pow_pos_nonneg; lia).
        assert (Hexp : acc + x * 2 ^ i = acc + b * 2 ^ i + x1 * 2 ^ (i + 7)).
        { rewrite Hpow. rewrite <- Hsum. ring. }
        assert (Hx1p : 0 <= x1 * 2 ^ (i + 7)) by (apply Z.mul_nonneg_nonneg; lia).
        assert (Hbp : 0 <= b * 2 ^ i) by (apply Z.mul_nonneg_nonneg; lia).
        rewrite u32_small by lia.
        rewrite Hdec.
        -- rewrite Hexp. reflexivity.
        -- intros a Ha. apply Hag. lia.
        -- lia.
        -- lia.
        -- lia.
    + apply Z.leb_gt in E.
      rewrite (u8_small x) by lia.
      cbn [fst snd].
      refine (conj _ (conj _ (conj _ _))).
      * lia.
      * intros a Ha. apply store_neq. lia.
      * intros a. destruct (Z.eq_dec a p) as [->|Hne].
        -- left. rewrite store_eq. lia.
        -- right. apply store_neq. exact Hne.
      * intros m2 acc i Hag Hacc Hi Hlt.
        cbn [DecodeMod_loop].
        assert (Hm2 : m2 p = x).
        { rewrite <- Hag by lia. apply store_eq. }
        rewrite Hm2.
        test_is (x <? 128) true.
        rewrite Z.shiftl_mul_pow2 by lia.
        assert (Hpos : 0 < 2 ^ i) by (apply Z.pow_pos_nonneg; lia).
        assert (Hbp : 0 <= x * 2 ^ i) by (apply Z.mul_nonneg_nonneg; lia).
        rewrite u32_small by lia.
        reflexivity.
Qed.

Lemma DecodeMod_loop_sum :
  forall r m p acc i,
    bytes_ok m -> 0 <= acc -> 0 <= i ->
    acc + 2 ^ i * (2 * cap (S r)) <= 4294967296 ->
    exists n : nat,
      (1 <= n <= S r)%nat /\
      snd (DecodeMod_loop (S r) m p acc i) = p + Z.of_nat n /\
      fst (DecodeMod_loop (S r) m p acc i) = acc + byte_sum n m p i /\
      (forall k, 0 <= k < Z.of_nat n - 1 -> 128 <= m (p + k)) /\
      ((n < S r)%nat -> m (p + Z.of_nat n - 1) < 128).
Proof.
  induction r as [|r IH]; intros m p acc i Hb Hacc Hi Hlt.
  - exists 1%nat. pose proof (Hb p) as Hc.
    assert (Hpos : 0 < 2 ^ i) by (apply Z.pow_pos_nonneg; lia).
    cbn [cap] in Hlt.
    cbn [DecodeMod_loop byte_sum].
    rewrite Z.shiftl_mul_pow2 by lia.
    rewrite u32_small by nia.
    destruct (m p <? 128); cbn [fst snd]; repeat split; try lia.
  - pose proof (Hb p) as Hc.
    assert (Hpos : 0 < 2 ^ i) by (apply Z.pow_pos_nonneg; lia).
    assert (Hcap := cap_nonneg r).
    assert (Hpow : 2 ^ (i + 7) = 2 ^ i * 128) by (rewrite Z.pow_add_r by lia; reflexivity).
    cbn [cap] in Hlt.
    assert (Hstep : acc + m p * 2 ^ i + 2 ^ (i + 7) * (2 * cap (S r)) <= 4294967296).
    { cbn [cap]. rewrite Hpow. nia. }
    change (DecodeMod_loop (S (S r)) m p acc i)
      with (if m p <? 128 then (u32 (acc + Z.shiftl (m p) i), p + 1)
            else DecodeMod_loop (S r) m (p + 1) (u32 (acc + Z.shiftl (m p) i)) (i + 7)).
    rewrite Z.shiftl_mul_pow2 by lia.
    assert (Hcp : 0 <= m p * 2 ^ i) by nia.
    assert (Hsm : acc + m p * 2 ^ i < 4294967296) by nia.
    rewrite u32_small by lia.
    destruct (m p <? 128) eqn:E.
    + apply Z.ltb_lt in E. exists 1%nat. cbn [fst snd byte_sum].
      rewrite Z.shiftl_mul_pow2 by lia.
      repeat split; try lia.
      intros _. replace (p + Z.of_nat 1 - 1) with p by lia. exact E.
    + apply Z.ltb_ge in E.
      destruct (IH m (p + 1) (acc + m p * 2 ^ i) (i + 7) Hb ltac:(lia) ltac:(lia) Hstep)
        as (n & Hn & Hsnd & Hfst & Hhi & Hlast).
      exists (S n). rewrite Hsnd, Hfst. cbn [byte_sum].
      rewrite Z.shiftl_mul_pow2 by lia.
      repeat split; try lia.
      * intros k Hk. destruct (Z.eq_dec k 0) as [->|Hk0].
        -- rewrite Z.add_0_r. lia.
        -- replace (p + k) with (p + 1 + (k - 1)) by lia. apply Hhi. lia.
      * intros Hlt'. replace (p + Z.of_nat (S n) - 1) with (p + 1 + Z.of_nat n - 1) by lia.
        apply Hlast. lia.
Qed.

(** For a [U32] the fuel of [EncodeMod] is never used up: more fuel changes
    nothing. *)
Lemma EncodeMod_loop_fuel : forall r f1 f2 m p x,
  (r <= f1)%nat -> (r <= f2)%nat -> 0 <= x < cap r ->
  EncodeMod_loop f1 m p x = EncodeMod_loop f2 m p x.
Proof.
  induction r as [|r IH]; intros f1 f2 m p x H1 H2 Hx.
  - cbn [cap] in Hx. lia.
  - destruct f1 as [|f1]; [lia|]. destruct f2 as [|f2]; [lia|].
    assert (Hc := cap_nonneg r).
    cbn [EncodeMod_loop cap] in *.
    destruct (128 <=? x) eqn:E; [|reflexivity].
    apply Z.leb_le in E. apply IH; try lia.
    rewrite shiftr_7. split.
    + apply Z.div_pos; lia.
    + apply Z.div_lt_upper_bound; lia.
Qed.

Lemma EncodeMod_fuel m p x k :
  EncodeMod_loop (5 + k) m p (u32 x) = EncodeMod m p x.
Proof.
  unfold EncodeMod. apply (EncodeMod_loop_fuel 5); try lia.
  unfold u32. pose proof (Z.mod_pos_bound x 4294967296 ltac:(lia)).
  change (cap 5) with 34630287488. lia.
Qed.

Lemma of_list_bytes_ok l :
  forallb (fun b => (0 <=? b) && (b <? 256)) l = true -> bytes_ok (of_list l).
Proof.
  intros H a. unfold of_list.
  destruct (a <? 0); [lia|].
  rewrite forallb_forall in H.
  destruct (nth_in_or_default (Z.to_nat a) l 0) as [Hin | ->]; [|lia].
  apply H in Hin. apply andb_true_iff in Hin. lia.
Qed.

Lemma EncodeMod_loop_bytes :
  forall fuel m p x,
    0 <= x < cap fuel ->
    (forall a, p <= a < snd (EncodeMod_loop fuel m p x) - 1 ->
               128 <= fst (EncodeMod_loop fuel m p x) a < 256) /\
    0 <= fst (EncodeMod_loop fuel m p x) (snd (EncodeMod_loop fuel m p x) - 1) < 128 /\
    fst (EncodeMod_loop fuel m p x) p mod 128 = x mod 128.
Proof.
  induction fuel as [|f IH]; intros m p x Hx.
  - cbn [cap] in Hx. lia.
  - assert (Hc := cap_nonneg f).
    cbn [EncodeMod_loop cap] in *.
    destruct (128 <=? x) eqn:E.
    + apply Z.leb_le in E.
      rewrite land_127, shiftr_7.
      set (b := 128 + (x - 128) mod 128).
      set (x1 := (x - 128) / 128).
      assert (Hb : 128 <= b < 256) by (subst b; pose proof (Z.mod_pos_bound (x - 128) 128); lia).
      assert (Hx1 : 0 <= x1 < cap f).
      { subst x1. split.
        - apply Z.div_pos; lia.
        - apply Z.div_lt_upper_bound; lia. }
      rewrite (u8_small b) by lia.
      destruct (IH (store m p b) (p + 1) x1 Hx1) as (Hhi & Hlast & _).
      destruct (EncodeMod_loop_spec f f (store m p b) (p + 1) x1 (le_n _) Hx1)
        as (Hp & Hfr & _).
      set (R := EncodeMod_loop f (store m p b) (p + 1) x1) in *.
      assert (Hfirst : fst R p = b) by (rewrite Hfr by lia; apply store_eq).
      refine (conj _ (conj Hlast _)).
      * intros a Ha. destruct (Z.eq_dec a p) as [->|Hne].
        -- rewrite Hfirst. exact Hb.
        -- apply Hhi. lia.
      * rewrite Hfirst. subst b.
        replace (128 + (x - 128) mod 128) with ((x - 128) mod 128 + 1 * 128) by lia.
        rewrite Z.mod_add by lia. rewrite Z.mod_mod by lia.
        replace x with (x - 128 + 1 * 128) at 2 by lia.
        rewrite Z.mod_add by lia. reflexivity.
    + apply Z.leb_gt in E.
      rewrite (u8_small x) by lia. cbn [fst snd].
      replace (p + 1 - 1) with p by lia. rewrite store_eq.
      refine (conj _ (conj _ _)); [intros a Ha; lia | lia | reflexivity].
Qed.

(** The bytes [EncodeMod] writes, taken whole, add up to the value. *)
Lemma EncodeMod_loop_sum :
  forall fuel m p x i,
    0 <= x < cap fuel -> 0 <= i ->
    byte_sum (Z.to_nat (snd (EncodeMod_loop fuel m p x) - p))
      (fst (EncodeMod_loop fuel m p x)) p i
    = x * 2 ^ i.
Proof.
  induction fuel as [|f IH]; intros m p x i Hx Hi.
  - cbn [cap] in Hx. lia.
  - assert (Hc := cap_nonneg f).
    cbn [EncodeMod_loop cap] in *.
    destruct (128 <=? x) eqn:E.
    + apply Z.leb_le in E.
      rewrite land_127, shiftr_7.
      set (b := 128 + (x - 128) mod 128).
      set (x1 := (x - 128) / 128).
      assert (Hb : 128 <= b < 256)
        by (subst b; pose proof (Z.mod_pos_bound (x - 128) 128); lia).
      assert (Hx1 : 0 <= x1 < cap f).
      { subst x1. split.
        - apply Z.div_pos; lia.
        - apply Z.div_lt_upper_bound; lia. }
      rewrite (u8_small b) by lia.
      specialize (IH (store m p b) (p + 1) x1 (i + 7) Hx1 ltac:(lia)).
      destruct (EncodeMod_loop_spec f f (store m p b) (p + 1) x1 (le_n _) Hx1)
        as (Hp & Hfr & _).
      set (R := EncodeMod_loop f (store m p b) (p + 1) x1) in *.
      replace (Z.to_nat (snd R - p)) with (S (Z.to_nat (snd R - (p + 1)))) by lia.
      cbn [byte_sum]. rewrite IH.
      rewrite Hfr by lia. rewrite store_eq.
      rewrite Z.shiftl_mul_pow2 by lia.
      rewrite Z.pow_add_r by lia. change (2 ^ 7) with 128.
      assert (Hdm : x - 128 = 128 * x1 + (x - 128) mod 128)
        by (subst x1; apply Z.div_mod; lia).
      subst b. nia.
    + apply Z.leb_gt in E.
      rewrite (u8_small x) by lia. cbn [fst snd].
      replace (Z.to_nat (p + 1 - p)) with 1%nat by lia.
      cbn [byte_sum]. rewrite store_eq.
      rewrite Z.shiftl_mul_pow2 by lia. lia.
Qed.

(** C9.  On every value below 2^27 the two halves of the varint codec agree:
    [DecodeMod], run on the bytes [EncodeMod] wrote at [p], returns the value
    and stops exactly where [EncodeMod] stopped, at most four bytes on. *)
Theorem EncodeMod_DecodeMod_inverse (m : mem) (p x : Z) :
  0 <= x < 2 ^ 27 ->
  DecodeMod (fst (EncodeMod m p x)) p = (x, snd (EncodeMod m p x)) /\
  1 <= snd (EncodeMod m p x) - p <= 4.
Proof.
  intros Hx. change (2 ^ 27) with 134217728 in Hx.
  unfold EncodeMod. rewrite u32_small by lia.
  destruct (EncodeMod_loop_spec 4 5 m p x ltac:(lia)) as (Hp & _ & _ & Hdec).
  { cbn. lia. }
  split.
  - unfold DecodeMod. rewrite (Hdec _ 0 0); try lia.
    + f_equal. change (2 ^ 0) with 1. lia.
    + intros a Ha. reflexivity.
  - change (Z.of_nat 4) with 4 in Hp. lia.
Qed.

(** The theorem at the value 100000, written at offset 3. *)
Lemma EncodeMod_DecodeMod_inverse_witness :
  DecodeMod (fst (EncodeMod (of_list []) 3 100000)) 3
  = (100000, snd (EncodeMod (of_list []) 3 100000)) /\
  1 <= snd (EncodeMod (of_list []) 3 100000) - 3 <= 4.
Proof. apply (EncodeMod_DecodeMod_inverse (of_list []) 3 100000). cbn. lia. Defined.

(** C3, as the code has it.  [DecodeMod] consumes between one and four
    bytes, stops at the first byte below 128, and returns the sum of the
    consumed bytes, each taken whole (continuation bit included) and shifted
    left by seven bits per position.  [EncodeMod] writes at least one byte;
    every byte but the last is 128 or more, the last is below 128, and the
    low seven bits of the first byte are those of the value.  The bytes it
    writes, taken whole in the same way, add up to the value: with each
    further byte the encoder has taken 128 off. *)
Theorem varint_codec_shape (m : mem) (p x : Z) :
  bytes_ok m -> 0 <= x < 4294967296 ->
  (exists n : nat,
      (1 <= n <= 4)%nat /\
      snd (DecodeMod m p) = p + Z.of_nat n /\
      fst (DecodeMod m p) = byte_sum n m p 0 /\
      (forall k, 0 <= k < Z.of_nat n - 1 -> 128 <= m (p + k)) /\
      ((n < 4)%nat -> m (p + Z.of_nat n - 1) < 128)) /\
  p < snd (EncodeMod m p x) /\
  (forall a, p <= a < snd (EncodeMod m p x) - 1 ->
             128 <= fst (EncodeMod m p x) a < 256) /\
  0 <= fst (EncodeMod m p x) (snd (EncodeMod m p x) - 1) < 128 /\
  fst (EncodeMod m p x) p mod 128 = x mod 128 /\
  byte_sum (Z.to_nat (snd (EncodeMod m p x) - p)) (fst (EncodeMod m p x)) p 0
  = x.
Proof.
  intros Hb Hx. split.
  - destruct (DecodeMod_loop_sum 3 m p 0 0 Hb ltac:(lia) ltac:(lia))
      as (n & Hn & Hsnd & Hfst & Hhi & Hlast).
    { cbn. lia. }
    exists n. unfold DecodeMod. rewrite Hsnd, Hfst.
    repeat split; try lia; assumption.
  - unfold EncodeMod. rewrite u32_small by lia.
    assert (Hcap : 0 <= x < cap 5) by (cbn; lia).
    destruct (EncodeMod_loop_bytes 5 m p x Hcap) as (Hhi & Hlast & Hlow).
    destruct (EncodeMod_loop_spec 5 5 m p x (le_n _) Hcap) as (Hp & _).
    pose proof (EncodeMod_loop_sum 5 m p x 0 Hcap ltac:(lia)) as Hsum.
    change (2 ^ 0) with 1 in Hsum. rewrite Z.mul_1_r in Hsum.
    repeat split; try lia; try assumption; apply Hhi; assumption.
Qed.

(** The theorem at the bytes 200, 3 and the value 584. *)
Lemma varint_codec_shape_witness :
  (exists n : nat,
      (1 <= n <= 4)%nat /\
      snd (DecodeMod (of_list [200; 3]) 0) = 0 + Z.of_nat n /\
      fst (DecodeMod (of_list [200; 3]) 0) = byte_sum n (of_list [200; 3]) 0 0 /\
      (forall k, 0 <= k < Z.of_nat n - 1 -> 128 <= of_list [200; 3] (0 + k)) /\
      ((n < 4)%nat -> of_list [200; 3] (0 + Z.of_nat n - 1) < 128)) /\
  0 < snd (EncodeMod (of_list [200; 3]) 0 584) /\
  (forall a, 0 <= a < snd (EncodeMod (of_list [200; 3]) 0 584) - 1 ->
             128 <= fst (EncodeMod (of_list [200; 3]) 0 584) a < 256) /\
  0 <= fst (EncodeMod (of_list [200; 3]) 0 584)
         (snd (EncodeMod (of_list [200; 3]) 0 584) - 1) < 128 /\
  fst (EncodeMod (of_list [200; 3]) 0 584) 0 mod 128 = 584 mod 128 /\
  byte_sum (Z.to_nat (snd (EncodeMod (of_list [200; 3]) 0 584) - 0))
    (fst (EncodeMod (of_list [200; 3]) 0 584)) 0 0
  = 584.
Proof.
  apply (varint_codec_shape (of_list [200; 3]) 0 584).
  - apply of_list_bytes_ok. reflexivity.
  - lia.
Defined.

(** C3, as stated, fails: on the two bytes 128, 0 [DecodeMod] consumes both
    and returns 128, where the sum of the bytes masked with 127 is 0. *)
Lemma DecodeMod_is_not_leb128 :
  DecodeMod (of_list [128; 0]) 0 = (128, 2) /\
  leb128_sum 2 (of_list [128; 0]) 0 0 = 0.
Proof. split; reflexivity. Qed.

(** ** The block copies *)

Lemma chunks_mult n :
  exists q, chunks n = 8 * q /\ 1 <= q /\ n <= 8 * q /\ (q = 1 \/ 8 * (q - 1) < n).
Proof.
  unfold chunks. destruct (n <=? 8) eqn:E.
  - apply Z.leb_le in E. exists 1. lia.
  - apply Z.leb_gt in E. exists ((n + 7) / 8).
    pose proof (Z.div_mod (n + 7) 8 ltac:(lia)).
    pose proof (Z.mod_pos_bound (n + 7) 8 ltac:(lia)). lia.
Qed.

Lemma chunks_bounds n : 1 <= n -> n <= chunks n <= n + 7.
Proof.
  intros Hn. destruct (chunks_mult n) as (q & -> & H1 & H2 & H3). lia.
Qed.

(** An invariant [Inv i dm] ("chunks up to [i] are done") kept by every
    round of the loop holds of the result at [chunks n]. *)
Lemma WildCopy_loop_inv (src : mem -> mem) (d s n : Z) (Inv : Z -> mem -> Prop) :
  (forall i dm, 8 <= i < n -> Inv i dm ->
                Inv (i + 8) (UnalignedCopy64 dm (d + i) (src dm) (s + i))) ->
  forall q, chunks n = 8 * q -> n <= 8 * q -> (q = 1 \/ 8 * (q - 1) < n) ->
  forall fuel j dm,
    1 <= j <= q -> q - j <= Z.of_nat fuel -> Inv (8 * j) dm ->
    Inv (chunks n) (WildCopy_loop fuel src dm d s n (8 * j)).
Proof.
  intros Hstep q Hq Hn Hq1.
  induction fuel as [|f IH]; intros j dm Hj Hf Hinv; cbn [WildCopy_loop].
  - assert (j = q) by lia. subst j. rewrite Hq. exact Hinv.
  - destruct (8 * j <? n) eqn:E.
    + apply Z.ltb_lt in E.
      replace (8 * j + 8) with (8 * (j + 1)) by lia.
      apply IH; [lia | lia |].
      replace (8 * (j + 1)) with (8 * j + 8) by lia.
      apply Hstep; [lia | exact Hinv].
    + apply Z.ltb_ge in E.
      assert (j = q) by lia. subst j. rewrite Hq. exact Hinv.
Qed.

Lemma WildCopy_inv (src : mem -> mem) (dm : mem) (d s n : Z) (Inv : Z -> mem -> Prop) :
  (forall i dm, 8 <= i < n -> Inv i dm ->
                Inv (i + 8) (UnalignedCopy64 dm (d + i) (src dm) (s + i))) ->
  Inv 8 (UnalignedCopy64 dm d (src dm) s) ->
  Inv (chunks n) (WildCopy src dm d s n).
Proof.
  intros Hstep H0. unfold WildCopy.
  destruct (chunks_mult n) as (q & Hq & H1 & H2 & H3).
  pose proof (WildCopy_loop_inv src d s n Inv Hstep q Hq H2 H3 (Z.to_nat n) 1
                (UnalignedCopy64 dm d (src dm) s)) as H.
  change (8 * 1) with 8 in H. apply H; [lia | lia | exact H0].
Qed.

Lemma UnalignedCopy64_in dm d sm s a :
  d <= a < d + 8 -> UnalignedCopy64 dm d sm s a = sm (s + (a - d)).
Proof.
  intros H. unfold UnalignedCopy64.
  test_is (d <=? a) true.
  test_is (a <? d + 8) true.
  reflexivity.
Qed.

Lemma UnalignedCopy64_out dm d sm s a :
  a < d \/ d + 8 <= a -> UnalignedCopy64 dm d sm s a = dm a.
Proof.
  intros H. unfold UnalignedCopy64.
  destruct (d <=? a) eqn:E1; [|reflexivity].
  destruct (a <? d + 8) eqn:E2; [|reflexivity].
  apply Z.leb_le in E1. apply Z.ltb_lt in E2. lia.
Qed.

(** [WildCopy] touches the cells [d, d + chunks n) only. *)
Lemma WildCopy_frame src dm d s n a :
  a < d \/ d + chunks n <= a -> WildCopy src dm d s n a = dm a.
Proof.
  intros Ha.
  pose proof (chunks_mult n) as (q & Hq & Hq1 & _).
  apply (WildCopy_inv src dm d s n
           (fun i m => i <= chunks n -> m a = dm a)).
  - intros i m Hi Hinv Hle. rewrite UnalignedCopy64_out by lia. apply Hinv. lia.
  - intros Hle. apply UnalignedCopy64_out. lia.
  - lia.
Qed.

(** From another buffer, it moves the cells [s, s + chunks n). *)
Lemma WildCopy_other sm dm d s n a :
  d <= a < d + chunks n -> WildCopy (other sm) dm d s n a = sm (s + (a - d)).
Proof.
  intros Ha.
  apply (WildCopy_inv (other sm) dm d s n
           (fun i m => a < d + i -> m a = sm (s + (a - d)))).
  - intros i m Hi Hinv Hlt. unfold other.
    destruct (Z_lt_dec a (d + i)) as [Hl|Hl].
    + rewrite UnalignedCopy64_out by lia. apply Hinv. exact Hl.
    + rewrite UnalignedCopy64_in by lia. f_equal. lia.
  - intros Hlt. unfold other. apply UnalignedCopy64_in. lia.
  - lia.
Qed.

(** Inside one buffer, at a distance of 8 or more: if the buffer holds [inb]
    below [d] and [inb] repeats at distance [dist] on [d, d + n), the buffer
    holds [inb] below [d + n] afterwards. *)
Lemma WildCopy_same inb dm d dist n :
  8 <= dist <= d -> 1 <= n ->
  agree 0 d dm inb ->
  (forall a, d <= a < d + n -> inb (a - dist) = inb a) ->
  agree 0 (d + n) (WildCopy same dm d (d - dist) n) inb.
Proof.
  intros Hd Hn Hag Hrep.
  assert (H : agree 0 (d + Z.min (chunks n) n) (WildCopy same dm d (d - dist) n) inb).
  { apply (WildCopy_inv same dm d (d - dist) n
             (fun i m => agree 0 (d + Z.min i n) m inb)).
    - intros i m Hi Hinv a Ha. unfold same.
      destruct (Z_lt_dec a (d + i)) as [Hl|Hl].
      + rewrite UnalignedCopy64_out by lia. apply Hinv. lia.
      + rewrite UnalignedCopy64_in by lia.
        replace (d - dist + i + (a - (d + i))) with (a - dist) by lia.
        rewrite Hinv by lia. apply Hrep. lia.
    - intros a Ha. unfold same.
      destruct (Z_lt_dec a d) as [Hl|Hl].
      + rewrite UnalignedCopy64_out by lia. apply Hag. lia.
      + rewrite UnalignedCopy64_in by lia.
        replace (d - dist + (a - d)) with (a - dist) by lia.
        rewrite Hag by lia. apply Hrep. lia. }
  pose proof (chunks_bounds n Hn).
  intros a Ha. apply H. lia.
Qed.

Lemma byte_copy_frame n : forall m d s a,
  a < d \/ d + Z.of_nat n <= a -> byte_copy n m d s a = m a.
Proof.
  induction n as [|n IH]; intros m d s a Ha; cbn [byte_copy]; [reflexivity|].
  rewrite IH by lia. apply store_neq. lia.
Qed.

Lemma byte_copy_same inb n : forall m d dist,
  1 <= dist <= d ->
  agree 0 d m inb ->
  (forall a, d <= a < d + Z.of_nat n -> inb (a - dist) = inb a) ->
  agree 0 (d + Z.of_nat n) (byte_copy n m d (d - dist)) inb.
Proof.
  induction n as [|n IH]; intros m d dist Hd Hag Hrep; cbn [byte_copy].
  - intros a Ha. apply Hag. lia.
  - replace (d + Z.of_nat (S n)) with (d + 1 + Z.of_nat n) by lia.
    replace (d - dist + 1) with (d + 1 - dist) by lia.
    apply IH.
    + lia.
    + intros a Ha. destruct (Z.eq_dec a d) as [->|Hne].
      * rewrite store_eq. rewrite Hag by lia. apply Hrep. lia.
      * rewrite store_neq by exact Hne. apply Hag. lia.
    + intros a Ha. apply Hrep. lia.
Qed.

(** ** The decompressor: progress, capacity and footprint *)

Lemma DecodeMod_advance m p :
  p + 1 <= snd (DecodeMod m p) <= p + 4 /\
  0 <= fst (DecodeMod m p) < 4294967296.
Proof.
  unfold DecodeMod. cbn [DecodeMod_loop].
  repeat match goal with
         | |- context [if ?c then _ else _] => destruct c
         end;
    cbn [fst snd]; (split; [lia | unfold u32; apply Z.mod_pos_bound; lia]).
Qed.

Lemma shiftr_5 x : Z.shiftr x 5 = x / 32.
Proof. rewrite Z.shiftr_div_pow2 by lia. reflexivity. Qed.

Lemma land_15 x : Z.land x 15 = x mod 16.
Proof. change 15 with (Z.ones 4). rewrite Z.land_ones by lia. reflexivity. Qed.

Section DecoderStep.

Variable inb : mem.
Variables ip_end op_end : Z.
(** Bounds for the two marks. *)
Variables Bi Bo : Z.
Hypothesis HBi : ip_end + 7 <= Bi.
Hypothesis HBo : op_end + 7 <= Bo.

Lemma lit_phase_spec token st :
  d_ip st <= ip_end -> d_rd st <= Bi -> d_wr st <= Bo ->
  d_rd (outcome_state (lit_phase inb ip_end op_end token st)) <= Bi /\
  d_wr (outcome_state (lit_phase inb ip_end op_end token st)) <= Bo /\
  match lit_phase inb ip_end op_end token st with
  | Next st' =>
      (st' = st /\ token < 32) \/
      (32 <= token /\ d_ip st < d_ip st' < ip_end /\ d_op st < d_op st' <= op_end)
  | Break st' => d_ip st' = ip_end /\ d_op st < d_op st' <= op_end
  | Fail st' => True
  end.
Proof.
  intros Hip Hrd Hwr. unfold lit_phase.
  destruct (token >=? 32) eqn:Et.
  2:{ cbn [outcome_state]. repeat split; try lia. left. split; [reflexivity|lia]. }
  assert (Ht : 32 <= token) by lia.
  assert (Hrun0 : 1 <= Z.shiftr token 5).
  { rewrite shiftr_5. apply Z.div_le_lower_bound; lia. }
  pose proof (DecodeMod_advance inb (d_ip st)) as [Hadv Hval].
  destruct (DecodeMod inb (d_ip st)) as [x ip'] eqn:ED. cbn [fst snd] in Hadv, Hval.
  set (pr := if Z.shiftr token 5 =? 7 then (Z.shiftr token 5 + x, ip')
             else (Z.shiftr token 5, d_ip st)).
  assert (Hpr : 1 <= fst pr /\ d_ip st <= snd pr <= d_ip st + 4).
  { subst pr. destruct (Z.shiftr token 5 =? 7); cbn [fst snd]; lia. }
  destruct pr as [run ip1]. cbn [fst snd] in Hpr.
  destruct ((op_end - d_op st <? run) || (ip_end - ip1 <? run)) eqn:Ec.
  { cbn [outcome_state d_rd d_wr]. repeat split; lia. }
  apply orb_false_iff in Ec. destruct Ec as [Ec1 Ec2].
  apply Z.ltb_ge in Ec1, Ec2.
  pose proof (chunks_bounds run ltac:(lia)) as Hch.
  destruct (ip1 + run >=? ip_end) eqn:Eb;
    cbn [outcome_state d_rd d_wr d_ip d_op]; repeat split; lia.
Qed.

Lemma match_phase_spec token st :
  d_ip st <= ip_end -> d_rd st <= Bi -> d_wr st <= Bo ->
  d_rd (outcome_state (match_phase inb op_end token st)) <= Bi /\
  d_wr (outcome_state (match_phase inb op_end token st)) <= Bo /\
  match match_phase inb op_end token st with
  | Next st' => d_ip st < d_ip st' /\ d_op st + 4 <= d_op st' <= op_end
  | Break st' => False
  | Fail st' => True
  end.
Proof.
  intros Hip Hrd Hwr. unfold match_phase, match_copy.
  assert (Hl0 : 0 <= Z.land token 15).
  { rewrite land_15. apply Z.mod_pos_bound. lia. }
  pose proof (DecodeMod_advance inb (d_ip st)) as [Hadv Hval].
  destruct (DecodeMod inb (d_ip st)) as [x ip'] eqn:ED. cbn [fst snd] in Hadv, Hval.
  unfold MIN_MATCH.
  set (pr := if Z.land token 15 + 4 =? 15 + 4 then (Z.land token 15 + 4 + x, ip')
             else (Z.land token 15 + 4, d_ip st)).
  assert (Hpr : 4 <= fst pr /\ d_ip st <= snd pr <= d_ip st + 4).
  { subst pr. destruct (Z.land token 15 + 4 =? 15 + 4); cbn [fst snd]; lia. }
  destruct pr as [len ip1]. cbn [fst snd] in Hpr.
  destruct (op_end - d_op st <? len) eqn:Ec.
  { cbn [outcome_state d_rd d_wr]. repeat split; lia. }
  apply Z.ltb_ge in Ec.
  pose proof (chunks_bounds len ltac:(lia)) as Hch.
  destruct (d_op st <? _) eqn:Ed.
  { cbn [outcome_state d_rd d_wr]. repeat split; lia. }
  destruct (_ >=? 8) eqn:E8;
    cbn [outcome_state d_rd d_wr d_ip d_op]; repeat split; lia.
Qed.

Lemma dec_step_spec st :
  d_ip st < ip_end -> d_rd st <= Bi -> d_wr st <= Bo ->
  d_rd (outcome_state (dec_step inb ip_end op_end st)) <= Bi /\
  d_wr (outcome_state (dec_step inb ip_end op_end st)) <= Bo /\
  match dec_step inb ip_end op_end st with
  | Next st' => d_ip st < d_ip st' /\ d_op st < d_op st' <= op_end
  | Break st' => d_ip st' = ip_end /\ d_op st < d_op st' <= op_end
  | Fail st' => True
  end.
Proof.
  intros Hip Hrd Hwr. unfold dec_step.
  set (st1 := mkD (d_ip st + 1) (d_op st) (d_out st)
                (Z.max (d_rd st) (d_ip st + 1)) (d_wr st)).
  assert (H1 : d_ip st1 <= ip_end) by (unfold st1; cbn [d_ip]; lia).
  assert (H2 : d_rd st1 <= Bi) by (unfold st1; cbn [d_rd]; lia).
  assert (H3 : d_ip st1 = d_ip st + 1 /\ d_op st1 = d_op st) by (split; reflexivity).
  pose proof (lit_phase_spec (inb (d_ip st)) st1 H1 H2 Hwr) as HL.
  destruct (lit_phase inb ip_end op_end (inb (d_ip st)) st1) as [st2|st2|st2];
    cbn [outcome_state] in HL |- *.
  - destruct HL as (Hrd2 & Hwr2 & Hcase).
    assert (Hst2 : d_ip st < d_ip st2 <= ip_end /\ d_op st <= d_op st2).
    { destruct Hcase as [[-> _] | (_ & H4 & H5)]; lia. }
    pose proof (match_phase_spec (inb (d_ip st)) st2 ltac:(lia) Hrd2 Hwr2) as HM.
    destruct (match_phase inb op_end (inb (d_ip st)) st2); cbn [outcome_state] in *.
    + repeat split; lia.
    + destruct HM as (_ & _ & []).
    + repeat split; lia.
  - repeat split; lia.
  - repeat split; lia.
Qed.

(** The loop returns; it returns -1 or the final [op], which is within the
    declared capacity; the marks stay within their bounds. *)
Lemma dec_loop_spec :
  forall fuel st,
    ip_end - d_ip st <= Z.of_nat fuel ->
    0 <= d_op st <= op_end -> d_rd st <= Bi -> d_wr st <= Bo ->
    exists r,
      dec_loop inb ip_end op_end fuel st = Some r /\
      (dr_ret r = -1 \/ d_op st <= dr_ret r <= op_end) /\
      dr_rd r <= Bi /\ dr_wr r <= Bo.
Proof.
  induction fuel as [|f IH]; intros st Hf Hop Hrd Hwr.
  - cbn [dec_loop].
    test_is (d_ip st <? ip_end) false.
    eexists. split; [reflexivity|].
    unfold dec_finish; cbn [dr_ret dr_rd dr_wr].
    destruct (d_ip st =? ip_end); repeat split; try lia.
  - cbn [dec_loop].
    destruct (d_ip st <? ip_end) eqn:E.
    + apply Z.ltb_lt in E.
      pose proof (dec_step_spec st E Hrd Hwr) as HS.
      destruct (dec_step inb ip_end op_end st) as [st'|st'|st'];
        cbn [outcome_state] in HS; destruct HS as (Hrd' & Hwr' & Hc).
      * destruct (IH st' ltac:(lia) ltac:(lia) Hrd' Hwr') as (r & Hr & Hret & Hb).
        exists r. split; [exact Hr|]. split; [lia | exact Hb].
      * eexists. split; [reflexivity|].
        unfold dec_finish; cbn [dr_ret dr_rd dr_wr].
        destruct (d_ip st' =? ip_end); repeat split; lia.
      * eexists. split; [reflexivity|].
        unfold dec_fail; cbn [dr_ret dr_rd dr_wr]. repeat split; lia.
    + eexists. split; [reflexivity|].
      unfold dec_finish; cbn [dr_ret dr_rd dr_wr].
      destruct (d_ip st =? ip_end); repeat split; lia.
Qed.

End DecoderStep.

(** C6, as the code has it.  For a non-negative declared capacity
    [Decompress] returns, and what it returns is -1 or a byte count between 0
    and the capacity; nothing makes the count equal to the capacity. *)
Theorem Decompress_count_within_capacity (inb : mem) (in_len : Z) (out : mem)
  (out_len : Z) :
  0 <= out_len ->
  exists r,
    Decompress inb in_len out out_len = Some r /\
    (dr_ret r = -1 \/ 0 <= dr_ret r <= out_len).
Proof.
  intros Ho. unfold Decompress.
  destruct (dec_loop_spec inb in_len out_len (Z.max in_len 0 + 7) (out_len + 7)
              ltac:(lia) ltac:(lia) (Z.to_nat in_len) (mkD 0 0 out 0 0))
    as (r & Hr & Hret & _); cbn [d_ip d_op d_rd d_wr]; try lia.
  exists r. split; [exact Hr|]. cbn [d_op] in Hret. lia.
Qed.

(** The theorem at the stream of sixteen 'A's, capacity 20. *)
Lemma Decompress_count_within_capacity_witness :
  exists r,
    Decompress (of_list [43; 65; 1; 0]) 4 (of_list []) 20 = Some r /\
    (dr_ret r = -1 \/ 0 <= dr_ret r <= 20).
Proof.
  apply (Decompress_count_within_capacity (of_list [43; 65; 1; 0]) 4 (of_list []) 20).
  lia.
Defined.

(** C6, as stated, fails: the four-byte stream of sixteen 'A's, decoded with
    a declared capacity of 20, returns 16. *)
Lemma Decompress_count_below_capacity :
  option_map dr_ret (Decompress (of_list [43; 65; 1; 0]) 4 (of_list []) 20)
  = Some 16.
Proof. vm_compute. reflexivity. Qed.

(** C10.  A distance of 0 passes the range check.  In the stream 0, 0, 0 the
    only token has no literals, length 4 and distance 0; no byte has been
    produced when the check [(op-out)<dist] is made, it passes, four bytes
    are "copied" and [Decompress] returns 4.  The same happens after a
    literal (stream 32, 65, 0, 0: one byte produced, then distance 0). *)
Theorem Decompress_accepts_distance_0 :
  Z.shiftl (Z.land (of_list [0; 0; 0] 0) 16) 12
  + UnalignedLoad16 (of_list [0; 0; 0]) 1 = 0 /\
  (exists st,
      match_phase (of_list [0; 0; 0]) 4 0 (mkD 1 0 (of_list []) 1 0) = Next st /\
      d_op st = 4) /\
  option_map dr_ret (Decompress (of_list [0; 0; 0]) 3 (of_list []) 4) = Some 4 /\
  Z.shiftl (Z.land (of_list [32; 65; 0; 0] 0) 16) 12
  + UnalignedLoad16 (of_list [32; 65; 0; 0]) 2 = 0 /\
  option_map dr_ret (Decompress (of_list [32; 65; 0; 0]) 4 (of_list []) 5)
  = Some 5.
Proof.
  split; [reflexivity|]. split.
  - eexists. split; [vm_compute; reflexivity | reflexivity].
  - repeat split; vm_compute; reflexivity.
Qed.

(** ** The decompressor on a cut stream *)

Lemma DecodeMod_loop_snd r : forall m p x i,
  p <= snd (DecodeMod_loop r m p x i) /\
  (r <> O -> p + 1 <= snd (DecodeMod_loop r m p x i)).
Proof.
  induction r as [|r IH]; intros m p x i; cbn [DecodeMod_loop].
  - cbn [snd]. split; [lia | congruence].
  - destruct (m p <? 128); cbn [snd].
    + split; intros; lia.
    + destruct (IH m (p + 1) (u32 (x + Z.shiftl (m p) i)) (i + 7)) as [H _].
      split; intros; lia.
Qed.

(** [DecodeMod] depends on the bytes it consumes only. *)
Lemma DecodeMod_loop_local (m1 m2 : mem) (n : Z) r : forall p x i,
  agree 0 n m1 m2 -> 0 <= p ->
  snd (DecodeMod_loop r m1 p x i) <= n ->
  DecodeMod_loop r m2 p x i = DecodeMod_loop r m1 p x i.
Proof.
  induction r as [|r IH]; intros p x i Hag Hp Hn; cbn [DecodeMod_loop] in *.
  - reflexivity.
  - assert (Hlt : p < n).
    { destruct (m1 p <? 128); cbn [snd] in Hn; [lia|].
      pose proof (DecodeMod_loop_snd r m1 (p + 1) (u32 (x + Z.shiftl (m1 p) i)) (i + 7)) as [H _].
      lia. }
    rewrite <- (Hag p) by lia.
    destruct (m1 p <? 128); [reflexivity|].
    apply IH; [exact Hag | lia | exact Hn].
Qed.

Lemma DecodeMod_local (m1 m2 : mem) (n p : Z) :
  agree 0 n m1 m2 -> 0 <= p -> snd (DecodeMod m1 p) <= n ->
  DecodeMod m2 p = DecodeMod m1 p.
Proof. apply DecodeMod_loop_local. Qed.

Lemma dec_step_grows inb ip_end op_end st :
  d_ip st < ip_end ->
  match dec_step inb ip_end op_end st with
  | Next st' => d_ip st < d_ip st' /\ d_op st < d_op st'
  | Break st' => d_ip st' = ip_end /\ d_op st < d_op st'
  | Fail _ => True
  end.
Proof.
  intros Hip.
  pose proof (dec_step_spec inb ip_end op_end
                (Z.max (ip_end + 7) (d_rd st)) (Z.max (op_end + 7) (d_wr st))
                ltac:(lia) ltac:(lia) st Hip ltac:(lia) ltac:(lia)) as (_ & _ & H).
  destruct (dec_step inb ip_end op_end st); try exact I; lia.
Qed.

Lemma dec_loop_ret_ge inb ip_end op_end : forall fuel st r,
  dec_loop inb ip_end op_end fuel st = Some r ->
  dr_ret r = -1 \/ d_op st <= dr_ret r.
Proof.
  induction fuel as [|f IH]; intros st r Hr; cbn [dec_loop] in Hr.
  - destruct (d_ip st <? ip_end); [discriminate|].
    injection Hr as <-. unfold dec_finish; cbn [dr_ret].
    destruct (d_ip st =? ip_end); lia.
  - destruct (d_ip st <? ip_end) eqn:E.
    + apply Z.ltb_lt in E. pose proof (dec_step_grows inb ip_end op_end st E) as HG.
      destruct (dec_step inb ip_end op_end st) as [st'|st'|st'].
      * apply IH in Hr. lia.
      * injection Hr as <-. unfold dec_finish; cbn [dr_ret].
        destruct (d_ip st' =? ip_end); lia.
      * injection Hr as <-. left. reflexivity.
    + injection Hr as <-. unfold dec_finish; cbn [dr_ret].
      destruct (d_ip st =? ip_end); lia.
Qed.

Lemma dec_loop_ret_gt inb ip_end op_end fuel st r :
  d_ip st < ip_end ->
  dec_loop inb ip_end op_end fuel st = Some r ->
  dr_ret r = -1 \/ d_op st < dr_ret r.
Proof.
  intros Hip Hr. destruct fuel as [|f]; cbn [dec_loop] in Hr;
    test_is (d_ip st <? ip_end) true in Hr.
  - discriminate.
  - pose proof (dec_step_grows inb ip_end op_end st Hip) as HG.
    destruct (dec_step inb ip_end op_end st) as [st'|st'|st'].
    + apply dec_loop_ret_ge in Hr. lia.
    + injection Hr as <-. unfold dec_finish; cbn [dr_ret].
      destruct (d_ip st' =? ip_end); lia.
    + injection Hr as <-. left. reflexivity.
Qed.

Lemma dec_loop_past inb ip_end op_end fuel st :
  ip_end < d_ip st ->
  exists r, dec_loop inb ip_end op_end fuel st = Some r /\ dr_ret r = -1.
Proof.
  intros H. eexists. split.
  - destruct fuel; cbn [dec_loop];
      test_is (d_ip st <? ip_end) false;
      reflexivity.
  - unfold dec_finish; cbn [dr_ret].
    test_is (d_ip st =? ip_end) false.
    reflexivity.
Qed.

Section CutStream.

(** Run A decodes the first [nA] bytes of the stream run B decodes. *)
Variables inA inB : mem.
Variables nA nB op_end : Z.
Hypothesis Hcut : nA < nB.
Hypothesis Hsame : agree 0 nA inA inB.

Lemma lit_phase_sim token stA stB :
  sim stA stB -> 0 <= d_ip stA <= nA ->
  match lit_phase inA nA op_end token stA with
  | Fail _ => True
  | Break stA' =>
      exists stB', lit_phase inB nB op_end token stB = Next stB' /\
                   sim stA' stB' /\ d_ip stA' = nA
  | Next stA' =>
      exists stB', lit_phase inB nB op_end token stB = Next stB' /\
                   sim stA' stB' /\ d_ip stA <= d_ip stA' <= nA
  end.
Proof.
  intros [Hip Hop] Hrange. unfold lit_phase. rewrite <- Hip, <- Hop.
  destruct (token >=? 32) eqn:Et.
  2:{ exists stB. repeat split; try assumption; lia. }
  assert (Hrun0 : 1 <= Z.shiftr token 5).
  { rewrite shiftr_5. apply Z.div_le_lower_bound; lia. }
  pose proof (DecodeMod_advance inA (d_ip stA)) as [Hadv Hval].
  destruct (Z.shiftr token 5 =? 7) eqn:E7.
  - destruct (DecodeMod inA (d_ip stA)) as [x ip'] eqn:EA. cbn [fst snd] in *.
    destruct (Z_le_dec ip' nA) as [Hle|Hgt].
    + rewrite (DecodeMod_local inA inB nA (d_ip stA) Hsame) by (rewrite ?EA; cbn [snd]; lia).
      rewrite EA.
      destruct ((op_end - d_op stA <? Z.shiftr token 5 + x)
                || (nA - ip' <? Z.shiftr token 5 + x)) eqn:Ec; [exact I|].
      apply orb_false_iff in Ec. destruct Ec as [Ec1 Ec2].
      rewrite Ec1. apply Z.ltb_ge in Ec2.
      test_is (nB - ip' <? Z.shiftr token 5 + x) false.
      cbn [orb].
      test_is (ip' + (Z.shiftr token 5 + x) >=? nB) false.
      destruct (ip' + (Z.shiftr token 5 + x) >=? nA) eqn:Eb.
      * eexists. split; [reflexivity|]. unfold sim. cbn [d_ip d_op]. lia.
      * eexists. split; [reflexivity|]. unfold sim. cbn [d_ip d_op]. lia.
    + test_is (nA - ip' <? Z.shiftr token 5 + x) true.
      rewrite orb_true_r. exact I.
  - destruct ((op_end - d_op stA <? Z.shiftr token 5)
              || (nA - d_ip stA <? Z.shiftr token 5)) eqn:Ec; [exact I|].
    apply orb_false_iff in Ec. destruct Ec as [Ec1 Ec2].
    rewrite Ec1. apply Z.ltb_ge in Ec2.
    test_is (nB - d_ip stA <? Z.shiftr token 5) false.
    cbn [orb].
    test_is (d_ip stA + Z.shiftr token 5 >=? nB) false.
    destruct (d_ip stA + Z.shiftr token 5 >=? nA) eqn:Eb.
    * eexists. split; [reflexivity|]. unfold sim. cbn [d_ip d_op]. lia.
    * eexists. split; [reflexivity|]. unfold sim. cbn [d_ip d_op]. lia.
Qed.

Lemma UnalignedLoad16_local p :
  0 <= p -> p + 2 <= nA -> UnalignedLoad16 inB p = UnalignedLoad16 inA p.
Proof.
  intros H0 H1. unfold UnalignedLoad16.
  rewrite <- (Hsame p) by lia. rewrite <- (Hsame (p + 1)) by lia. reflexivity.
Qed.

Lemma match_copy_sim token len ip1 stA stB :
  sim stA stB -> 0 <= d_ip stA <= ip1 ->
  match match_copy inA op_end token len ip1 stA with
  | Fail _ => True
  | Break _ => False
  | Next stA' =>
      nA < d_ip stA' \/
      exists stB', match_copy inB op_end token len ip1 stB = Next stB' /\
                   sim stA' stB' /\ d_ip stA < d_ip stA' <= nA
  end.
Proof.
  intros [Hip Hop] Hrange. unfold match_copy. rewrite <- Hop.
  destruct (op_end - d_op stA <? len); [exact I|].
  cbv zeta.
  destruct (Z_le_dec (ip1 + 2) nA) as [Hle|Hgt].
  - rewrite (UnalignedLoad16_local ip1) by lia.
    destruct (d_op stA <? _); [exact I|].
    destruct (_ >=? 8).
    + right. eexists. split; [reflexivity|]. unfold sim. cbn [d_ip d_op]. lia.
    + right. eexists. split; [reflexivity|]. unfold sim. cbn [d_ip d_op]. lia.
  - destruct (d_op stA <? _); [exact I|].
    destruct (_ >=? 8); left; cbn [d_ip]; lia.
Qed.

Lemma match_copy_past token len ip1 st :
  nA < ip1 ->
  match match_copy inA op_end token len ip1 st with
  | Fail _ => True
  | Break _ => False
  | Next st' => nA < d_ip st'
  end.
Proof.
  intros Hgt. unfold match_copy.
  destruct (op_end - d_op st <? len); [exact I|].
  cbv zeta.
  destruct (d_op st <? _); [exact I|].
  destruct (_ >=? 8); cbn [d_ip]; lia.
Qed.

Lemma match_phase_sim token stA stB :
  sim stA stB -> 0 <= d_ip stA <= nA ->
  match match_phase inA op_end token stA with
  | Fail _ => True
  | Break _ => False
  | Next stA' =>
      nA < d_ip stA' \/
      exists stB', match_phase inB op_end token stB = Next stB' /\
                   sim stA' stB' /\ d_ip stA < d_ip stA' <= nA
  end.
Proof.
  intros Hsim Hrange. unfold match_phase.
  destruct Hsim as [Hip Hop]. rewrite <- Hip.
  pose proof (DecodeMod_advance inA (d_ip stA)) as [Hadv Hval].
  destruct (Z.land token 15 + MIN_MATCH =? 15 + MIN_MATCH).
  - destruct (DecodeMod inA (d_ip stA)) as [x ip'] eqn:EA. cbn [fst snd] in *.
    destruct (Z_le_dec ip' nA) as [Hle|Hgt].
    + rewrite (DecodeMod_local inA inB nA (d_ip stA) Hsame) by (rewrite ?EA; cbn [snd]; lia).
      rewrite EA. apply match_copy_sim; [split; assumption | lia].
    + pose proof (match_copy_past token (Z.land token 15 + MIN_MATCH + x) ip' stA ltac:(lia)) as HP.
      destruct (match_copy inA op_end token _ ip' stA); try exact HP. left. exact HP.
  - apply match_copy_sim; [split; assumption | lia].
Qed.

(** If the whole stream decodes to [dr_ret rB] bytes, the cut stream is
    rejected or decodes to fewer bytes. *)
Lemma cut_stream_loop : forall fA stA fB stB rB,
  sim stA stB -> 0 <= d_ip stA <= nA -> nA - d_ip stA <= Z.of_nat fA ->
  dec_loop inB nB op_end fB stB = Some rB -> dr_ret rB <> -1 ->
  exists rA,
    dec_loop inA nA op_end fA stA = Some rA /\
    (dr_ret rA = -1 \/ dr_ret rA < dr_ret rB).
Proof.
  induction fA as [|fA IH]; intros stA fB stB rB Hsim Hrange HfA HB HrB.
  - (* A is at the end of its stream; B still has a token to decode *)
    assert (d_ip stA = nA) by lia.
    cbn [dec_loop].
    test_is (d_ip stA <? nA) false.
    eexists. split; [reflexivity|].
    unfold dec_finish; cbn [dr_ret].
    test_is (d_ip stA =? nA) true.
    destruct Hsim as [Hip Hop].
    pose proof (dec_loop_ret_gt inB nB op_end fB stB rB ltac:(lia) HB). lia.
  - destruct Hsim as [Hip Hop].
    cbn [dec_loop].
    destruct (d_ip stA <? nA) eqn:E.
    2:{ apply Z.ltb_ge in E.
        eexists. split; [reflexivity|].
        unfold dec_finish; cbn [dr_ret].
        test_is (d_ip stA =? nA) true.
        pose proof (dec_loop_ret_gt inB nB op_end fB stB rB ltac:(lia) HB). lia. }
    apply Z.ltb_lt in E.
    destruct fB as [|fB]; cbn [dec_loop] in HB;
      test_is (d_ip stB <? nB) true in HB;
      [discriminate|].
    unfold dec_step in HB |- *.
    rewrite <- Hip in HB. rewrite <- (Hsame (d_ip stA)) in HB by lia.
    set (tok := inA (d_ip stA)) in *.
    set (stA1 := mkD (d_ip stA + 1) (d_op stA) (d_out stA)
                   (Z.max (d_rd stA) (d_ip stA + 1)) (d_wr stA)).
    set (stB1 := mkD (d_ip stA + 1) (d_op stB) (d_out stB)
                   (Z.max (d_rd stB) (d_ip stA + 1)) (d_wr stB)) in HB.
    assert (Hsim1 : sim stA1 stB1) by (split; [reflexivity | exact Hop]).
    assert (Hr1 : 0 <= d_ip stA1 <= nA) by (unfold stA1; cbn [d_ip]; lia).
    pose proof (lit_phase_sim tok stA1 stB1 Hsim1 Hr1) as HL.
    destruct (lit_phase inA nA op_end tok stA1) as [stA2|stA2|stA2].
    + destruct HL as (stB2 & HLB & Hsim2 & Hr2).
      rewrite HLB in HB.
      assert (Hr2' : 0 <= d_ip stA2 <= nA) by lia.
      pose proof (match_phase_sim tok stA2 stB2 Hsim2 Hr2') as HM.
      destruct (match_phase inA op_end tok stA2) as [stA3|stA3|stA3].
      * destruct HM as [Hpast | (stB3 & HMB & Hsim3 & Hr3)].
        -- destruct (dec_loop_past inA nA op_end fA stA3 Hpast) as (rA & HrA & Hm1).
           exists rA. split; [exact HrA | left; exact Hm1].
        -- rewrite HMB in HB.
           apply (IH stA3 fB stB3 rB Hsim3); try assumption.
           ++ lia.
           ++ unfold stA1 in Hr2. cbn [d_ip] in Hr2. lia.
      * destruct HM.
      * eexists. split; [reflexivity | left; reflexivity].
    + destruct HL as (stB2 & HLB & Hsim2 & Hr2).
      rewrite HLB in HB.
      eexists. split; [reflexivity|].
      unfold dec_finish; cbn [dr_ret].
      test_is (d_ip stA2 =? nA) true.
      destruct Hsim2 as [Hip2 Hop2].
      pose proof (match_phase_spec inB nB op_end
                    (Z.max (nB + 7) (d_rd stB2)) (Z.max (op_end + 7) (d_wr stB2))
                    ltac:(lia) ltac:(lia) tok stB2 ltac:(lia) ltac:(lia) ltac:(lia))
        as (_ & _ & HMB).
      destruct (match_phase inB op_end tok stB2) as [stB3|stB3|stB3].
      * apply dec_loop_ret_ge in HB. lia.
      * destruct HMB.
      * injection HB as <-. cbn [dec_fail dr_ret] in HrB. congruence.
    + eexists. split; [reflexivity | left; reflexivity].
Qed.

End CutStream.

Lemma Decompress_cut (inA inB : mem) (nA nB : Z) (outA outB : mem)
  (out_len : Z) (rB : dresult) :
  nA < nB -> agree 0 nA inA inB ->
  Decompress inB nB outB out_len = Some rB -> dr_ret rB <> -1 ->
  exists rA,
    Decompress inA nA outA out_len = Some rA /\
    (dr_ret rA = -1 \/ dr_ret rA < dr_ret rB).
Proof.
  intros Hcut Hsame HB HrB. unfold Decompress in *.
  destruct (Z_lt_dec nA 0) as [Hneg|Hpos].
  - destruct (dec_loop_past inA nA out_len (Z.to_nat nA) (mkD 0 0 outA 0 0))
      as (rA & HrA & Hm1); [cbn [d_ip]; lia|].
    exists rA. split; [exact HrA | left; exact Hm1].
  - apply (cut_stream_loop inA inB nA nB out_len Hcut Hsame
             (Z.to_nat nA) (mkD 0 0 outA 0 0) (Z.to_nat nB) (mkD 0 0 outB 0 0) rB);
      try assumption; unfold sim; cbn [d_ip d_op]; lia.
Qed.

(** ** The decompressor: the marks bound the footprint *)

(** The copies take equal buffers to equal buffers. *)
Lemma WildCopy_loop_same_mem (src : mem -> mem) :
  (forall m1 m2, same_mem m1 m2 -> same_mem (src m1) (src m2)) ->
  forall fuel m1 m2 d s n i,
    same_mem m1 m2 ->
    same_mem (WildCopy_loop fuel src m1 d s n i) (WildCopy_loop fuel src m2 d s n i).
Proof.
  intros Hsrc. induction fuel as [|f IH]; intros m1 m2 d s n i Hm; cbn [WildCopy_loop].
  - exact Hm.
  - destruct (i <? n); [|exact Hm].
    apply IH. intros a. unfold UnalignedCopy64.
    destruct ((d + i <=? a) && (a <? d + i + 8)); [apply Hsrc; exact Hm | apply Hm].
Qed.

Lemma WildCopy_same_mem m1 m2 d s n :
  same_mem m1 m2 -> same_mem (WildCopy same m1 d s n) (WildCopy same m2 d s n).
Proof.
  intros Hm. unfold WildCopy.
  apply WildCopy_loop_same_mem; [intros a b H; exact H|].
  intros a. unfold UnalignedCopy64, same.
  destruct ((d <=? a) && (a <? d + 8)); apply Hm.
Qed.

Lemma WildCopy_other_local sm1 sm2 m1 m2 d s n :
  same_mem m1 m2 -> agree s (s + chunks n) sm1 sm2 ->
  same_mem (WildCopy (other sm1) m1 d s n) (WildCopy (other sm2) m2 d s n).
Proof.
  intros Hm Hs a.
  destruct (Z_lt_dec a d) as [Hl|Hl].
  - rewrite !WildCopy_frame by lia. apply Hm.
  - destruct (Z_lt_dec a (d + chunks n)) as [Hh|Hh].
    + rewrite !WildCopy_other by lia. apply Hs. lia.
    + rewrite !WildCopy_frame by lia. apply Hm.
Qed.

Lemma byte_copy_same_mem n : forall m1 m2 d s,
  same_mem m1 m2 -> same_mem (byte_copy n m1 d s) (byte_copy n m2 d s).
Proof.
  induction n as [|n IH]; intros m1 m2 d s Hm; cbn [byte_copy]; [exact Hm|].
  apply IH. intros a. unfold store. rewrite (Hm s).
  destruct (a =? d); [reflexivity | apply Hm].
Qed.

Section Footprint.

Variables inb : mem.
Variables ip_end op_end : Z.

(** The marks only grow, and a round writes between [op] and the new write
    mark only. *)
Lemma lit_phase_marks token st :
  d_rd st <= d_rd (outcome_state (lit_phase inb ip_end op_end token st)) /\
  d_wr st <= d_wr (outcome_state (lit_phase inb ip_end op_end token st)) /\
  d_op st <= d_op (outcome_state (lit_phase inb ip_end op_end token st)) /\
  forall a,
    a < d_op st \/ d_wr (outcome_state (lit_phase inb ip_end op_end token st)) <= a ->
    d_out (outcome_state (lit_phase inb ip_end op_end token st)) a = d_out st a.
Proof.
  unfold lit_phase.
  destruct (token >=? 32) eqn:Et; [|cbn [outcome_state]; repeat split; lia].
  assert (Hrun0 : 1 <= Z.shiftr token 5).
  { rewrite shiftr_5. apply Z.div_le_lower_bound; lia. }
  pose proof (DecodeMod_advance inb (d_ip st)) as [Hadv Hval].
  destruct (DecodeMod inb (d_ip st)) as [x ip']. cbn [fst snd] in Hadv, Hval.
  set (pr := if Z.shiftr token 5 =? 7 then (Z.shiftr token 5 + x, ip')
             else (Z.shiftr token 5, d_ip st)).
  assert (Hpr : 1 <= fst pr) by (subst pr; destruct (Z.shiftr token 5 =? 7); cbn [fst]; lia).
  destruct pr as [run ip1]. cbn [fst] in Hpr.
  destruct ((op_end - d_op st <? run) || (ip_end - ip1 <? run)).
  { cbn [outcome_state d_rd d_wr d_op d_out]. repeat split; lia. }
  assert (Hframe : forall a,
            a < d_op st \/ Z.max (d_wr st) (d_op st + chunks run) <= a ->
            WildCopy (other inb) (d_out st) (d_op st) ip1 run a = d_out st a).
  { intros a Ha. apply WildCopy_frame. lia. }
  destruct (ip1 + run >=? ip_end);
    cbn [outcome_state d_rd d_wr d_op d_out];
    (split; [lia|]; split; [lia|]; split; [lia | exact Hframe]).
Qed.

Lemma match_copy_marks token len ip1 st :
  4 <= len ->
  d_rd st <= d_rd (outcome_state (match_copy inb op_end token len ip1 st)) /\
  d_wr st <= d_wr (outcome_state (match_copy inb op_end token len ip1 st)) /\
  d_op st <= d_op (outcome_state (match_copy inb op_end token len ip1 st)) /\
  forall a,
    a < d_op st \/ d_wr (outcome_state (match_copy inb op_end token len ip1 st)) <= a ->
    d_out (outcome_state (match_copy inb op_end token len ip1 st)) a = d_out st a.
Proof.
  intros Hlen. unfold match_copy.
  destruct (op_end - d_op st <? len).
  { cbn [outcome_state d_rd d_wr d_op d_out]. repeat split; lia. }
  cbv zeta.
  destruct (d_op st <? _).
  { cbn [outcome_state d_rd d_wr d_op d_out]. repeat split; lia. }
  destruct (_ >=? 8); cbn [outcome_state d_rd d_wr d_op d_out];
    (split; [lia|]; split; [lia|]; split; [lia|]); intros a Ha.
  - apply WildCopy_frame. lia.
  - rewrite byte_copy_frame by lia. apply byte_copy_frame.
    change (Z.of_nat 4) with 4. lia.
Qed.

Lemma match_phase_marks token st :
  d_rd st <= d_rd (outcome_state (match_phase inb op_end token st)) /\
  d_wr st <= d_wr (outcome_state (match_phase inb op_end token st)) /\
  d_op st <= d_op (outcome_state (match_phase inb op_end token st)) /\
  forall a,
    a < d_op st \/ d_wr (outcome_state (match_phase inb op_end token st)) <= a ->
    d_out (outcome_state (match_phase inb op_end token st)) a = d_out st a.
Proof.
  unfold match_phase.
  assert (Hl0 : 0 <= Z.land token 15).
  { rewrite land_15. apply Z.mod_pos_bound. lia. }
  pose proof (DecodeMod_advance inb (d_ip st)) as [Hadv Hval].
  destruct (DecodeMod inb (d_ip st)) as [x ip']. cbn [fst snd] in Hadv, Hval.
  unfold MIN_MATCH.
  destruct (Z.land token 15 + 4 =? 15 + 4); apply match_copy_marks; lia.
Qed.

Lemma dec_step_marks st :
  d_rd st <= d_rd (outcome_state (dec_step inb ip_end op_end st)) /\
  d_wr st <= d_wr (outcome_state (dec_step inb ip_end op_end st)) /\
  d_op st <= d_op (outcome_state (dec_step inb ip_end op_end st)) /\
  forall a,
    a < d_op st \/ d_wr (outcome_state (dec_step inb ip_end op_end st)) <= a ->
    d_out (outcome_state (dec_step inb ip_end op_end st)) a = d_out st a.
Proof.
  unfold dec_step.
  set (st1 := mkD (d_ip st + 1) (d_op st) (d_out st)
                (Z.max (d_rd st) (d_ip st + 1)) (d_wr st)).
  assert (H1 : d_rd st <= d_rd st1 /\ d_wr st1 = d_wr st /\ d_op st1 = d_op st
               /\ d_out st1 = d_out st).
  { unfold st1. cbn [d_rd d_wr d_op d_out]. repeat split; lia. }
  destruct H1 as (Hr1 & Hw1 & Ho1 & Hm1).
  pose proof (lit_phase_marks (inb (d_ip st)) st1) as HL.
  rewrite Hw1, Ho1, Hm1 in HL.
  destruct (lit_phase inb ip_end op_end (inb (d_ip st)) st1) as [st2|st2|st2];
    cbn [outcome_state] in HL |- *.
  - destruct HL as (Hr2 & Hw2 & Ho2 & Hf2).
    pose proof (match_phase_marks (inb (d_ip st)) st2) as (Hr3 & Hw3 & Ho3 & Hf3).
    split; [lia|]. split; [lia|]. split; [lia|].
    intros a Ha. rewrite Hf3 by lia. apply Hf2. lia.
  - destruct HL as (Hr2 & Hw2 & Ho2 & Hf2).
    split; [lia|]. split; [lia|]. split; [lia | exact Hf2].
  - destruct HL as (Hr2 & Hw2 & Ho2 & Hf2).
    split; [lia|]. split; [lia|]. split; [lia | exact Hf2].
Qed.

Lemma dec_loop_marks : forall fuel st r,
  dec_loop inb ip_end op_end fuel st = Some r ->
  d_rd st <= dr_rd r /\ d_wr st <= dr_wr r /\
  forall a, a < d_op st \/ dr_wr r <= a -> dr_out r a = d_out st a.
Proof.
  induction fuel as [|f IH]; intros st r Hr; cbn [dec_loop] in Hr.
  - destruct (d_ip st <? ip_end); [discriminate|].
    injection Hr as <-. cbn [dec_finish dr_rd dr_wr dr_out]. repeat split; lia.
  - destruct (d_ip st <? ip_end).
    + pose proof (dec_step_marks st) as HS.
      destruct (dec_step inb ip_end op_end st) as [st'|st'|st'];
        cbn [outcome_state] in HS; destruct HS as (H1 & H2 & H3 & H4).
      * destruct (IH st' r Hr) as (H5 & H6 & H7).
        split; [lia|]. split; [lia|].
        intros a Ha. rewrite H7 by lia. apply H4. lia.
      * injection Hr as <-. cbn [dec_finish dr_rd dr_wr dr_out].
        split; [lia|]. split; [lia | exact H4].
      * injection Hr as <-. cbn [dec_fail dr_rd dr_wr dr_out].
        split; [lia|]. split; [lia | exact H4].
    + injection Hr as <-. cbn [dec_finish dr_rd dr_wr dr_out]. repeat split; lia.
Qed.

End Footprint.

(** Nothing is read at the read mark or beyond: a run on another input that
    holds the same bytes below the mark goes the same way. *)
Section Locality.

Variables inb inb' : mem.
Variables ip_end op_end B : Z.
Hypothesis Hin : agree 0 B inb inb'.

Lemma deq_refl st : deq st st.
Proof. unfold deq, same_mem. repeat split; reflexivity. Qed.

Lemma lit_phase_local token st st' :
  deq st st' -> 0 <= d_ip st ->
  d_rd (outcome_state (lit_phase inb ip_end op_end token st)) <= B ->
  oeq (lit_phase inb ip_end op_end token st)
      (lit_phase inb' ip_end op_end token st').
Proof.
  intros (Eip & Eop & Erd & Ewr & Eout) Hip.
  unfold lit_phase. rewrite <- Eip, <- Eop, <- Erd, <- Ewr.
  destruct (token >=? 32) eqn:Et.
  2:{ intros _. cbn [oeq]. unfold deq. auto. }
  pose proof (DecodeMod_advance inb (d_ip st)) as [Hadv _].
  pose proof (DecodeMod_local inb inb' B (d_ip st) Hin Hip) as Hloc.
  destruct (Z.shiftr token 5 =? 7).
  - destruct (DecodeMod inb (d_ip st)) as [x ip1] eqn:ED. cbn [fst snd] in Hadv, Hloc.
    destruct ((op_end - d_op st <? Z.shiftr token 5 + x)
              || (ip_end - ip1 <? Z.shiftr token 5 + x)) eqn:Ec.
    + cbn [outcome_state d_rd]. intros HB. rewrite Hloc by lia.
      rewrite Ec. cbn [oeq]. unfold deq. cbn [d_ip d_op d_rd d_wr d_out]. auto.
    + assert (HB' : d_rd (mkD (ip1 + (Z.shiftr token 5 + x)) (d_op st + (Z.shiftr token 5 + x))
                 (WildCopy (other inb) (d_out st) (d_op st) ip1 (Z.shiftr token 5 + x))
                 (Z.max (Z.max (d_rd st) ip1) (ip1 + chunks (Z.shiftr token 5 + x)))
                 (Z.max (d_wr st) (d_op st + chunks (Z.shiftr token 5 + x)))) <= B ->
               ip1 <= B /\ ip1 + chunks (Z.shiftr token 5 + x) <= B)
        by (cbn [d_rd]; lia).
      pose proof (chunks_bounds (Z.shiftr token 5 + x)) as Hch.
      destruct (ip1 + (Z.shiftr token 5 + x) >=? ip_end) eqn:E1;
        cbn [outcome_state]; intros HB; destruct (HB' HB) as [HB1 HB2];
        rewrite Hloc by lia; rewrite Ec, E1;
        cbn [oeq]; unfold deq; cbn [d_ip d_op d_rd d_wr d_out];
        (repeat (split; [reflexivity|]);
         apply WildCopy_other_local; [exact Eout|];
         intros a Ha; apply Hin; lia).
  - destruct ((op_end - d_op st <? Z.shiftr token 5)
              || (ip_end - d_ip st <? Z.shiftr token 5)) eqn:Ec.
    + intros _. cbn [oeq]. unfold deq. cbn [d_ip d_op d_rd d_wr d_out]. auto.
    + pose proof (chunks_bounds (Z.shiftr token 5)) as Hch.
      destruct (d_ip st + Z.shiftr token 5 >=? ip_end);
        cbn [outcome_state d_rd]; intros HB;
        cbn [oeq]; unfold deq; cbn [d_ip d_op d_rd d_wr d_out];
        (repeat (split; [reflexivity|]);
         apply WildCopy_other_local; [exact Eout|];
         intros a Ha; apply Hin; lia).
Qed.

Lemma match_copy_local token len ip1 st st' :
  deq st st' -> 0 <= ip1 ->
  d_rd (outcome_state (match_copy inb op_end token len ip1 st)) <= B ->
  oeq (match_copy inb op_end token len ip1 st)
      (match_copy inb' op_end token len ip1 st').
Proof.
  intros (Eip & Eop & Erd & Ewr & Eout) Hip.
  unfold match_copy. rewrite <- Eop, <- Erd, <- Ewr.
  destruct (op_end - d_op st <? len).
  { intros _. cbn [oeq]. unfold deq. cbn [d_ip d_op d_rd d_wr d_out]. auto. }
  cbv zeta.
  assert (HL : ip1 + 2 <= B -> UnalignedLoad16 inb' ip1 = UnalignedLoad16 inb ip1).
  { intros H. unfold UnalignedLoad16. rewrite <- !Hin by lia. reflexivity. }
  destruct (d_op st <? Z.shiftl (Z.land token 16) 12 + UnalignedLoad16 inb ip1) eqn:E1.
  { cbn [outcome_state d_rd]. intros HB. rewrite HL by lia. rewrite E1.
    cbn [oeq]. unfold deq. cbn [d_ip d_op d_rd d_wr d_out]. auto. }
  destruct (Z.shiftl (Z.land token 16) 12 + UnalignedLoad16 inb ip1 >=? 8) eqn:E2;
    cbn [outcome_state d_rd]; intros HB; rewrite HL by lia; rewrite E1, E2;
    cbn [oeq]; unfold deq; cbn [d_ip d_op d_rd d_wr d_out];
    repeat (split; [reflexivity|]).
  - apply WildCopy_same_mem. exact Eout.
  - apply byte_copy_same_mem, byte_copy_same_mem. exact Eout.
Qed.

Lemma match_phase_local token st st' :
  deq st st' -> 0 <= d_ip st ->
  d_rd (outcome_state (match_phase inb op_end token st)) <= B ->
  oeq (match_phase inb op_end token st) (match_phase inb' op_end token st').
Proof.
  intros Hd Hip. pose proof Hd as (Eip & _).
  unfold match_phase. rewrite <- Eip.
  pose proof (DecodeMod_advance inb (d_ip st)) as [Hadv _].
  pose proof (DecodeMod_local inb inb' B (d_ip st) Hin Hip) as Hloc.
  destruct (Z.land token 15 + MIN_MATCH =? 15 + MIN_MATCH).
  - destruct (DecodeMod inb (d_ip st)) as [x ip1]. cbn [fst snd] in Hadv, Hloc.
    intros HB.
    assert (Hip1 : ip1 <= B).
    { revert HB. unfold match_copy. cbv zeta.
      repeat match goal with
             | |- context [if ?c then _ else _] => destruct c
             end; cbn [outcome_state d_rd]; lia. }
    rewrite Hloc by exact Hip1.
    apply match_copy_local; [exact Hd | lia | exact HB].
  - apply match_copy_local; [exact Hd | lia].
Qed.

Lemma dec_step_local st st' :
  deq st st' -> 0 <= d_ip st < ip_end ->
  d_rd (outcome_state (dec_step inb ip_end op_end st)) <= B ->
  oeq (dec_step inb ip_end op_end st) (dec_step inb' ip_end op_end st').
Proof.
  intros (Eip & Eop & Erd & Ewr & Eout) Hip.
  unfold dec_step. rewrite <- Eip, <- Eop, <- Erd, <- Ewr.
  set (st1 := mkD (d_ip st + 1) (d_op st) (d_out st)
                (Z.max (d_rd st) (d_ip st + 1)) (d_wr st)).
  set (st1' := mkD (d_ip st + 1) (d_op st) (d_out st')
                 (Z.max (d_rd st) (d_ip st + 1)) (d_wr st)).
  assert (Hd1 : deq st1 st1').
  { unfold deq, st1, st1'. cbn [d_ip d_op d_rd d_wr d_out]. auto. }
  assert (Hrd1 : d_ip st + 1 <= d_rd st1) by (unfold st1; cbn [d_rd]; lia).
  assert (Hip1 : 0 <= d_ip st1) by (unfold st1; cbn [d_ip]; lia).
  pose proof (lit_phase_marks inb ip_end op_end (inb (d_ip st)) st1) as (Hm1 & _).
  pose proof (lit_phase_spec inb ip_end op_end
                (Z.max (ip_end + 7) (d_rd st1)) (Z.max (op_end + 7) (d_wr st1))
                ltac:(lia) ltac:(lia) (inb (d_ip st)) st1
                ltac:(unfold st1; cbn [d_ip]; lia) ltac:(lia) ltac:(lia))
    as (_ & _ & Hg).
  pose proof (lit_phase_local (inb (d_ip st)) st1 st1' Hd1 Hip1) as HL.
  intros HB.
  assert (Htok : inb' (d_ip st) = inb (d_ip st)).
  { symmetry. apply Hin.
    destruct (lit_phase inb ip_end op_end (inb (d_ip st)) st1) as [st2|st2|st2];
      cbn [outcome_state] in Hm1, HB.
    - pose proof (match_phase_marks inb op_end (inb (d_ip st)) st2) as (Hm2 & _). lia.
    - lia.
    - lia. }
  rewrite Htok.
  destruct (lit_phase inb ip_end op_end (inb (d_ip st)) st1) as [st2|st2|st2];
    cbn [outcome_state] in Hm1, HL, Hg.
  - pose proof (match_phase_marks inb op_end (inb (d_ip st)) st2) as (Hm2 & _).
    specialize (HL ltac:(lia)).
    destruct (lit_phase inb' ip_end op_end (inb (d_ip st)) st1') as [st2'|st2'|st2'];
      cbn [oeq] in HL; try contradiction.
    apply match_phase_local; [exact HL | | exact HB].
    destruct Hg as [[-> _]|Hg]; lia.
  - cbn [outcome_state] in HB. specialize (HL HB).
    destruct (lit_phase inb' ip_end op_end (inb (d_ip st)) st1') as [st2'|st2'|st2'];
      cbn [oeq] in HL |- *; try contradiction. exact HL.
  - cbn [outcome_state] in HB. specialize (HL HB).
    destruct (lit_phase inb' ip_end op_end (inb (d_ip st)) st1') as [st2'|st2'|st2'];
      cbn [oeq] in HL |- *; try contradiction. exact HL.
Qed.

Lemma dec_loop_local : forall fuel st st' r,
  deq st st' -> 0 <= d_ip st ->
  dec_loop inb ip_end op_end fuel st = Some r -> dr_rd r <= B ->
  exists r',
    dec_loop inb' ip_end op_end fuel st' = Some r' /\
    dr_ret r' = dr_ret r /\ dr_rd r' = dr_rd r /\ dr_wr r' = dr_wr r /\
    same_mem (dr_out r) (dr_out r').
Proof.
  assert (Hfin : forall st st', deq st st' ->
            exists r', Some (dec_finish ip_end st') = Some r' /\
              dr_ret r' = dr_ret (dec_finish ip_end st) /\
              dr_rd r' = dr_rd (dec_finish ip_end st) /\
              dr_wr r' = dr_wr (dec_finish ip_end st) /\
              same_mem (dr_out (dec_finish ip_end st)) (dr_out r')).
  { intros st st' (Eip & Eop & Erd & Ewr & Eout). eexists. split; [reflexivity|].
    unfold dec_finish. cbn [dr_ret dr_rd dr_wr dr_out].
    rewrite Eip, Eop, Erd, Ewr. auto. }
  induction fuel as [|f IH]; intros st st' r Hd Hip Hr HB; cbn [dec_loop] in Hr |- *;
    pose proof Hd as (Eip & _); rewrite <- Eip.
  - destruct (d_ip st <? ip_end); [discriminate|].
    injection Hr as <-. apply Hfin. exact Hd.
  - destruct (d_ip st <? ip_end) eqn:Elt.
    2:{ injection Hr as <-. apply Hfin. exact Hd. }
    pose proof (dec_step_local st st' Hd ltac:(lia)) as HS.
    pose proof (dec_step_grows inb ip_end op_end st ltac:(lia)) as Hg.
    destruct (dec_step inb ip_end op_end st) as [st2|st2|st2];
      cbn [outcome_state] in HS.
    + pose proof (dec_loop_marks inb ip_end op_end f st2 r Hr) as (Hm & _).
      specialize (HS ltac:(lia)).
      destruct (dec_step inb' ip_end op_end st') as [st2'|st2'|st2'];
        cbn [oeq] in HS; try contradiction.
      apply (IH st2 st2' r HS); [lia | exact Hr | exact HB].
    + injection Hr as <-. cbn [dec_finish dr_rd] in HB. specialize (HS HB).
      destruct (dec_step inb' ip_end op_end st') as [st2'|st2'|st2'];
        cbn [oeq] in HS; try contradiction.
      apply Hfin. exact HS.
    + injection Hr as <-. cbn [dec_fail dr_rd] in HB. specialize (HS HB).
      destruct (dec_step inb' ip_end op_end st') as [st2'|st2'|st2'];
        cbn [oeq] in HS; try contradiction.
      destruct HS as (Eip2 & Eop2 & Erd2 & Ewr2 & Eout2).
      eexists. split; [reflexivity|].
      unfold dec_fail. cbn [dr_ret dr_rd dr_wr dr_out]. auto.
Qed.

End Locality.

(** ** The decompressor reads no cell before the output buffer *)

(** A copy whose source starts at 0 or later depends on the cells from 0 on
    only. *)
Lemma WildCopy_loop_from : forall fuel m1 m2 d s n i,
  from_start m1 m2 -> 0 <= s -> 0 <= i ->
  from_start (WildCopy_loop fuel same m1 d s n i)
             (WildCopy_loop fuel same m2 d s n i).
Proof.
  induction fuel as [|f IH]; intros m1 m2 d s n i Hm Hs Hi; cbn [WildCopy_loop].
  - exact Hm.
  - destruct (i <? n); [|exact Hm].
    apply IH; [|exact Hs|lia].
    intros a Ha. unfold UnalignedCopy64, same.
    destruct ((d + i <=? a) && (a <? d + i + 8)) eqn:E; [|apply Hm; exact Ha].
    apply andb_true_iff in E. apply Hm. lia.
Qed.

Lemma WildCopy_same_from m1 m2 d s n :
  from_start m1 m2 -> 0 <= s ->
  from_start (WildCopy same m1 d s n) (WildCopy same m2 d s n).
Proof.
  intros Hm Hs. unfold WildCopy.
  apply WildCopy_loop_from; [|exact Hs|lia].
  intros a Ha. unfold UnalignedCopy64, same.
  destruct ((d <=? a) && (a <? d + 8)) eqn:E; [|apply Hm; exact Ha].
  apply andb_true_iff in E. apply Hm. lia.
Qed.

Lemma WildCopy_other_from sm m1 m2 d s n :
  from_start m1 m2 ->
  from_start (WildCopy (other sm) m1 d s n) (WildCopy (other sm) m2 d s n).
Proof.
  intros Hm a Ha.
  destruct (Z_lt_dec a d) as [Hl|Hl].
  - rewrite !WildCopy_frame by lia. apply Hm. exact Ha.
  - destruct (Z_lt_dec a (d + chunks n)) as [Hh|Hh].
    + rewrite !WildCopy_other by lia. reflexivity.
    + rewrite !WildCopy_frame by lia. apply Hm. exact Ha.
Qed.

Lemma byte_copy_from n : forall m1 m2 d s,
  from_start m1 m2 -> 0 <= s ->
  from_start (byte_copy n m1 d s) (byte_copy n m2 d s).
Proof.
  induction n as [|n IH]; intros m1 m2 d s Hm Hs; cbn [byte_copy]; [exact Hm|].
  apply IH; [|lia]. intros a Ha. unfold store. rewrite (Hm s Hs).
  destruct (a =? d); [reflexivity | apply Hm; exact Ha].
Qed.

Section FromStart.

Variable inb : mem.
Variables ip_end op_end : Z.

Lemma lit_phase_from token st st' :
  dfrom st st' ->
  ofrom (lit_phase inb ip_end op_end token st)
        (lit_phase inb ip_end op_end token st').
Proof.
  intros (Eip & Eop & Erd & Ewr & Eout).
  unfold lit_phase. rewrite <- Eip, <- Eop, <- Erd, <- Ewr.
  destruct (token >=? 32); [|cbn [ofrom]; unfold dfrom; auto].
  destruct (if Z.shiftr token 5 =? 7
            then let '(x, ip') := DecodeMod inb (d_ip st) in (Z.shiftr token 5 + x, ip')
            else (Z.shiftr token 5, d_ip st)) as [run ip1].
  destruct ((op_end - d_op st <? run) || (ip_end - ip1 <? run)).
  - cbn [ofrom]. unfold dfrom. cbn [d_ip d_op d_rd d_wr d_out]. auto.
  - destruct (ip1 + run >=? ip_end); cbn [ofrom]; unfold dfrom;
      cbn [d_ip d_op d_rd d_wr d_out];
      (repeat (split; [reflexivity|]); apply WildCopy_other_from; exact Eout).
Qed.

Lemma match_copy_from token len ip1 st st' :
  dfrom st st' ->
  ofrom (match_copy inb op_end token len ip1 st)
        (match_copy inb op_end token len ip1 st').
Proof.
  intros (Eip & Eop & Erd & Ewr & Eout).
  unfold match_copy. rewrite <- Eop, <- Erd, <- Ewr.
  destruct (op_end - d_op st <? len).
  { cbn [ofrom]. unfold dfrom. cbn [d_ip d_op d_rd d_wr d_out]. auto. }
  cbv zeta.
  destruct (d_op st <? Z.shiftl (Z.land token 16) 12 + UnalignedLoad16 inb ip1) eqn:E1.
  { cbn [ofrom]. unfold dfrom. cbn [d_ip d_op d_rd d_wr d_out]. auto. }
  apply Z.ltb_ge in E1.
  destruct (Z.shiftl (Z.land token 16) 12 + UnalignedLoad16 inb ip1 >=? 8);
    cbn [ofrom]; unfold dfrom; cbn [d_ip d_op d_rd d_wr d_out];
    repeat (split; [reflexivity|]).
  - apply WildCopy_same_from; [exact Eout | lia].
  - apply byte_copy_from; [apply byte_copy_from; [exact Eout | lia] | lia].
Qed.

Lemma match_phase_from token st st' :
  dfrom st st' ->
  ofrom (match_phase inb op_end token st) (match_phase inb op_end token st').
Proof.
  intros Hd. pose proof Hd as (Eip & _).
  unfold match_phase. rewrite <- Eip.
  destruct (if Z.land token 15 + MIN_MATCH =? 15 + MIN_MATCH
            then let '(x, ip') := DecodeMod inb (d_ip st) in
                 (Z.land token 15 + MIN_MATCH + x, ip')
            else (Z.land token 15 + MIN_MATCH, d_ip st)) as [len ip1].
  apply match_copy_from. exact Hd.
Qed.

Lemma dec_step_from st st' :
  dfrom st st' ->
  ofrom (dec_step inb ip_end op_end st) (dec_step inb ip_end op_end st').
Proof.
  intros (Eip & Eop & Erd & Ewr & Eout).
  unfold dec_step. rewrite <- Eip, <- Eop, <- Erd, <- Ewr.
  set (st1 := mkD (d_ip st + 1) (d_op st) (d_out st)
                (Z.max (d_rd st) (d_ip st + 1)) (d_wr st)).
  set (st1' := mkD (d_ip st + 1) (d_op st) (d_out st')
                 (Z.max (d_rd st) (d_ip st + 1)) (d_wr st)).
  assert (Hd1 : dfrom st1 st1').
  { unfold dfrom, st1, st1'. cbn [d_ip d_op d_rd d_wr d_out]. auto. }
  pose proof (lit_phase_from (inb (d_ip st)) st1 st1' Hd1) as HL.
  destruct (lit_phase inb ip_end op_end (inb (d_ip st)) st1) as [a2|a2|a2];
    destruct (lit_phase inb ip_end op_end (inb (d_ip st)) st1') as [b2|b2|b2];
    cbn [ofrom] in HL; try contradiction; try exact HL.
  apply match_phase_from. exact HL.
Qed.

Lemma dec_loop_from : forall fuel st st' r,
  dfrom st st' ->
  dec_loop inb ip_end op_end fuel st = Some r ->
  exists r',
    dec_loop inb ip_end op_end fuel st' = Some r' /\
    dr_ret r' = dr_ret r /\ from_start (dr_out r) (dr_out r').
Proof.
  assert (Hfin : forall st st', dfrom st st' ->
            exists r', Some (dec_finish ip_end st') = Some r' /\
              dr_ret r' = dr_ret (dec_finish ip_end st) /\
              from_start (dr_out (dec_finish ip_end st)) (dr_out r')).
  { intros st st' (Eip & Eop & Erd & Ewr & Eout). eexists. split; [reflexivity|].
    unfold dec_finish. cbn [dr_ret dr_out]. rewrite Eip, Eop. auto. }
  induction fuel as [|f IH]; intros st st' r Hd Hr; cbn [dec_loop] in Hr |- *;
    pose proof Hd as (Eip & _); rewrite <- Eip.
  - destruct (d_ip st <? ip_end); [discriminate|].
    injection Hr as <-. apply Hfin. exact Hd.
  - destruct (d_ip st <? ip_end).
    2:{ injection Hr as <-. apply Hfin. exact Hd. }
    pose proof (dec_step_from st st' Hd) as HS.
    destruct (dec_step inb ip_end op_end st) as [a|a|a];
      destruct (dec_step inb ip_end op_end st') as [b|b|b];
      cbn [ofrom] in HS; try contradiction.
    + apply (IH a b r HS Hr).
    + injection Hr as <-. apply Hfin. exact HS.
    + injection Hr as <-. destruct HS as (_ & _ & _ & _ & Eout2).
      eexists. split; [reflexivity|].
      unfold dec_fail. cbn [dr_ret dr_out]. auto.
Qed.

End FromStart.

(** C8, as the code has it.  Whatever the stream, [Decompress] returns
    having read no input byte at offset [in_len + 7] or beyond and written no
    output byte at offset [out_len + 7] or beyond: both stay inside the
    [EXCESS] guard regions.  The two marks say so, and so do the buffers:
    every output cell before the buffer or from [out_len + 7] on is left as
    it was, and the returned value and the output buffer are the same for
    any other input that holds the same bytes below [in_len + 7].  The
    distance of a match is checked before its copy, so that no cell before
    the output buffer is read: the returned value and the bytes from the
    start of the buffer on are the same for any other output buffer that
    holds the same bytes from its start on.  (The checks on run length and
    match length come before the copies too; the end of the input is checked
    only for literal runs and when the loop is left.) *)
Theorem Decompress_stays_in_guard (inb : mem) (in_len : Z) (out : mem)
  (out_len : Z) :
  0 <= in_len -> 0 <= out_len ->
  exists r,
    Decompress inb in_len out out_len = Some r /\
    dr_rd r <= in_len + 7 < in_len + EXCESS /\
    dr_wr r <= out_len + 7 < out_len + EXCESS /\
    (forall a, a < 0 \/ out_len + 7 <= a -> dr_out r a = out a) /\
    (forall inb',
        agree 0 (in_len + 7) inb inb' ->
        exists r',
          Decompress inb' in_len out out_len = Some r' /\
          dr_ret r' = dr_ret r /\ same_mem (dr_out r) (dr_out r')) /\
    (forall out',
        from_start out out' ->
        exists r',
          Decompress inb in_len out' out_len = Some r' /\
          dr_ret r' = dr_ret r /\ from_start (dr_out r) (dr_out r')).
Proof.
  intros Hi Ho. unfold Decompress.
  destruct (dec_loop_spec inb in_len out_len (in_len + 7) (out_len + 7)
              ltac:(lia) ltac:(lia) (Z.to_nat in_len) (mkD 0 0 out 0 0))
    as (r & Hr & _ & Hrd & Hwr); cbn [d_ip d_op d_rd d_wr]; try lia.
  exists r. split; [exact Hr|].
  split; [unfold EXCESS; lia|]. split; [unfold EXCESS; lia|]. split; [|split].
  - intros a Ha.
    destruct (dec_loop_marks inb in_len out_len _ _ r Hr) as (_ & _ & Hframe).
    apply (Hframe a). cbn [d_op]. lia.
  - intros inb' Hin.
    destruct (dec_loop_local inb inb' in_len out_len (in_len + 7) Hin
                (Z.to_nat in_len) (mkD 0 0 out 0 0) (mkD 0 0 out 0 0) r
                (deq_refl _) ltac:(cbn [d_ip]; lia) Hr Hrd)
      as (r' & Hr' & Hret & _ & _ & Hout).
    exists r'. split; [exact Hr'|]. split; [exact Hret | exact Hout].
  - intros out' Hout.
    assert (Hd : dfrom (mkD 0 0 out 0 0) (mkD 0 0 out' 0 0)).
    { unfold dfrom. cbn [d_ip d_op d_rd d_wr d_out].
      repeat (split; [reflexivity|]). exact Hout. }
    destruct (dec_loop_from inb in_len out_len (Z.to_nat in_len) _ _ r Hd Hr)
      as (r' & Hr' & Hret & Hfs).
    exists r'. split; [exact Hr'|]. split; [exact Hret | exact Hfs].
Qed.

(** The theorem at the one-byte stream 0, capacity 4. *)
Lemma Decompress_stays_in_guard_witness :
  exists r,
    Decompress (of_list [0]) 1 (of_list []) 4 = Some r /\
    dr_rd r <= 1 + 7 < 1 + EXCESS /\
    dr_wr r <= 4 + 7 < 4 + EXCESS /\
    (forall a, a < 0 \/ 4 + 7 <= a -> dr_out r a = of_list [] a) /\
    (forall inb',
        agree 0 (1 + 7) (of_list [0]) inb' ->
        exists r',
          Decompress inb' 1 (of_list []) 4 = Some r' /\
          dr_ret r' = dr_ret r /\ same_mem (dr_out r) (dr_out r')) /\
    (forall out',
        from_start (of_list []) out' ->
        exists r',
          Decompress (of_list [0]) 1 out' 4 = Some r' /\
          dr_ret r' = dr_ret r /\ from_start (dr_out r) (dr_out r')).
Proof.
  apply (Decompress_stays_in_guard (of_list [0]) 1 (of_list []) 4); lia.
Defined.

(** C8, as stated, fails: the decoder reads input at offsets [>= in_len]
    before it returns -1.  On the one-byte stream 0 (a token whose distance
    bytes are cut off) it returns -1 only after it has read the two bytes at
    offsets 1 and 2, past [in_len = 1].  On the three-byte stream 32, 65, 1
    (a literal, then a match whose distance is cut in two) the byte at
    offset 3 decides what the output buffer holds when -1 is returned: with
    a 0 there the distance is 1 and the literal is copied to offset 1, with
    a 1 there the distance is 257 and the range check fails. *)
Lemma Decompress_reads_past_in_len :
  option_map (fun r => (dr_ret r, dr_rd r))
    (Decompress (of_list [0]) 1 (of_list []) 4)
  = Some (-1, 3) /\
  map (of_list [32; 65; 1; 0]) [0; 1; 2] = map (of_list [32; 65; 1; 1]) [0; 1; 2] /\
  option_map (fun r => (dr_ret r, dr_out r 1))
    (Decompress (of_list [32; 65; 1; 0]) 3 (of_list []) 5)
  = Some (-1, 65) /\
  option_map (fun r => (dr_ret r, dr_out r 1))
    (Decompress (of_list [32; 65; 1; 1]) 3 (of_list []) 5)
  = Some (-1, 1).
Proof. repeat split; vm_compute; reflexivity. Qed.

(** ** Match finding *)

Lemma match_len_spec inb s p mm : forall fuel len,
  len <= mm -> mm - len <= Z.of_nat fuel ->
  len <= match_len fuel inb s p mm len <= mm /\
  (forall k, len <= k < match_len fuel inb s p mm len -> inb (s + k) = inb (p + k)) /\
  (match_len fuel inb s p mm len = mm \/
   inb (s + match_len fuel inb s p mm len) <> inb (p + match_len fuel inb s p mm len)).
Proof.
  induction fuel as [|f IH]; intros len Hle Hf; cbn [match_len].
  - repeat split; lia.
  - destruct (len <? mm) eqn:E1; cbn [andb].
    + destruct (inb (s + len) =? inb (p + len)) eqn:E2.
      * apply Z.ltb_lt in E1. apply Z.eqb_eq in E2.
        destruct (IH (len + 1) ltac:(lia) ltac:(lia)) as (H1 & H2 & H3).
        repeat split; try lia; try assumption.
        intros k Hk. destruct (Z.eq_dec k len) as [->|Hne]; [exact E2|].
        apply H2. lia.
      * apply Z.eqb_neq in E2. repeat split; try lia; try (right; exact E2).
    + apply Z.ltb_ge in E1. repeat split; lia.
Qed.

Lemma shiftl_mul x n : 0 <= n -> Z.shiftl x n = x * 2 ^ n.
Proof. intros. apply Z.shiftl_mul_pow2. assumption. Qed.

Lemma UnalignedLoad32_inj inb s p :
  bytes_ok inb ->
  UnalignedLoad32 inb s = UnalignedLoad32 inb p ->
  forall k, 0 <= k < 4 -> inb (s + k) = inb (p + k).
Proof.
  intros Hb H k Hk. unfold UnalignedLoad32 in H.
  rewrite !shiftl_mul in H by lia.
  change (2 ^ 8) with 256 in H. change (2 ^ 16) with 65536 in H.
  change (2 ^ 24) with 16777216 in H.
  pose proof (Hb s). pose proof (Hb (s + 1)). pose proof (Hb (s + 2)).
  pose proof (Hb (s + 3)). pose proof (Hb p). pose proof (Hb (p + 1)).
  pose proof (Hb (p + 2)). pose proof (Hb (p + 3)).
  assert (k = 0 \/ k = 1 \/ k = 2 \/ k = 3) as [-> | [-> | [-> | ->]]] by lia;
    rewrite ?Z.add_0_r; lia.
Qed.

Lemma Max_spec a b : Max a b = Z.max a b.
Proof. unfold Max. destruct (a >? b) eqn:E; lia. Qed.

Lemma Min_spec a b : Min a b = Z.min a b.
Proof. unfold Min. destruct (a <? b) eqn:E; lia. Qed.

Section Candidates.

Variable inb : mem.
Variables p max_match : Z.
Hypothesis Hmm : MIN_MATCH <= max_match.

(** A candidate [s] in the window that passes the 4-byte check gives a
    valid match. *)
Lemma candidate_valid s :
  Max (p - WINDOW_SIZE) NIL < s < p ->
  UnalignedLoad32 inb s = UnalignedLoad32 inb p ->
  valid_match inb p max_match (p - s)
    (match_len (Z.to_nat max_match) inb s p max_match MIN_MATCH).
Proof.
  intros Hs Hld. rewrite Max_spec in Hs. unfold NIL, MIN_MATCH in *.
  destruct (match_len_spec inb s p max_match (Z.to_nat max_match) 4
              ltac:(lia) ltac:(lia)) as (H1 & H2 & _).
  unfold valid_match, MIN_MATCH. repeat split; try lia.
  intros Hbytes k Hk. replace (p - (p - s) + k) with (s + k) by lia.
  destruct (Z_lt_dec k 4).
  - apply UnalignedLoad32_inj; [exact Hbytes | exact Hld | lia].
  - apply H2. lia.
Qed.

Variable prev : table.
Hypothesis Hprev : prev_ok p prev.

Lemma chain_walk_valid : forall chain_len s best_len dist,
  NIL <= s < p ->
  best_len = 0 \/ valid_match inb p max_match dist best_len ->
  fst (chain_walk chain_len inb prev p max_match (Max (p - WINDOW_SIZE) NIL)
         s best_len dist) = 0 \/
  valid_match inb p max_match
    (snd (chain_walk chain_len inb prev p max_match (Max (p - WINDOW_SIZE) NIL)
            s best_len dist))
    (fst (chain_walk chain_len inb prev p max_match (Max (p - WINDOW_SIZE) NIL)
            s best_len dist)).
Proof.
  induction chain_len as [|c IH]; intros s best_len dist Hs Hv; cbn [chain_walk].
  - exact Hv.
  - destruct (s >? Max (p - WINDOW_SIZE) NIL) eqn:Es; [|exact Hv].
    assert (Hwin : Max (p - WINDOW_SIZE) NIL < s < p) by lia.
    assert (Hnext : NIL <= prev (Z.land s WINDOW_MASK) < p).
    { rewrite Max_spec in Hwin. unfold NIL in *.
      pose proof (Hprev s ltac:(lia) ltac:(lia)). unfold NIL in *. lia. }
    destruct ((inb (s + best_len) =? inb (p + best_len))
              && (UnalignedLoad32 inb s =? UnalignedLoad32 inb p)) eqn:Ec.
    + apply andb_true_iff in Ec. destruct Ec as [_ Ec]. apply Z.eqb_eq in Ec.
      pose proof (candidate_valid s Hwin Ec) as Hcand.
      set (len := match_len (Z.to_nat max_match) inb s p max_match MIN_MATCH) in *.
      destruct (len >? best_len).
      * destruct (len =? max_match); [right; exact Hcand|].
        destruct (Nat.eqb c 0); [right; exact Hcand|].
        apply IH; [exact Hnext | right; exact Hcand].
      * destruct (Nat.eqb c 0); [exact Hv|].
        apply IH; [exact Hnext | exact Hv].
    + destruct (Nat.eqb c 0); [exact Hv|].
      apply IH; [exact Hnext | exact Hv].
Qed.

End Candidates.

(** ** The scratch arrays *)

Lemma slot_mod s : Z.land s WINDOW_MASK = s mod WINDOW_SIZE.
Proof.
  change WINDOW_MASK with (Z.ones 17). rewrite Z.land_ones by lia. reflexivity.
Qed.

Lemma slot_inj s s' :
  Z.land s WINDOW_MASK = Z.land s' WINDOW_MASK ->
  - WINDOW_SIZE < s - s' < WINDOW_SIZE -> s = s'.
Proof.
  rewrite !slot_mod. rewrite WINDOW_SIZE_val. intros H Hd.
  pose proof (Z.div_mod s 131072 ltac:(lia)).
  pose proof (Z.div_mod s' 131072 ltac:(lia)).
  pose proof (Z.mod_pos_bound s 131072 ltac:(lia)).
  lia.
Qed.

Lemma insert_chained_ok inb tab p :
  0 <= p -> ht_ok p (HashTable tab) -> prev_ok p (Prev tab) ->
  ht_ok (p + 1) (HashTable (insert_chained inb tab p)) /\
  prev_ok (p + 1) (Prev (insert_chained inb tab p)).
Proof.
  intros Hp Hht Hprev. unfold insert_chained. cbn [HashTable Prev]. split.
  - intros h. unfold store. destruct (h =? Hash32 inb p).
    + unfold NIL. lia.
    + pose proof (Hht h). lia.
  - intros s Hs Hwin. unfold store.
    destruct (Z.land s WINDOW_MASK =? Z.land p WINDOW_MASK) eqn:E.
    + apply Z.eqb_eq in E. apply slot_inj in E; [|lia]. subst s.
      apply Hht.
    + apply Hprev; [exact Hs|].
      assert (s <> p) by (intros ->; rewrite Z.eqb_refl in E; discriminate).
      lia.
Qed.

Lemma insert_chained_agree inb HT prev1 prev2 p :
  prev_agree p prev1 prev2 ->
  HashTable (insert_chained inb (mkTables HT prev1) p)
  = HashTable (insert_chained inb (mkTables HT prev2) p) /\
  prev_agree (p + 1) (Prev (insert_chained inb (mkTables HT prev1) p))
    (Prev (insert_chained inb (mkTables HT prev2) p)).
Proof.
  intros Hag. unfold insert_chained. cbn [HashTable Prev]. split; [reflexivity|].
  intros s Hs Hwin. unfold store.
  destruct (Z.land s WINDOW_MASK =? Z.land p WINDOW_MASK) eqn:E; [reflexivity|].
  apply Hag; [exact Hs|].
  assert (s <> p) by (intros ->; rewrite Z.eqb_refl in E; discriminate).
  lia.
Qed.

Lemma insert_run_ok inb n : forall tab p,
  0 <= p -> ht_ok p (HashTable tab) -> prev_ok p (Prev tab) ->
  ht_ok (p + Z.of_nat n) (HashTable (insert_run n inb tab p)) /\
  prev_ok (p + Z.of_nat n) (Prev (insert_run n inb tab p)).
Proof.
  induction n as [|n IH]; intros tab p Hp Hht Hprev; cbn [insert_run].
  - rewrite Z.add_0_r. split; assumption.
  - destruct (insert_chained_ok inb tab p Hp Hht Hprev) as [H1 H2].
    replace (p + Z.of_nat (S n)) with (p + 1 + Z.of_nat n) by lia.
    apply IH; [lia | exact H1 | exact H2].
Qed.

Lemma insert_run_agree inb n : forall HT prev1 prev2 p,
  prev_agree p prev1 prev2 ->
  HashTable (insert_run n inb (mkTables HT prev1) p)
  = HashTable (insert_run n inb (mkTables HT prev2) p) /\
  prev_agree (p + Z.of_nat n) (Prev (insert_run n inb (mkTables HT prev1) p))
    (Prev (insert_run n inb (mkTables HT prev2) p)).
Proof.
  induction n as [|n IH]; intros HT prev1 prev2 p Hag; cbn [insert_run].
  - rewrite Z.add_0_r. split; [reflexivity | exact Hag].
  - destruct (insert_chained_agree inb HT prev1 prev2 p Hag) as [H1 H2].
    replace (p + Z.of_nat (S n)) with (p + 1 + Z.of_nat n) by lia.
    unfold insert_chained in *. cbn [HashTable Prev] in *.
    apply IH. exact H2.
Qed.

Section WalkExt.

Variable inb : mem.
Variables prev1 prev2 : table.
Variable p : Z.
Hypothesis Hok : prev_ok p prev1.
Hypothesis Hag : prev_agree p prev1 prev2.

(** The walks read the chain links of positions in the window only. *)
Lemma chain_walk_ext max_match : forall chain_len s best_len dist,
  NIL <= s < p ->
  chain_walk chain_len inb prev1 p max_match (Max (p - WINDOW_SIZE) NIL)
    s best_len dist
  = chain_walk chain_len inb prev2 p max_match (Max (p - WINDOW_SIZE) NIL)
      s best_len dist.
Proof.
  induction chain_len as [|c IH]; intros s best_len dist Hs; cbn [chain_walk].
  - reflexivity.
  - destruct (s >? Max (p - WINDOW_SIZE) NIL) eqn:Es; [|reflexivity].
    rewrite Max_spec in Es. unfold NIL in *.
    rewrite <- (Hag s) by lia.
    pose proof (Hok s ltac:(lia) ltac:(lia)) as Hn. unfold NIL in Hn.
    match goal with
    | |- match ?e with _ => _ end = _ => destruct e as [[bl' d'] full]
    end.
    destruct full; [reflexivity|].
    destruct (Nat.eqb c 0); [reflexivity|].
    apply IH. lia.
Qed.

Lemma lazy_walk_ext target_len best_len : forall chain_len s,
  NIL <= s < p ->
  lazy_walk chain_len inb prev1 (p + 1) target_len best_len
    (Max (p + 1 - WINDOW_SIZE) NIL) s
  = lazy_walk chain_len inb prev2 (p + 1) target_len best_len
      (Max (p + 1 - WINDOW_SIZE) NIL) s.
Proof.
  induction chain_len as [|c IH]; intros s Hs; cbn [lazy_walk].
  - reflexivity.
  - destruct (s >? Max (p + 1 - WINDOW_SIZE) NIL) eqn:Es; [|reflexivity].
    rewrite Max_spec in Es. unfold NIL in *.
    rewrite <- (Hag s) by lia.
    pose proof (Hok s ltac:(lia) ltac:(lia)) as Hn. unfold NIL in Hn.
    rewrite IH by lia. reflexivity.
Qed.

End WalkExt.

(** ** The token byte *)

Lemma forall_below (P : Z -> bool) (n : nat) :
  forallb P (map Z.of_nat (seq 0 n)) = true ->
  forall x, 0 <= x < Z.of_nat n -> P x = true.
Proof.
  intros H x Hx. rewrite forallb_forall in H. apply H.
  apply in_map_iff. exists (Z.to_nat x). split; [lia|].
  apply in_seq. lia.
Qed.

Lemma land_16_byte x : 0 <= x < 256 -> Z.land x 16 = (x / 16) mod 2 * 16.
Proof.
  intros Hx. apply Z.eqb_eq.
  apply (forall_below (fun x => Z.land x 16 =? (x / 16) mod 2 * 16) 256);
    [vm_compute; reflexivity | exact Hx].
Qed.

Lemma token_bits rc hb lc :
  0 <= rc <= 7 -> hb = 0 \/ hb = 16 -> 0 <= lc <= 15 ->
  0 <= rc * 32 + hb + lc < 256 /\
  Z.shiftr (rc * 32 + hb + lc) 5 = rc /\
  Z.land (rc * 32 + hb + lc) 15 = lc /\
  Z.land (rc * 32 + hb + lc) 16 = hb.
Proof.
  intros Hrc Hhb Hlc.
  assert (HT : 0 <= rc * 32 + hb + lc < 256) by lia.
  split; [exact HT|].
  rewrite shiftr_5, land_15, land_16_byte by exact HT.
  set (T := rc * 32 + hb + lc) in *.
  pose proof (Z.div_mod T 32 ltac:(lia)).
  pose proof (Z.mod_pos_bound T 32 ltac:(lia)).
  pose proof (Z.div_mod T 16 ltac:(lia)).
  pose proof (Z.mod_pos_bound T 16 ltac:(lia)).
  pose proof (Z.div_mod (T / 16) 2 ltac:(lia)).
  pose proof (Z.mod_pos_bound (T / 16) 2 ltac:(lia)).
  subst T. repeat split; lia.
Qed.

Lemma dist_bits dist :
  0 <= dist < WINDOW_SIZE ->
  (Z.land (Z.shiftr dist 12) 16 = 0 \/ Z.land (Z.shiftr dist 12) 16 = 16) /\
  Z.shiftl (Z.land (Z.shiftr dist 12) 16) 12 + u16 dist = dist.
Proof.
  rewrite WINDOW_SIZE_val. intros Hd.
  rewrite Z.shiftr_div_pow2 by lia. change (2 ^ 12) with 4096.
  assert (Hq : 0 <= dist / 4096 < 32).
  { split; [apply Z.div_pos; lia | apply Z.div_lt_upper_bound; lia]. }
  rewrite land_16_byte by lia.
  rewrite shiftl_mul by lia. change (2 ^ 12) with 4096. unfold u16.
  pose proof (Z.div_mod dist 4096 ltac:(lia)).
  pose proof (Z.mod_pos_bound dist 4096 ltac:(lia)).
  pose proof (Z.div_mod (dist / 4096) 16 ltac:(lia)).
  pose proof (Z.mod_pos_bound (dist / 4096) 16 ltac:(lia)).
  pose proof (Z.div_mod (dist / 4096 / 16) 2 ltac:(lia)).
  pose proof (Z.mod_pos_bound (dist / 4096 / 16) 2 ltac:(lia)).
  pose proof (Z.div_mod dist 65536 ltac:(lia)).
  pose proof (Z.mod_pos_bound dist 65536 ltac:(lia)).
  split; lia.
Qed.

Lemma UnalignedStore16_frame m p x a :
  a <> p -> a <> p + 1 -> UnalignedStore16 m p x a = m a.
Proof.
  intros H1 H2. unfold UnalignedStore16. rewrite !store_neq by assumption.
  reflexivity.
Qed.

Lemma UnalignedStore16_load m p x C :
  0 <= x < 65536 ->
  agree p (p + 2) (UnalignedStore16 m p x) C ->
  UnalignedLoad16 C p = x.
Proof.
  intros Hx Hag. unfold UnalignedLoad16.
  rewrite <- (Hag p) by lia. rewrite <- (Hag (p + 1)) by lia.
  unfold UnalignedStore16. rewrite store_eq.
  rewrite store_neq by lia. rewrite store_eq.
  rewrite shiftl_mul by lia. rewrite Z.shiftr_div_pow2 by lia.
  change (2 ^ 8) with 256. unfold u8.
  pose proof (Z.div_mod x 256 ltac:(lia)).
  pose proof (Z.mod_pos_bound x 256 ltac:(lia)).
  rewrite (Z.mod_small (x / 256)); [lia|].
  split; [apply Z.div_pos; lia | apply Z.div_lt_upper_bound; lia].
Qed.

Lemma cap_4 : cap 4 = 270549120.
Proof. reflexivity. Qed.

Lemma EncodeMod_spec m p x :
  0 <= x < cap 4 ->
  p < snd (EncodeMod m p x) <= p + 4 /\
  (forall a, a < p \/ snd (EncodeMod m p x) <= a -> fst (EncodeMod m p x) a = m a) /\
  forall m2, agree p (snd (EncodeMod m p x)) (fst (EncodeMod m p x)) m2 ->
             DecodeMod m2 p = (x, snd (EncodeMod m p x)).
Proof.
  intros Hx. unfold EncodeMod. rewrite u32_small by (rewrite cap_4 in Hx; lia).
  destruct (EncodeMod_loop_spec 4 5 m p x ltac:(lia) Hx) as (Hp & Hfr & _ & Hdec).
  change (Z.of_nat 4) with 4 in Hp.
  repeat split; try lia; try assumption.
  intros m2 Hag. unfold DecodeMod. rewrite (Hdec m2 0 0 Hag); try lia.
  - f_equal. change (2 ^ 0) with 1. lia.
  - rewrite cap_4 in Hx. change (2 ^ 0) with 1. lia.
Qed.

(** ** What the compressor writes, the decompressor reads back *)

Section Emission.

Variable inb : mem.
Hypothesis Hbytes : bytes_ok inb.

Lemma put_literals_decodes out op anchor run t :
  1 <= run < cap 4 + 7 -> 0 <= t < 32 ->
  op + 1 + run <= snd (put_literals inb out op anchor run t) <= op + 5 + run /\
  (forall a, a < op -> fst (put_literals inb out op anchor run t) a = out a) /\
  forall C,
    agree op (snd (put_literals inb out op anchor run t))
      (fst (put_literals inb out op anchor run t)) C ->
    C op = Z.min run 7 * 32 + t /\
    forall ip_end op_end st,
      d_ip st = op + 1 ->
      snd (put_literals inb out op anchor run t) <= ip_end ->
      d_op st + run <= op_end ->
      exists st',
        lit_phase C ip_end op_end (C op) st
        = (if snd (put_literals inb out op anchor run t) >=? ip_end
           then Break st' else Next st') /\
        d_ip st' = snd (put_literals inb out op anchor run t) /\
        d_op st' = d_op st + run /\
        (forall a, a < d_op st -> d_out st' a = d_out st a) /\
        (forall k, 0 <= k < run -> d_out st' (d_op st + k) = inb (anchor + k)).
Proof.
  intros Hrun Ht. rewrite cap_4 in Hrun.
  pose proof (chunks_bounds run ltac:(lia)) as Hch.
  unfold put_literals.
  (* the token byte and the position after the run-length field *)
  assert (Hhdr : exists outb opb,
    (if run >=? 7
     then EncodeMod (store out op (u8 (Z.shiftl 7 5 + t))) (op + 1) (run - 7)
     else (store out op (u8 (Z.shiftl run 5 + t)), op + 1)) = (outb, opb) /\
    op + 1 <= opb <= op + 5 /\
    (forall a, a < op -> outb a = out a) /\
    outb op = Z.min run 7 * 32 + t /\
    forall C, agree (op + 1) opb outb C ->
      (if Z.min run 7 =? 7
       then let '(x, ip') := DecodeMod C (op + 1) in (Z.min run 7 + x, ip')
       else (Z.min run 7, op + 1)) = (run, opb)).
  { destruct (run >=? 7) eqn:E7.
    - assert (Hx : 0 <= run - 7 < cap 4) by (rewrite cap_4; lia).
      destruct (EncodeMod_spec (store out op (u8 (Z.shiftl 7 5 + t))) (op + 1)
                  (run - 7) Hx) as (Hp & Hfr & Hdec).
      destruct (EncodeMod (store out op (u8 (Z.shiftl 7 5 + t))) (op + 1) (run - 7))
        as [outb opb]. cbn [fst snd] in *.
      exists outb, opb. split; [reflexivity|].
      change (Z.shiftl 7 5) with 224 in *. rewrite u8_small in Hfr by lia.
      replace (Z.min run 7) with 7 by lia.
      repeat split; try lia.
      + intros a Ha. rewrite Hfr by lia. apply store_neq. lia.
      + rewrite Hfr by lia. rewrite store_eq. lia.
      + intros C HC. change (7 =? 7) with true. cbv iota. rewrite (Hdec C HC). f_equal. lia.
    - exists (store out op (u8 (Z.shiftl run 5 + t))), (op + 1).
      split; [reflexivity|].
      rewrite shiftl_mul by lia. change (2 ^ 5) with 32.
      rewrite u8_small by lia.
      replace (Z.min run 7) with run by lia.
      repeat split; try lia.
      + intros a Ha. apply store_neq. lia.
      + rewrite store_eq. lia.
      + intros C _. test_is (run =? 7) false.
        reflexivity. }
  destruct Hhdr as (outb & opb & -> & Hopb & Hfrb & Htok & Hdec).
  cbn [fst snd].
  split; [lia|]. split.
  { intros a Ha. rewrite WildCopy_frame by lia. apply Hfrb. exact Ha. }
  intros C HC.
  assert (HCtok : C op = Z.min run 7 * 32 + t).
  { rewrite <- HC by lia. rewrite WildCopy_frame by lia. exact Htok. }
  split; [exact HCtok|].
  intros ip_end op_end st Hip Hend Hcap.
  assert (HCdec : agree (op + 1) opb outb C).
  { intros a Ha. rewrite <- HC by lia. rewrite WildCopy_frame by lia. reflexivity. }
  specialize (Hdec C HCdec).
  assert (Hlits : forall k, 0 <= k < run -> C (opb + k) = inb (anchor + k)).
  { intros k Hk. rewrite <- HC by lia. rewrite WildCopy_other by lia.
    f_equal. lia. }
  assert (Hsh : Z.shiftr (Z.min run 7 * 32 + t) 5 = Z.min run 7).
  { rewrite shiftr_5.
    pose proof (Z.div_mod (Z.min run 7 * 32 + t) 32 ltac:(lia)).
    pose proof (Z.mod_pos_bound (Z.min run 7 * 32 + t) 32 ltac:(lia)). lia. }
  unfold lit_phase. rewrite HCtok.
  test_is (Z.min run 7 * 32 + t >=? 32) true.
  rewrite Hsh, Hip, Hdec.
  test_is ((op_end - d_op st <? run) || (ip_end - opb <? run)) false.
  eexists. split; [reflexivity|].
  cbn [d_ip d_op d_out]. repeat split.
  - intros a Ha. apply WildCopy_frame. lia.
  - intros k Hk. rewrite WildCopy_other by lia.
    replace (opb + (d_op st + k - d_op st)) with (opb + k) by lia.
    apply Hlits. exact Hk.
Qed.

Lemma put_match_decodes out op len dist :
  0 <= len < cap 4 + 15 -> 0 <= dist < WINDOW_SIZE ->
  op + 2 <= snd (put_match out op len dist) <= op + 6 /\
  (forall a, a < op -> fst (put_match out op len dist) a = out a) /\
  forall C,
    agree op (snd (put_match out op len dist)) (fst (put_match out op len dist)) C ->
    forall token op_end st,
      Z.land token 15 = Min len 15 ->
      Z.land token 16 = Z.land (Z.shiftr dist 12) 16 ->
      d_ip st = op ->
      match_phase C op_end token st
      = match_copy C op_end token (len + MIN_MATCH)
          (snd (put_match out op len dist) - 2) st /\
      UnalignedLoad16 C (snd (put_match out op len dist) - 2) = u16 dist.
Proof.
  intros Hlen Hdist. rewrite cap_4 in Hlen. unfold put_match.
  assert (Hhdr : exists outb opb,
    (if len >=? 15 then EncodeMod out op (len - 15) else (out, op)) = (outb, opb) /\
    op <= opb <= op + 4 /\
    (forall a, a < op -> outb a = out a) /\
    forall C, agree op opb outb C ->
      (if Min len 15 + MIN_MATCH =? 15 + MIN_MATCH
       then let '(x, ip') := DecodeMod C op in (Min len 15 + MIN_MATCH + x, ip')
       else (Min len 15 + MIN_MATCH, op)) = (len + MIN_MATCH, opb)).
  { rewrite Min_spec. unfold MIN_MATCH. destruct (len >=? 15) eqn:E.
    - assert (Hx : 0 <= len - 15 < cap 4) by (rewrite cap_4; lia).
      destruct (EncodeMod_spec out op (len - 15) Hx) as (Hp & Hfr & Hdec).
      destruct (EncodeMod out op (len - 15)) as [outb opb]. cbn [fst snd] in *.
      exists outb, opb. split; [reflexivity|].
      repeat split; try lia.
      + intros a Ha. apply Hfr. lia.
      + intros C HC. replace (Z.min len 15) with 15 by lia.
        change (15 + 4 =? 15 + 4) with true. cbv iota. rewrite (Hdec C HC). f_equal. lia.
    - exists out, op. split; [reflexivity|].
      repeat split; try lia.
      intros C _. replace (Z.min len 15) with len by lia.
      test_is (len + 4 =? 15 + 4) false.
      reflexivity. }
  destruct Hhdr as (outb & opb & -> & Hopb & Hfrb & Hdec).
  cbn [fst snd]. replace (opb + 2 - 2) with opb by lia.
  split; [lia|]. split.
  { intros a Ha. rewrite UnalignedStore16_frame by lia. apply Hfrb. exact Ha. }
  intros C HC token op_end st Ht15 Ht16 Hip.
  assert (HCdec : agree op opb outb C).
  { intros a Ha. rewrite <- HC by lia. symmetry. apply UnalignedStore16_frame; lia. }
  specialize (Hdec C HCdec).
  split.
  - unfold match_phase. rewrite Ht15, Hip, Hdec. reflexivity.
  - apply (UnalignedStore16_load outb opb (u16 dist)).
    + unfold u16. apply Z.mod_pos_bound. lia.
    + intros a Ha. apply HC. lia.
Qed.

Lemma match_part_decodes out op p dist best_len in_len :
  best_len < cap 4 + 19 ->
  valid_match inb p (in_len - p) dist best_len ->
  op + 2 <= snd (put_match out op (best_len - MIN_MATCH) dist) <= op + 6 /\
  (forall a, a < op -> fst (put_match out op (best_len - MIN_MATCH) dist) a = out a) /\
  forall C token st,
    agree op (snd (put_match out op (best_len - MIN_MATCH) dist))
      (fst (put_match out op (best_len - MIN_MATCH) dist)) C ->
    Z.land token 15 = Min (best_len - MIN_MATCH) 15 ->
    Z.land token 16 = Z.land (Z.shiftr dist 12) 16 ->
    d_ip st = op -> d_op st = p -> agree 0 p (d_out st) inb ->
    exists st',
      match_phase C in_len token st = Next st' /\
      d_ip st' = snd (put_match out op (best_len - MIN_MATCH) dist) /\
      d_op st' = p + best_len /\
      agree 0 (p + best_len) (d_out st') inb.
Proof.
  intros Hbl (Hlen & Hdist & Hwin & Hrep). unfold MIN_MATCH in *.
  specialize (Hrep Hbytes).
  destruct (put_match_decodes out op (best_len - 4) dist ltac:(lia) ltac:(lia))
    as (Hop & Hfr & Hdec).
  split; [exact Hop|]. split; [exact Hfr|].
  intros C token st HC Ht15 Ht16 Hip Hopd Hag.
  destruct (Hdec C HC token in_len st Ht15 Ht16 Hip) as (Hmp & Hld).
  rewrite Hmp. unfold MIN_MATCH. replace (best_len - 4 + 4) with best_len by lia.
  unfold match_copy. rewrite Hld, Ht16, Hopd.
  destruct (dist_bits dist ltac:(lia)) as (_ & Hd). rewrite Hd.
  test_is (in_len - p <? best_len) false.
  test_is (p <? dist) false.
  cbv zeta.
  assert (Hrep' : forall a, p <= a < p + best_len -> inb (a - dist) = inb a).
  { intros a Ha. replace (a - dist) with (p - dist + (a - p)) by lia.
    replace a with (p + (a - p)) at 2 by lia. apply Hrep. lia. }
  destruct (dist >=? 8) eqn:E8.
  - eexists. split; [reflexivity|]. cbn [d_ip d_op d_out].
    repeat split; try lia.
    apply WildCopy_same; try lia; assumption.
  - eexists. split; [reflexivity|]. cbn [d_ip d_op d_out].
    repeat split; try lia.
    replace (p + best_len) with (p + 4 + Z.of_nat (Z.to_nat (best_len - 4))) by lia.
    replace (p - dist + 4) with (p + 4 - dist) by lia.
    apply byte_copy_same.
    + lia.
    + change (p + 4) with (p + Z.of_nat 4).
      apply byte_copy_same; [lia | exact Hag |].
      intros a Ha. apply Hrep'. lia.
    + intros a Ha. apply Hrep'. lia.
Qed.

Lemma emit_match_decodes out op anchor p dist best_len in_len :
  0 <= anchor <= p -> p - anchor < cap 4 + 7 -> best_len < cap 4 + 19 ->
  valid_match inb p (in_len - p) dist best_len ->
  op + 3 <= snd (emit_match inb out op anchor p dist best_len) /\
  (forall a, a < op -> fst (emit_match inb out op anchor p dist best_len) a = out a) /\
  forall C ip_end st,
    agree op (snd (emit_match inb out op anchor p dist best_len))
      (fst (emit_match inb out op anchor p dist best_len)) C ->
    snd (emit_match inb out op anchor p dist best_len) <= ip_end ->
    d_ip st = op -> d_op st = anchor -> agree 0 anchor (d_out st) inb ->
    exists st',
      dec_step C ip_end in_len st = Next st' /\
      d_ip st' = snd (emit_match inb out op anchor p dist best_len) /\
      d_op st' = p + best_len /\
      agree 0 (p + best_len) (d_out st') inb.
Proof.
  intros Hanchor Hrun Hbl Hvalid.
  pose proof Hvalid as (Hlen & Hdist & Hwin & Hrep). unfold MIN_MATCH in Hlen.
  destruct (dist_bits dist ltac:(lia)) as (Hhb & _).
  set (hb := Z.land (Z.shiftr dist 12) 16) in *.
  assert (Hlc : 0 <= Min (best_len - MIN_MATCH) 15 <= 15).
  { rewrite Min_spec. unfold MIN_MATCH. lia. }
  unfold emit_match. fold hb.
  set (lc := Min (best_len - MIN_MATCH) 15) in *.
  destruct (anchor =? p) eqn:Eap; cbn [negb].
  - (* no pending literals *)
    apply Z.eqb_eq in Eap. subst anchor.
    destruct (token_bits 0 hb lc ltac:(lia) Hhb Hlc) as (HT & _ & H15 & H16).
    cbn [Z.mul Z.add] in HT, H15, H16.
    destruct (match_part_decodes (store out op (u8 (hb + lc))) (op + 1) p dist
                best_len in_len Hbl Hvalid) as (Hop & Hfr & Hdec).
    split; [lia|]. split.
    { intros a Ha. rewrite Hfr by lia. apply store_neq. lia. }
    intros C ip_end st HC Hend Hip Hopd Hag.
    assert (Htok : C op = hb + lc).
    { rewrite <- HC by lia. rewrite Hfr by lia. rewrite store_eq.
      apply u8_small. lia. }
    unfold dec_step. rewrite Hip, Htok.
    unfold lit_phase at 1.
    test_is (hb + lc >=? 32) false.
    apply Hdec.
    + intros a Ha. apply HC. lia.
    + exact H15.
    + exact H16.
    + reflexivity.
    + exact Hopd.
    + exact Hag.
  - (* pending literals *)
    apply Z.eqb_neq in Eap.
    destruct (put_literals_decodes out op anchor (p - anchor) (hb + lc)
                ltac:(lia) ltac:(lia)) as (Hop1 & Hfr1 & Hdec1).
    destruct (put_literals inb out op anchor (p - anchor) (hb + lc))
      as [out1 op1] eqn:EL. cbn [fst snd] in *.
    destruct (match_part_decodes out1 op1 p dist best_len in_len Hbl Hvalid)
      as (Hop & Hfr & Hdec).
    split; [lia|]. split.
    { intros a Ha. rewrite Hfr by lia. apply Hfr1. exact Ha. }
    intros C ip_end st HC Hend Hip Hopd Hag.
    assert (HC1 : agree op op1 out1 C).
    { intros a Ha. rewrite <- HC by lia. rewrite Hfr by lia. reflexivity. }
    destruct (Hdec1 C HC1) as (Htok & Hlit).
    destruct (token_bits (Z.min (p - anchor) 7) hb lc ltac:(lia) Hhb Hlc)
      as (HT & _ & H15 & H16).
    unfold dec_step. rewrite Hip.
    set (st1 := mkD (op + 1) (d_op st) (d_out st) (Z.max (d_rd st) (op + 1)) (d_wr st)).
    destruct (Hlit ip_end in_len st1 eq_refl ltac:(lia))
      as (st2 & HL & Hip2 & Hop2 & Hlow & Hnew).
    { unfold st1. cbn [d_op]. lia. }
    rewrite HL.
    test_is (op1 >=? ip_end) false.
    apply Hdec.
    + intros a Ha. apply HC. lia.
    + rewrite Htok. rewrite Z.add_assoc. exact H15.
    + rewrite Htok. rewrite Z.add_assoc. exact H16.
    + exact Hip2.
    + rewrite Hop2. unfold st1. cbn [d_op]. lia.
    + unfold st1 in *. cbn [d_op d_out] in *.
      intros a Ha. destruct (Z_lt_dec a anchor) as [Hl|Hl].
      * rewrite Hlow by lia. apply Hag. lia.
      * replace a with (d_op st + (a - anchor)) by lia.
        rewrite Hnew by lia. f_equal. lia.
Qed.

Lemma emit_last_decodes out op anchor in_len :
  0 <= anchor < in_len -> in_len - anchor < cap 4 + 7 ->
  op + 2 <= snd (emit_last inb out op anchor in_len) /\
  (forall a, a < op -> fst (emit_last inb out op anchor in_len) a = out a) /\
  forall C st,
    agree op (snd (emit_last inb out op anchor in_len))
      (fst (emit_last inb out op anchor in_len)) C ->
    d_ip st = op -> d_op st = anchor -> agree 0 anchor (d_out st) inb ->
    exists st',
      dec_step C (snd (emit_last inb out op anchor in_len)) in_len st = Break st' /\
      d_ip st' = snd (emit_last inb out op anchor in_len) /\
      d_op st' = in_len /\
      agree 0 in_len (d_out st') inb.
Proof.
  intros Hanchor Hrun. unfold emit_last.
  test_is (anchor =? in_len) false.
  cbn [negb].
  destruct (put_literals_decodes out op anchor (in_len - anchor) 0
              ltac:(lia) ltac:(lia)) as (Hop1 & Hfr1 & Hdec1).
  destruct (put_literals inb out op anchor (in_len - anchor) 0)
    as [out1 op1] eqn:EL. cbn [fst snd] in *.
  split; [lia|]. split; [exact Hfr1|].
  intros C st HC Hip Hopd Hag.
  destruct (Hdec1 C HC) as (Htok & Hlit).
  unfold dec_step. rewrite Hip.
  set (st1 := mkD (op + 1) (d_op st) (d_out st) (Z.max (d_rd st) (op + 1)) (d_wr st)).
  destruct (Hlit op1 in_len st1 eq_refl ltac:(lia))
    as (st2 & HL & Hip2 & Hop2 & Hlow & Hnew).
  { unfold st1. cbn [d_op]. lia. }
  rewrite HL.
  test_is (op1 >=? op1) true.
  exists st2. split; [reflexivity|]. split; [exact Hip2|].
  unfold st1 in *. cbn [d_op d_out] in *.
  split; [lia|].
  intros a Ha. destruct (Z_lt_dec a anchor) as [Hl|Hl].
  - rewrite Hlow by lia. apply Hag. lia.
  - replace a with (d_op st + (a - anchor)) by lia.
    rewrite Hnew by lia. f_equal. lia.
Qed.

End Emission.

(** ** One round of the compressors *)

Lemma EncodeMod_loop_advance : forall fuel m p x,
  p < snd (EncodeMod_loop fuel m p x).
Proof.
  induction fuel as [|f IH]; intros m p x; cbn [EncodeMod_loop].
  - cbn [snd]. lia.
  - destruct (128 <=? x); [|cbn [snd]; lia].
    pose proof (IH (store m p (u8 (128 + Z.land (x - 128) 127))) (p + 1)
                  (Z.shiftr (x - 128) 7)). lia.
Qed.

Lemma put_literals_advance inb out op anchor run t :
  1 <= run -> op < snd (put_literals inb out op anchor run t).
Proof.
  intros Hrun. unfold put_literals.
  destruct (run >=? 7).
  - pose proof (EncodeMod_loop_advance 5 (store out op (u8 (Z.shiftl 7 5 + t)))
                  (op + 1) (u32 (run - 7))) as H.
    unfold EncodeMod.
    destruct (EncodeMod_loop 5 _ (op + 1) (u32 (run - 7))) as [o1 p1].
    cbn [snd] in *. lia.
  - cbn [snd]. lia.
Qed.

Lemma put_match_advance out op len dist :
  op < snd (put_match out op len dist).
Proof.
  unfold put_match. destruct (len >=? 15).
  - pose proof (EncodeMod_loop_advance 5 out op (u32 (len - 15))) as H.
    unfold EncodeMod. destruct (EncodeMod_loop 5 out op (u32 (len - 15))) as [o1 p1].
    cbn [snd] in *. lia.
  - cbn [snd]. lia.
Qed.

Lemma emit_match_advance inb out op anchor p dist best_len :
  anchor <= p -> op < snd (emit_match inb out op anchor p dist best_len).
Proof.
  intros Hap. unfold emit_match.
  destruct (anchor =? p) eqn:E; cbn [negb].
  - pose proof (put_match_advance (store out op
        (u8 (Z.land (Z.shiftr dist 12) 16 + Min (best_len - MIN_MATCH) 15)))
        (op + 1) (best_len - MIN_MATCH) dist). lia.
  - apply Z.eqb_neq in E.
    pose proof (put_literals_advance inb out op anchor (p - anchor)
        (Z.land (Z.shiftr dist 12) 16 + Min (best_len - MIN_MATCH) 15) ltac:(lia)) as H1.
    destruct (put_literals inb out op anchor (p - anchor) _) as [o1 p1].
    cbn [snd] in H1.
    pose proof (put_match_advance o1 p1 (best_len - MIN_MATCH) dist). lia.
Qed.

Lemma emit_last_advance inb out op anchor p :
  anchor <= p -> op <= snd (emit_last inb out op anchor p).
Proof.
  intros Hap. unfold emit_last.
  destruct (anchor =? p) eqn:E; cbn [negb snd]; [lia|].
  apply Z.eqb_neq in E.
  pose proof (put_literals_advance inb out op anchor (p - anchor) 0 ltac:(lia)). lia.
Qed.

Lemma ht_ok_mono p q HT : p <= q -> ht_ok p HT -> ht_ok q HT.
Proof. intros Hpq H h. pose proof (H h). lia. Qed.

Lemma ht_ok_store p q HT h : 0 <= q < p -> ht_ok p HT -> ht_ok p (store HT h q).
Proof.
  intros Hq H h'. unfold store. destruct (h' =? h); [unfold NIL; lia | apply H].
Qed.

Lemma fast_find_spec inb in_len HT p :
  0 <= p -> ht_ok p HT ->
  (fst (fst (fast_find inb in_len HT p)) = 0 \/
   valid_match inb p (in_len - p) (snd (fst (fast_find inb in_len HT p)))
     (fst (fst (fast_find inb in_len HT p)))) /\
  ht_ok (p + 1) (snd (fast_find inb in_len HT p)).
Proof.
  intros Hp Hht. unfold fast_find.
  destruct (in_len - p >=? MIN_MATCH) eqn:Em.
  - assert (Hmm : MIN_MATCH <= in_len - p) by lia.
    cbv zeta.
    destruct ((HT (Hash32 inb p) >? Max (p - WINDOW_SIZE) NIL)
              && (UnalignedLoad32 inb (HT (Hash32 inb p)) =? UnalignedLoad32 inb p))
      eqn:Ec; cbn [fst snd].
    + apply andb_true_iff in Ec. destruct Ec as [E1 E2]. apply Z.eqb_eq in E2.
      split.
      * right. apply candidate_valid; [exact Hmm | | exact E2].
        pose proof (Hht (Hash32 inb p)). lia.
      * apply ht_ok_store; [lia|]. apply (ht_ok_mono p); [lia | exact Hht].
    + split; [left; reflexivity|].
      apply ht_ok_store; [lia|]. apply (ht_ok_mono p); [lia | exact Hht].
  - cbn [fst snd]. split; [left; reflexivity|].
    apply (ht_ok_mono p); [lia | exact Hht].
Qed.

Lemma fast_step_shape rhs_first inb in_len st :
  0 <= c_p st -> ht_ok (c_p st) (HashTable (c_tab st)) ->
  step_shape inb in_len st (fast_step rhs_first inb in_len st) /\
  ht_ok (c_p (fast_step rhs_first inb in_len st))
    (HashTable (c_tab (fast_step rhs_first inb in_len st))) /\
  Prev (c_tab (fast_step rhs_first inb in_len st)) = Prev (c_tab st).
Proof.
  intros Hp Hht. unfold fast_step.
  destruct (fast_find_spec inb in_len (HashTable (c_tab st)) (c_p st) Hp Hht)
    as (Hv & Hht1).
  destruct (fast_find inb in_len (HashTable (c_tab st)) (c_p st))
    as [[bl0 dist] HT1]. cbn [fst snd] in Hv, Hht1.
  set (best_len := if (bl0 =? MIN_MATCH) && (c_p st - c_anchor st >=? 7 + 128)
                   then 0 else bl0).
  destruct (best_len >=? MIN_MATCH) eqn:Eb.
  - assert (Hbl : best_len = bl0 /\ MIN_MATCH <= bl0).
    { subst best_len. unfold MIN_MATCH in *.
      destruct ((bl0 =? 4) && (c_p st - c_anchor st >=? 7 + 128)); lia. }
    destruct Hbl as [Hbl Hge]. rewrite Hbl.
    destruct Hv as [H0 | Hv]; [unfold MIN_MATCH in *; lia|].
    destruct (emit_match inb (c_out st) (c_op st) (c_anchor st) (c_p st) dist bl0)
      as [out' op'] eqn:EE.
    cbn [c_p c_tab HashTable Prev].
    split; [|split; [|reflexivity]].
    + apply (shape_emit inb in_len st _ dist bl0); cbn [c_p c_anchor c_out c_op c_log];
        try rewrite EE; try reflexivity. exact Hv.
    + unfold fast_insert. unfold MIN_MATCH in *.
      repeat apply ht_ok_store; try lia.
      apply (ht_ok_mono (c_p st + 1)); [lia | exact Hht1].
  - cbn [c_p c_tab HashTable Prev].
    split; [|split; [exact Hht1 | reflexivity]].
    apply shape_skip; reflexivity.
Qed.

Lemma normal_step_shape level max_chain inb in_len st :
  0 <= c_p st ->
  ht_ok (c_p st) (HashTable (c_tab st)) -> prev_ok (c_p st) (Prev (c_tab st)) ->
  step_shape inb in_len st (normal_step level max_chain inb in_len st) /\
  ht_ok (c_p (normal_step level max_chain inb in_len st))
    (HashTable (c_tab (normal_step level max_chain inb in_len st))) /\
  prev_ok (c_p (normal_step level max_chain inb in_len st))
    (Prev (c_tab (normal_step level max_chain inb in_len st))).
Proof.
  intros Hp Hht Hprev. unfold normal_step.
  set (p := c_p st) in *. set (tab := c_tab st) in *.
  set (cw := if in_len - p >=? MIN_MATCH
             then chain_walk (Z.to_nat max_chain) inb (Prev tab) p (in_len - p)
                    (Max (p - WINDOW_SIZE) NIL) (HashTable tab (Hash32 inb p)) 0 0
             else (0, 0)).
  assert (Hv : fst cw = 0 \/ valid_match inb p (in_len - p) (snd cw) (fst cw)).
  { subst cw. destruct (in_len - p >=? MIN_MATCH) eqn:Em.
    - apply chain_walk_valid; [lia | exact Hprev | apply Hht | left; reflexivity].
    - left. reflexivity. }
  destruct cw as [bl0 dist]. cbn [fst snd] in Hv.
  set (bl1 := if (bl0 =? MIN_MATCH) && (p - c_anchor st >=? 7 + 128) then 0 else bl0).
  set (best_len :=
         if (level >=? 5) && (bl1 >=? MIN_MATCH) && (bl1 <? in_len - p)
            && negb (p - c_anchor st =? 6)
         then
           if lazy_walk (Z.to_nat max_chain) inb (Prev tab) (p + 1) (bl1 + 1) bl1
                (Max (p + 1 - WINDOW_SIZE) NIL) (HashTable tab (Hash32 inb (p + 1)))
           then 0 else bl1
         else bl1).
  destruct (best_len >=? MIN_MATCH) eqn:Eb.
  - assert (Hbl : best_len = bl0 /\ MIN_MATCH <= bl0).
    { subst best_len bl1. unfold MIN_MATCH in *.
      repeat match goal with
             | H : context [if ?c then _ else _] |- _ => destruct c
             | |- context [if ?c then _ else _] => destruct c
             end; lia. }
    destruct Hbl as [Hbl Hge]. rewrite Hbl.
    destruct Hv as [H0 | Hv]; [unfold MIN_MATCH in *; lia|].
    destruct (emit_match inb (c_out st) (c_op st) (c_anchor st) p dist bl0)
      as [out' op'] eqn:EE.
    cbn [c_p c_tab].
    destruct (insert_run_ok inb (Z.to_nat bl0) tab p Hp Hht Hprev) as [H1 H2].
    replace (p + Z.of_nat (Z.to_nat bl0)) with (p + bl0) in H1, H2
      by (unfold MIN_MATCH in *; lia).
    split; [|split; assumption].
    apply (shape_emit inb in_len st _ dist bl0); cbn [c_p c_anchor c_out c_op c_log];
      fold p; try rewrite EE; try reflexivity. exact Hv.
  - cbn [c_p c_tab].
    destruct (insert_chained_ok inb tab p Hp Hht Hprev) as [H1 H2].
    split; [|split; assumption].
    apply shape_skip; reflexivity.
Qed.

(** ** The main loop of the compressors *)

Lemma enc_loop_inv (step : cstate -> cstate) (in_len : Z) (Inv : cstate -> Prop) :
  (forall st, Inv st -> c_p st < in_len ->
              Inv (step st) /\ c_p st < c_p (step st)) ->
  forall fuel st,
    Inv st -> in_len - c_p st <= Z.of_nat fuel ->
    exists st', enc_loop step in_len fuel st = Some st' /\ Inv st' /\ in_len <= c_p st'.
Proof.
  intros Hstep. induction fuel as [|f IH]; intros st Hinv Hf; cbn [enc_loop].
  - test_is (c_p st <? in_len) false.
    exists st. repeat split; [exact Hinv | lia].
  - destruct (c_p st <? in_len) eqn:E.
    + apply Z.ltb_lt in E. destruct (Hstep st Hinv E) as [Hinv' Hp].
      apply IH; [exact Hinv' | lia].
    + apply Z.ltb_ge in E. exists st. repeat split; [exact Hinv | lia].
Qed.

Lemma shape_enc_inv inb in_len st st' :
  enc_inv st -> step_shape inb in_len st st' ->
  ht_ok (c_p st') (HashTable (c_tab st')) ->
  enc_inv st' /\ c_p st < c_p st'.
Proof.
  intros (Ha & Hop & _ & Hlog) Hshape Hht.
  destruct Hshape as [Hp Han Hopq Hout Hl | dist best_len Hv Hp Han Hout Hopq Hl].
  - unfold enc_inv. rewrite Han, Hopq, Hl.
    split; [|lia].
    split; [lia|]. split; [lia|]. split; [exact Hht | exact Hlog].
  - destruct Hv as (Hlen & Hdist & Hwin & _). unfold MIN_MATCH in Hlen.
    pose proof (emit_match_advance inb (c_out st) (c_op st) (c_anchor st) (c_p st)
                  dist best_len ltac:(lia)) as Hadv.
    unfold enc_inv. rewrite Han, Hopq, Hl.
    split; [split; [lia|]|lia].
    split; [lia|]. split; [exact Hht|].
    apply Forall_app. split; [exact Hlog|].
    constructor; [|constructor].
    unfold backref_ok. cbn [br_dist br_pos]. lia.
Qed.

Lemma enc_inv_init out prev :
  enc_inv (mkC 0 0 0 out (mkTables reset prev) []) /\
  prev_ok 0 prev.
Proof.
  split.
  - unfold enc_inv. cbn [c_anchor c_p c_op c_tab c_log HashTable].
    split; [lia|]. split; [lia|]. split; [|constructor].
    intros h. unfold reset, NIL. lia.
  - intros s Hs Hwin. lia.
Qed.

Lemma fast_loop_inv rhs_first inb in_len out prev :
  exists st,
    enc_loop (fast_step rhs_first inb in_len) in_len (Z.to_nat in_len)
      (mkC 0 0 0 out (mkTables reset prev) []) = Some st /\
    enc_inv st /\ in_len <= c_p st.
Proof.
  apply (enc_loop_inv _ in_len enc_inv).
  - intros st Hinv Hlt.
    pose proof Hinv as (Ha & _ & Hht & _).
    destruct (fast_step_shape rhs_first inb in_len st ltac:(lia) Hht)
      as (Hshape & Hht' & _).
    apply (shape_enc_inv inb in_len); assumption.
  - apply enc_inv_init.
  - cbn [c_p]. lia.
Qed.

Lemma normal_loop_inv level max_chain inb in_len out prev :
  exists st,
    enc_loop (normal_step level max_chain inb in_len) in_len (Z.to_nat in_len)
      (mkC 0 0 0 out (mkTables reset prev) []) = Some st /\
    (enc_inv st /\ prev_ok (c_p st) (Prev (c_tab st))) /\ in_len <= c_p st.
Proof.
  apply (enc_loop_inv _ in_len
           (fun st => enc_inv st /\ prev_ok (c_p st) (Prev (c_tab st)))).
  - intros st [Hinv Hprev] Hlt.
    pose proof Hinv as (Ha & _ & Hht & _).
    destruct (normal_step_shape level max_chain inb in_len st ltac:(lia) Hht Hprev)
      as (Hshape & Hht' & Hprev').
    destruct (shape_enc_inv inb in_len st _ Hinv Hshape Hht') as [H1 H2].
    split; [split; assumption | assumption].
  - cbn beta. cbn [c_p c_tab Prev]. apply enc_inv_init.
  - cbn [c_p]. lia.
Qed.

Lemma finish_ret inb st :
  enc_inv st -> 0 <= r_ret (finish inb st) /\ r_log (finish inb st) = c_log st.
Proof.
  intros (Ha & Hop & _). unfold finish.
  pose proof (emit_last_advance inb (c_out st) (c_op st) (c_anchor st) (c_p st)
                ltac:(lia)) as H.
  destruct (emit_last inb (c_out st) (c_op st) (c_anchor st) (c_p st)) as [o p].
  cbn [snd r_ret r_log] in *. split; [lia | reflexivity].
Qed.

(** C5.  Every back-reference [CompressFast] or [Compress] emits has a
    distance of at least 1, below [WINDOW_SIZE], and at most the input
    position at which its match starts. *)
Theorem backrefs_within_window (rhs_first : bool) (tab : tables) (inb : mem)
  (in_len : Z) (out : mem) (level : Z) :
  (exists r, CompressFast rhs_first tab inb in_len out = Some r /\
             Forall backref_ok (r_log r)) /\
  (exists r, Compress tab inb in_len out level = Some r /\
             Forall backref_ok (r_log r)).
Proof.
  split.
  - unfold CompressFast.
    destruct (fast_loop_inv rhs_first inb in_len out (Prev tab))
      as (st & Hst & Hinv & _).
    rewrite Hst. cbn [option_map]. eexists. split; [reflexivity|].
    destruct (finish_ret inb st Hinv) as [_ Hlog]. rewrite Hlog.
    apply Hinv.
  - unfold Compress.
    destruct ((level <? 1) || (level >? 9)).
    + eexists. split; [reflexivity|]. constructor.
    + set (max_chain := if level <? 9 then Z.shiftl 1 level else Z.shiftl 1 13).
      destruct (normal_loop_inv level max_chain inb in_len out (Prev tab))
        as (st & Hst & [Hinv _] & _).
      rewrite Hst. cbn [option_map]. eexists. split; [reflexivity|].
      destruct (finish_ret inb st Hinv) as [_ Hlog]. rewrite Hlog.
      apply Hinv.
Qed.

(** ** Round trip *)

Section RoundTrip.

Variable inb : mem.
Hypothesis Hbytes : bytes_ok inb.
Variable in_len : Z.
(** Run lengths and match lengths fit the four bytes [DecodeMod] reads. *)
Hypothesis Hsize : in_len <= cap 4 + 6.

Lemma decodes_to_init out : decodes_to inb in_len out 0 0.
Proof.
  intros C ip_end D0 _ _. exists 0%nat, (mkD 0 0 D0 0 0).
  cbn [d_ip d_op d_out]. repeat split; try lia.
  intros a Ha. lia.
Qed.

Lemma decodes_to_emit out op anchor p dist best_len :
  0 <= anchor <= p -> 0 <= op ->
  valid_match inb p (in_len - p) dist best_len ->
  decodes_to inb in_len out op anchor ->
  decodes_to inb in_len
    (fst (emit_match inb out op anchor p dist best_len))
    (snd (emit_match inb out op anchor p dist best_len))
    (p + best_len).
Proof.
  intros Ha Hop Hv Hdec.
  pose proof Hv as (Hlen & _). unfold MIN_MATCH in Hlen.
  destruct (emit_match_decodes inb Hbytes out op anchor p dist best_len in_len
              Ha ltac:(lia) ltac:(lia) Hv) as (Hadv & Hfr & Htok).
  intros C ip_end D0 HC Hend.
  destruct (Hdec C ip_end D0) as (n & st & Hrun & Hip & Hopd & Hag & Hn).
  { intros a Ha'. rewrite <- HC by lia. symmetry. apply Hfr. lia. }
  { lia. }
  destruct (Htok C ip_end st) as (st' & Hstep & Hip' & Hop' & Hag'); try assumption.
  { intros a Ha'. apply HC. lia. }
  exists (S n), st'. repeat split; try assumption; try lia.
  intros k. replace (S n + k)%nat with (n + S k)%nat by lia.
  rewrite Hrun. cbn [dec_loop].
  test_is (d_ip st <? ip_end) true.
  rewrite Hstep. reflexivity.
Qed.

Lemma shape_decodes_to st st' :
  enc_inv st -> c_p st < in_len ->
  decodes_to inb in_len (c_out st) (c_op st) (c_anchor st) ->
  step_shape inb in_len st st' ->
  decodes_to inb in_len (c_out st') (c_op st') (c_anchor st') /\
  c_p st' <= in_len.
Proof.
  intros (Ha & Hop & _) Hlt Hdec Hshape.
  destruct Hshape as [Hp Han Hopq Hout Hl | dist best_len Hv Hp Han Hout Hopq Hl].
  - rewrite Hp, Han, Hopq, Hout. split; [exact Hdec | lia].
  - rewrite Hp, Han, Hopq, Hout. split.
    + apply decodes_to_emit; assumption.
    + destruct Hv as (Hlen & _). lia.
Qed.

(** The stream a compressor leaves decodes to the input, from whatever
    buffer holds it. *)
Lemma finish_decodes st :
  enc_inv st -> c_p st = in_len ->
  decodes_to inb in_len (c_out st) (c_op st) (c_anchor st) ->
  forall C D0,
    agree 0 (r_ret (finish inb st)) (r_out (finish inb st)) C ->
    exists d,
      Decompress C (r_ret (finish inb st)) D0 in_len = Some d /\
      dr_ret d = in_len /\ agree 0 in_len (dr_out d) inb.
Proof.
  intros (Ha & Hop & _) Hp Hdec C D0. unfold finish, Decompress.
  destruct (Z.eq_dec (c_anchor st) in_len) as [Heq|Hne].
  - (* nothing pending *)
    unfold emit_last. rewrite Hp.
    test_is (c_anchor st =? in_len) true.
    cbn [negb r_out r_ret]. intros HC.
    destruct (Hdec C (c_op st) D0 HC ltac:(lia))
      as (n & d & Hrun & Hip & Hopd & Hag & Hn).
    replace (Z.to_nat (c_op st)) with (n + (Z.to_nat (c_op st) - n))%nat by lia.
    rewrite Hrun.
    eexists. split.
    + destruct (Z.to_nat (c_op st) - n)%nat; cbn [dec_loop];
        test_is (d_ip d <? c_op st) false;
        reflexivity.
    + unfold dec_finish; cbn [dr_ret dr_out].
      test_is (d_ip d =? c_op st) true.
      split; [lia|]. rewrite <- Heq. exact Hag.
  - (* the trailing literals *)
    rewrite Hp.
    destruct (emit_last_decodes inb (c_out st) (c_op st) (c_anchor st) in_len
                ltac:(lia) ltac:(lia)) as (Hadv & Hfr & Htok).
    destruct (emit_last inb (c_out st) (c_op st) (c_anchor st) in_len)
      as [out' op'] eqn:EL. cbn [fst snd r_out r_ret] in *. intros HC.
    destruct (Hdec C op' D0) as (n & d & Hrun & Hip & Hopd & Hag & Hn).
    { intros a Ha'. rewrite <- HC by lia. symmetry. apply Hfr. lia. }
    { lia. }
    destruct (Htok C d) as (d' & Hstep & Hip' & Hop' & Hag'); try assumption.
    { intros a Ha'. apply HC. lia. }
    replace (Z.to_nat op') with (n + S (Z.to_nat op' - n - 1))%nat by lia.
    rewrite Hrun. cbn [dec_loop].
    test_is (d_ip d <? op') true.
    rewrite Hstep.
    eexists. split; [reflexivity|].
    unfold dec_finish; cbn [dr_ret dr_out].
    test_is (d_ip d' =? op') true.
    split; [exact Hop' | exact Hag'].
Qed.

Hypothesis Hlen : 0 <= in_len.

Lemma CompressFast_roundtrip rhs_first tab out :
  exists r,
    CompressFast rhs_first tab inb in_len out = Some r /\
    forall C D0,
      agree 0 (r_ret r) (r_out r) C ->
      exists d,
        Decompress C (r_ret r) D0 in_len = Some d /\
        dr_ret d = in_len /\ agree 0 in_len (dr_out d) inb.
Proof.
  unfold CompressFast.
  destruct (enc_loop_inv (fast_step rhs_first inb in_len) in_len
              (fun st => enc_inv st /\ c_p st <= in_len /\
                         decodes_to inb in_len (c_out st) (c_op st) (c_anchor st)))
    with (fuel := Z.to_nat in_len) (st := mkC 0 0 0 out (mkTables reset (Prev tab)) [])
    as (st & Hst & (Hinv & Hle & Hdec) & Hge).
  - intros st (Hinv & Hle & Hdec) Hlt.
    pose proof Hinv as (Ha & _ & Hht & _).
    destruct (fast_step_shape rhs_first inb in_len st ltac:(lia) Hht)
      as (Hshape & Hht' & _).
    destruct (shape_enc_inv inb in_len st _ Hinv Hshape Hht') as [H1 H2].
    destruct (shape_decodes_to st _ Hinv Hlt Hdec Hshape) as [H3 H4].
    split; [split; [exact H1 | split; [exact H4 | exact H3]] | exact H2].
  - split; [apply enc_inv_init|]. cbn [c_p c_out c_op c_anchor].
    split; [lia | apply decodes_to_init].
  - cbn [c_p]. lia.
  - rewrite Hst. cbn [option_map].
    exists (finish inb st). split; [reflexivity|].
    apply (finish_decodes st Hinv ltac:(lia) Hdec).
Qed.

Lemma Compress_roundtrip tab out level :
  1 <= level <= 9 ->
  exists r,
    Compress tab inb in_len out level = Some r /\
    forall C D0,
      agree 0 (r_ret r) (r_out r) C ->
      exists d,
        Decompress C (r_ret r) D0 in_len = Some d /\
        dr_ret d = in_len /\ agree 0 in_len (dr_out d) inb.
Proof.
  intros Hlevel. unfold Compress.
  test_is ((level <? 1) || (level >? 9)) false.
  set (max_chain := if level <? 9 then Z.shiftl 1 level else Z.shiftl 1 13).
  destruct (enc_loop_inv (normal_step level max_chain inb in_len) in_len
              (fun st => (enc_inv st /\ prev_ok (c_p st) (Prev (c_tab st))) /\
                         c_p st <= in_len /\
                         decodes_to inb in_len (c_out st) (c_op st) (c_anchor st)))
    with (fuel := Z.to_nat in_len) (st := mkC 0 0 0 out (mkTables reset (Prev tab)) [])
    as (st & Hst & ((Hinv & Hprev) & Hle & Hdec) & Hge).
  - intros st ((Hinv & Hprev) & Hle & Hdec) Hlt.
    pose proof Hinv as (Ha & _ & Hht & _).
    destruct (normal_step_shape level max_chain inb in_len st ltac:(lia) Hht Hprev)
      as (Hshape & Hht' & Hprev').
    destruct (shape_enc_inv inb in_len st _ Hinv Hshape Hht') as [H1 H2].
    destruct (shape_decodes_to st _ Hinv Hlt Hdec Hshape) as [H3 H4].
    split; [split; [split; [exact H1 | exact Hprev'] | split; [exact H4 | exact H3]]
           | exact H2].
  - split; [cbn [c_p c_tab Prev]; apply enc_inv_init|].
    cbn [c_p c_out c_op c_anchor].
    split; [lia | apply decodes_to_init].
  - cbn [c_p]. lia.
  - rewrite Hst. cbn [option_map].
    exists (finish inb st). split; [reflexivity|].
    apply (finish_decodes st Hinv ltac:(lia) Hdec).
Qed.

End RoundTrip.

(** C1, as the code has it.  For every input of at most 270549126 bytes,
    the stream [CompressFast] leaves, and the stream [Compress] leaves at any
    level in [1,9], decompressed from whatever buffer holds it, with the
    input length as declared capacity, gives back the input length and the
    input bytes. *)
Theorem compress_decompress_roundtrip (inb : mem) (in_len : Z)
  (rhs_first : bool) (tab : tables) (out : mem) (level : Z) :
  bytes_ok inb -> 0 <= in_len <= 270549126 -> 1 <= level <= 9 ->
  (exists r,
      CompressFast rhs_first tab inb in_len out = Some r /\
      forall C D0,
        agree 0 (r_ret r) (r_out r) C ->
        exists d,
          Decompress C (r_ret r) D0 in_len = Some d /\
          dr_ret d = in_len /\ agree 0 in_len (dr_out d) inb) /\
  (exists r,
      Compress tab inb in_len out level = Some r /\
      forall C D0,
        agree 0 (r_ret r) (r_out r) C ->
        exists d,
          Decompress C (r_ret r) D0 in_len = Some d /\
          dr_ret d = in_len /\ agree 0 in_len (dr_out d) inb).
Proof.
  intros Hb Hlen Hlevel.
  assert (Hsize : in_len <= cap 4 + 6) by (rewrite cap_4; lia).
  split.
  - apply CompressFast_roundtrip; [exact Hb | exact Hsize | lia].
  - apply Compress_roundtrip; [exact Hb | exact Hsize | lia | exact Hlevel].
Qed.

(** The theorem at sixteen 'A's, level 5. *)
Lemma compress_decompress_roundtrip_witness :
  (exists r,
      CompressFast false (mkTables reset reset) (of_list (repeat 65 16)) 16
        (of_list []) = Some r /\
      forall C D0,
        agree 0 (r_ret r) (r_out r) C ->
        exists d,
          Decompress C (r_ret r) D0 16 = Some d /\
          dr_ret d = 16 /\ agree 0 16 (dr_out d) (of_list (repeat 65 16))) /\
  (exists r,
      Compress (mkTables reset reset) (of_list (repeat 65 16)) 16
        (of_list []) 5 = Some r /\
      forall C D0,
        agree 0 (r_ret r) (r_out r) C ->
        exists d,
          Decompress C (r_ret r) D0 16 = Some d /\
          dr_ret d = 16 /\ agree 0 16 (dr_out d) (of_list (repeat 65 16))).
Proof.
  apply (compress_decompress_roundtrip (of_list (repeat 65 16)) 16 false
           (mkTables reset reset) (of_list []) 5).
  - apply of_list_bytes_ok. reflexivity.
  - lia.
  - lia.
Defined.

(** C4, as the code has it.  Cut the last [k] bytes (1 to 4) off a stream
    [CompressFast] or [Compress] produced from an input of at most 270549126
    bytes: [Decompress], given the original length as capacity, returns -1
    or a byte count below the original length, never the original length. *)
Theorem truncated_stream_falls_short (inb : mem) (in_len : Z)
  (rhs_first : bool) (tab : tables) (out D0 : mem) (level k : Z) :
  bytes_ok inb -> 0 <= in_len <= 270549126 -> 1 <= level <= 9 ->
  1 <= k <= 4 ->
  (exists r,
      CompressFast rhs_first tab inb in_len out = Some r /\
      forall C, agree 0 (r_ret r - k) C (r_out r) ->
        exists d, Decompress C (r_ret r - k) D0 in_len = Some d /\
                  (dr_ret d = -1 \/ 0 <= dr_ret d < in_len)) /\
  (exists r,
      Compress tab inb in_len out level = Some r /\
      forall C, agree 0 (r_ret r - k) C (r_out r) ->
        exists d, Decompress C (r_ret r - k) D0 in_len = Some d /\
                  (dr_ret d = -1 \/ 0 <= dr_ret d < in_len)).
Proof.
  intros Hb Hlen Hlevel Hk.
  assert (Hsize : in_len <= cap 4 + 6) by (rewrite cap_4; lia).
  assert (Hcut : forall r,
    (forall C D0, agree 0 (r_ret r) (r_out r) C ->
       exists d, Decompress C (r_ret r) D0 in_len = Some d /\
                 dr_ret d = in_len /\ agree 0 in_len (dr_out d) inb) ->
    forall C, agree 0 (r_ret r - k) C (r_out r) ->
      exists d', Decompress C (r_ret r - k) D0 in_len = Some d' /\
                 (dr_ret d' = -1 \/ 0 <= dr_ret d' < in_len)).
  { intros r Hfull C HC.
    destruct (Hfull (r_out r) D0) as (d & Hd & Hret & _);
      [intros a _; reflexivity|].
    destruct (Decompress_cut C (r_out r) (r_ret r - k) (r_ret r) D0 D0 in_len d
                ltac:(lia) HC Hd ltac:(lia)) as (d' & Hd' & Hlt).
    exists d'. split; [exact Hd'|].
    pose proof (dec_loop_ret_ge _ _ _ _ _ _ Hd') as Hge. cbn [d_op] in Hge. lia. }
  split.
  - destruct (CompressFast_roundtrip inb Hb in_len Hsize ltac:(lia) rhs_first tab out)
      as (r & Hr & Hfull).
    exists r. split; [exact Hr|]. apply (Hcut r Hfull).
  - destruct (Compress_roundtrip inb Hb in_len Hsize ltac:(lia) tab out level Hlevel)
      as (r & Hr & Hfull).
    exists r. split; [exact Hr|]. apply (Hcut r Hfull).
Qed.

(** The theorem at sixteen 'A's, level 5, one byte cut off. *)
Lemma truncated_stream_falls_short_witness :
  (exists r,
      CompressFast false (mkTables reset reset) (of_list (repeat 65 16)) 16
        (of_list []) = Some r /\
      forall C, agree 0 (r_ret r - 1) C (r_out r) ->
        exists d, Decompress C (r_ret r - 1) (of_list []) 16 = Some d /\
                  (dr_ret d = -1 \/ 0 <= dr_ret d < 16)) /\
  (exists r,
      Compress (mkTables reset reset) (of_list (repeat 65 16)) 16
        (of_list []) 5 = Some r /\
      forall C, agree 0 (r_ret r - 1) C (r_out r) ->
        exists d, Decompress C (r_ret r - 1) (of_list []) 16 = Some d /\
                  (dr_ret d = -1 \/ 0 <= dr_ret d < 16)).
Proof.
  apply (truncated_stream_falls_short (of_list (repeat 65 16)) 16 false
           (mkTables reset reset) (of_list []) (of_list []) 5 1).
  - apply of_list_bytes_ok. reflexivity.
  - lia.
  - lia.
  - lia.
Defined.

(** C4, as stated, fails: ten 0 bytes and a 1 compress (fast path, and
    [Compress] at level 1) to the six bytes 37, 0, 1, 0, 32, 1; with the
    last two cut off, [Decompress] with capacity 11 returns 10, not -1. *)
Lemma truncated_stream_accepted :
  match CompressFast false (mkTables reset reset)
          (of_list [0; 0; 0; 0; 0; 0; 0; 0; 0; 0; 1]) 11 (of_list []) with
  | Some r =>
      (r_ret r,
       option_map dr_ret (Decompress (r_out r) (r_ret r - 2) (of_list []) 11))
  | None => (0, None)
  end = (6, Some 10) /\
  match Compress (mkTables reset reset)
          (of_list [0; 0; 0; 0; 0; 0; 0; 0; 0; 0; 1]) 11 (of_list []) 1 with
  | Some r =>
      (r_ret r,
       option_map dr_ret (Decompress (r_out r) (r_ret r - 2) (of_list []) 11))
  | None => (0, None)
  end = (6, Some 10).
Proof. split; vm_compute; reflexivity. Qed.

(** ** What is written does not depend on what was there *)

Lemma EncodeMod_loop_cong : forall fuel m1 m2 p x,
  snd (EncodeMod_loop fuel m1 p x) = snd (EncodeMod_loop fuel m2 p x) /\
  forall a, m1 a = m2 a \/ p <= a < snd (EncodeMod_loop fuel m1 p x) ->
            fst (EncodeMod_loop fuel m1 p x) a = fst (EncodeMod_loop fuel m2 p x) a.
Proof.
  induction fuel as [|f IH]; intros m1 m2 p x; cbn [EncodeMod_loop].
  - cbn [fst snd]. split; [reflexivity|].
    intros a Ha. unfold store. destruct (a =? p) eqn:E; [reflexivity|].
    apply Z.eqb_neq in E. destruct Ha as [Ha|Ha]; [exact Ha | lia].
  - destruct (128 <=? x).
    + destruct (IH (store m1 p (u8 (128 + Z.land (x - 128) 127)))
                  (store m2 p (u8 (128 + Z.land (x - 128) 127)))
                  (p + 1) (Z.shiftr (x - 128) 7)) as [H1 H2].
      split; [exact H1|].
      intros a Ha. apply H2.
      destruct (Z.eq_dec a p) as [->|Hne].
      * left. rewrite !store_eq. reflexivity.
      * rewrite !store_neq by exact Hne.
        destruct Ha as [Ha|Ha]; [left; exact Ha | right; lia].
    + cbn [fst snd]. split; [reflexivity|].
      intros a Ha. unfold store. destruct (a =? p) eqn:E; [reflexivity|].
      apply Z.eqb_neq in E. destruct Ha as [Ha|Ha]; [exact Ha | lia].
Qed.

Lemma EncodeMod_cong m1 m2 p x :
  snd (EncodeMod m1 p x) = snd (EncodeMod m2 p x) /\
  forall a, m1 a = m2 a \/ p <= a < snd (EncodeMod m1 p x) ->
            fst (EncodeMod m1 p x) a = fst (EncodeMod m2 p x) a.
Proof. apply EncodeMod_loop_cong. Qed.

Lemma WildCopy_other_cong sm m1 m2 d s n a :
  m1 a = m2 a \/ d <= a < d + chunks n ->
  WildCopy (other sm) m1 d s n a = WildCopy (other sm) m2 d s n a.
Proof.
  intros Ha.
  destruct (Z_lt_dec a d) as [Hl|Hl].
  - rewrite !WildCopy_frame by lia. destruct Ha as [Ha|Ha]; [exact Ha | lia].
  - destruct (Z_lt_dec a (d + chunks n)) as [Hh|Hh].
    + rewrite !WildCopy_other by lia. reflexivity.
    + rewrite !WildCopy_frame by lia. destruct Ha as [Ha|Ha]; [exact Ha | lia].
Qed.

Lemma put_literals_cong inb m1 m2 op anchor run t :
  1 <= run ->
  snd (put_literals inb m1 op anchor run t) = snd (put_literals inb m2 op anchor run t) /\
  forall a, m1 a = m2 a \/ op <= a < snd (put_literals inb m1 op anchor run t) ->
            fst (put_literals inb m1 op anchor run t) a
            = fst (put_literals inb m2 op anchor run t) a.
Proof.
  intros Hrun. pose proof (chunks_bounds run Hrun) as Hch.
  unfold put_literals. destruct (run >=? 7).
  - destruct (EncodeMod_cong (store m1 op (u8 (Z.shiftl 7 5 + t)))
                (store m2 op (u8 (Z.shiftl 7 5 + t))) (op + 1) (run - 7)) as [H1 H2].
    pose proof (EncodeMod_loop_advance 5 (store m1 op (u8 (Z.shiftl 7 5 + t)))
                  (op + 1) (u32 (run - 7))) as Hadv.
    fold (EncodeMod (store m1 op (u8 (Z.shiftl 7 5 + t))) (op + 1) (run - 7)) in Hadv.
    destruct (EncodeMod (store m1 op (u8 (Z.shiftl 7 5 + t))) (op + 1) (run - 7))
      as [o1 p1].
    destruct (EncodeMod (store m2 op (u8 (Z.shiftl 7 5 + t))) (op + 1) (run - 7))
      as [o2 p2].
    cbn [fst snd] in *. subst p2. split; [reflexivity|].
    intros a Ha. apply WildCopy_other_cong.
    destruct (Z_le_dec p1 a) as [Hl|Hl];
      [destruct (Z_lt_dec a (p1 + chunks run)) as [Hh|Hh]; [right; lia|] |];
      left; apply H2;
      (destruct (Z.eq_dec a op) as [->|Hne];
       [ left; rewrite !store_eq; reflexivity
       | rewrite !store_neq by exact Hne;
         destruct Ha as [Ha|Ha]; [left; exact Ha | right; lia] ]).
  - cbn [fst snd]. split; [reflexivity|].
    intros a Ha. apply WildCopy_other_cong.
    destruct (Z.eq_dec a op) as [->|Hne].
    + left. rewrite !store_eq. reflexivity.
    + rewrite !store_neq by exact Hne.
      destruct Ha as [Ha|Ha]; [left; exact Ha | right; lia].
Qed.

Lemma put_match_cong m1 m2 op len dist :
  snd (put_match m1 op len dist) = snd (put_match m2 op len dist) /\
  forall a, m1 a = m2 a \/ op <= a < snd (put_match m1 op len dist) ->
            fst (put_match m1 op len dist) a = fst (put_match m2 op len dist) a.
Proof.
  unfold put_match.
  assert (H : exists o1 o2 p1,
    (if len >=? 15 then EncodeMod m1 op (len - 15) else (m1, op)) = (o1, p1) /\
    (if len >=? 15 then EncodeMod m2 op (len - 15) else (m2, op)) = (o2, p1) /\
    op <= p1 /\
    forall a, m1 a = m2 a \/ op <= a < p1 -> o1 a = o2 a).
  { destruct (len >=? 15).
    - destruct (EncodeMod_cong m1 m2 op (len - 15)) as [H1 H2].
      pose proof (EncodeMod_loop_advance 5 m1 op (u32 (len - 15))) as Hadv.
      fold (EncodeMod m1 op (len - 15)) in Hadv.
      destruct (EncodeMod m1 op (len - 15)) as [o1 p1].
      destruct (EncodeMod m2 op (len - 15)) as [o2 p2].
      cbn [fst snd] in *. subst p2.
      exists o1, o2, p1. repeat split; try lia. exact H2.
    - exists m1, m2, op. repeat split; lia. }
  destruct H as (o1 & o2 & p1 & -> & -> & Hp1 & Hcong).
  cbn [fst snd]. split; [reflexivity|].
  intros a Ha. unfold UnalignedStore16, store.
  destruct (a =? p1 + 1) eqn:E1; [reflexivity|].
  destruct (a =? p1) eqn:E2; [reflexivity|].
  apply Z.eqb_neq in E1, E2. apply Hcong.
  destruct Ha as [Ha|Ha]; [left; exact Ha | right; lia].
Qed.

Lemma emit_match_cong inb m1 m2 op anchor p dist best_len :
  anchor <= p ->
  snd (emit_match inb m1 op anchor p dist best_len)
  = snd (emit_match inb m2 op anchor p dist best_len) /\
  forall a, m1 a = m2 a \/ op <= a < snd (emit_match inb m1 op anchor p dist best_len) ->
            fst (emit_match inb m1 op anchor p dist best_len) a
            = fst (emit_match inb m2 op anchor p dist best_len) a.
Proof.
  intros Hap. unfold emit_match.
  set (t := Z.land (Z.shiftr dist 12) 16 + Min (best_len - MIN_MATCH) 15).
  assert (H : exists o1 o2 p1,
    (if negb (anchor =? p) then put_literals inb m1 op anchor (p - anchor) t
     else (store m1 op (u8 t), op + 1)) = (o1, p1) /\
    (if negb (anchor =? p) then put_literals inb m2 op anchor (p - anchor) t
     else (store m2 op (u8 t), op + 1)) = (o2, p1) /\
    op <= p1 /\
    forall a, m1 a = m2 a \/ op <= a < p1 -> o1 a = o2 a).
  { destruct (anchor =? p) eqn:E; cbn [negb].
    - exists (store m1 op (u8 t)), (store m2 op (u8 t)), (op + 1).
      repeat split; try lia.
      intros a Ha. unfold store. destruct (a =? op) eqn:E1; [reflexivity|].
      apply Z.eqb_neq in E1. destruct Ha as [Ha|Ha]; [exact Ha | lia].
    - apply Z.eqb_neq in E.
      destruct (put_literals_cong inb m1 m2 op anchor (p - anchor) t ltac:(lia))
        as [H1 H2].
      pose proof (put_literals_advance inb m1 op anchor (p - anchor) t ltac:(lia))
        as Hadv.
      destruct (put_literals inb m1 op anchor (p - anchor) t) as [o1 p1].
      destruct (put_literals inb m2 op anchor (p - anchor) t) as [o2 p2].
      cbn [fst snd] in *. subst p2.
      exists o1, o2, p1. repeat split; try lia. exact H2. }
  destruct H as (o1 & o2 & p1 & -> & -> & Hp1 & Hcong).
  destruct (put_match_cong o1 o2 p1 (best_len - MIN_MATCH) dist) as [H1 H2].
  split; [exact H1|].
  pose proof (put_match_advance o1 p1 (best_len - MIN_MATCH) dist) as Hadv.
  intros a Ha.
  destruct (Z_le_dec p1 a) as [Hl|Hl];
    [destruct (Z_lt_dec a (snd (put_match o1 p1 (best_len - MIN_MATCH) dist)))
       as [Hh|Hh]; [apply H2; right; lia|] |];
    apply H2; left; apply Hcong;
    (destruct Ha as [Ha|Ha]; [left; exact Ha | right; lia]).
Qed.

Lemma emit_last_cong inb m1 m2 op anchor p :
  anchor <= p ->
  snd (emit_last inb m1 op anchor p) = snd (emit_last inb m2 op anchor p) /\
  forall a, m1 a = m2 a \/ op <= a < snd (emit_last inb m1 op anchor p) ->
            fst (emit_last inb m1 op anchor p) a = fst (emit_last inb m2 op anchor p) a.
Proof.
  intros Hap. unfold emit_last. destruct (anchor =? p) eqn:E; cbn [negb].
  - cbn [fst snd]. split; [reflexivity|].
    intros a [Ha|Ha]; [exact Ha | lia].
  - apply Z.eqb_neq in E. apply put_literals_cong. lia.
Qed.

(** ** Two runs on the same input *)

Lemma enc_loop_rel (step1 step2 : cstate -> cstate) (in_len : Z)
  (R : cstate -> cstate -> Prop) :
  (forall s1 s2, R s1 s2 -> c_p s1 = c_p s2) ->
  (forall s1 s2, R s1 s2 -> c_p s1 < in_len -> R (step1 s1) (step2 s2)) ->
  forall fuel s1 s2 r1,
    R s1 s2 -> enc_loop step1 in_len fuel s1 = Some r1 ->
    exists r2, enc_loop step2 in_len fuel s2 = Some r2 /\ R r1 r2.
Proof.
  intros Hp Hstep. induction fuel as [|f IH]; intros s1 s2 r1 HR H1;
    cbn [enc_loop] in *; rewrite <- (Hp s1 s2 HR).
  - destruct (c_p s1 <? in_len); [discriminate|].
    injection H1 as <-. exists s2. split; [reflexivity | exact HR].
  - destruct (c_p s1 <? in_len) eqn:E.
    + apply Z.ltb_lt in E. apply (IH _ _ _ (Hstep s1 s2 HR E) H1).
    + injection H1 as <-. exists s2. split; [reflexivity | exact HR].
Qed.

Lemma emit_match_same inb out1 out2 op anchor p dist best_len :
  anchor <= p -> agree 0 op out1 out2 ->
  snd (emit_match inb out1 op anchor p dist best_len)
  = snd (emit_match inb out2 op anchor p dist best_len) /\
  agree 0 (snd (emit_match inb out1 op anchor p dist best_len))
    (fst (emit_match inb out1 op anchor p dist best_len))
    (fst (emit_match inb out2 op anchor p dist best_len)).
Proof.
  intros Hap Hag.
  destruct (emit_match_cong inb out1 out2 op anchor p dist best_len Hap) as [H1 H2].
  split; [exact H1|].
  intros a Ha. apply H2.
  destruct (Z_lt_dec a op); [left; apply Hag; lia | right; lia].
Qed.

Lemma fast_step_same rhs_first inb in_len s1 s2 :
  same_run s1 s2 -> c_anchor s1 <= c_p s1 ->
  same_run (fast_step rhs_first inb in_len s1) (fast_step rhs_first inb in_len s2).
Proof.
  intros (Hp & Ha & Hop & Hlog & Hht & Hout) Hap.
  unfold fast_step. rewrite <- Hp, <- Ha, <- Hop, <- Hlog, <- Hht.
  destruct (fast_find inb in_len (HashTable (c_tab s1)) (c_p s1)) as [[bl0 dist] HT1].
  set (best_len := if (bl0 =? MIN_MATCH) && (c_p s1 - c_anchor s1 >=? 7 + 128)
                   then 0 else bl0).
  destruct (best_len >=? MIN_MATCH).
  - destruct (emit_match_same inb (c_out s1) (c_out s2) (c_op s1) (c_anchor s1)
                (c_p s1) dist best_len Hap Hout) as [H1 H2].
    destruct (emit_match inb (c_out s1) (c_op s1) (c_anchor s1) (c_p s1) dist best_len)
      as [o1 p1].
    destruct (emit_match inb (c_out s2) (c_op s1) (c_anchor s1) (c_p s1) dist best_len)
      as [o2 p2].
    cbn [fst snd] in *. subst p2.
    unfold same_run. cbn [c_p c_anchor c_op c_log c_tab c_out HashTable].
    repeat split; try reflexivity. exact H2.
  - unfold same_run. cbn [c_p c_anchor c_op c_log c_tab c_out HashTable].
    repeat split; try reflexivity. exact Hout.
Qed.

Lemma normal_step_same level max_chain inb in_len s1 s2 :
  same_run s1 s2 -> 0 <= c_anchor s1 <= c_p s1 ->
  ht_ok (c_p s1) (HashTable (c_tab s1)) ->
  prev_ok (c_p s1) (Prev (c_tab s1)) ->
  prev_agree (c_p s1) (Prev (c_tab s1)) (Prev (c_tab s2)) ->
  same_run (normal_step level max_chain inb in_len s1)
    (normal_step level max_chain inb in_len s2) /\
  prev_agree (c_p (normal_step level max_chain inb in_len s1))
    (Prev (c_tab (normal_step level max_chain inb in_len s1)))
    (Prev (c_tab (normal_step level max_chain inb in_len s2))).
Proof.
  intros (Hp & Ha & Hop & Hlog & Hht & Hout) Hap Hhtok Hok Hag.
  unfold normal_step. rewrite <- Hp, <- Ha, <- Hop, <- Hlog, <- Hht.
  set (p := c_p s1) in *.
  rewrite <- (chain_walk_ext inb (Prev (c_tab s1)) (Prev (c_tab s2)) p Hok Hag)
    by apply Hhtok.
  destruct (if in_len - p >=? MIN_MATCH
            then chain_walk (Z.to_nat max_chain) inb (Prev (c_tab s1)) p (in_len - p)
                   (Max (p - WINDOW_SIZE) NIL) (HashTable (c_tab s1) (Hash32 inb p)) 0 0
            else (0, 0)) as [bl0 dist].
  rewrite <- (lazy_walk_ext inb (Prev (c_tab s1)) (Prev (c_tab s2)) p Hok Hag)
    by apply Hhtok.
  set (bl1 := if (bl0 =? MIN_MATCH) && (p - c_anchor s1 >=? 7 + 128) then 0 else bl0).
  set (best_len :=
         if (level >=? 5) && (bl1 >=? MIN_MATCH) && (bl1 <? in_len - p)
            && negb (p - c_anchor s1 =? 6)
         then
           if lazy_walk (Z.to_nat max_chain) inb (Prev (c_tab s1)) (p + 1) (bl1 + 1)
                bl1 (Max (p + 1 - WINDOW_SIZE) NIL)
                (HashTable (c_tab s1) (Hash32 inb (p + 1)))
           then 0 else bl1
         else bl1).
  destruct (c_tab s1) as [HT prev1] eqn:Et1.
  destruct (c_tab s2) as [HT2 prev2] eqn:Et2.
  cbn [HashTable Prev] in *. subst HT2.
  destruct (best_len >=? MIN_MATCH) eqn:Eb.
  - destruct (emit_match_same inb (c_out s1) (c_out s2) (c_op s1) (c_anchor s1)
                p dist best_len ltac:(lia) Hout) as [H1 H2].
    destruct (emit_match inb (c_out s1) (c_op s1) (c_anchor s1) p dist best_len)
      as [o1 p1].
    destruct (emit_match inb (c_out s2) (c_op s1) (c_anchor s1) p dist best_len)
      as [o2 p2].
    cbn [fst snd] in *. subst p2.
    destruct (insert_run_agree inb (Z.to_nat best_len) HT prev1 prev2 p Hag)
      as [H3 H4].
    unfold same_run. cbn [c_p c_anchor c_op c_log c_tab c_out].
    replace (p + Z.of_nat (Z.to_nat best_len)) with (p + best_len) in H4
      by (unfold MIN_MATCH in Eb; lia).
    repeat split; try reflexivity; assumption.
  - destruct (insert_chained_agree inb HT prev1 prev2 p Hag) as [H3 H4].
    unfold same_run. cbn [c_p c_anchor c_op c_log c_tab c_out].
    repeat split; try reflexivity; assumption.
Qed.

Lemma finish_same inb s1 s2 :
  same_run s1 s2 -> c_anchor s1 <= c_p s1 ->
  r_ret (finish inb s1) = r_ret (finish inb s2) /\
  agree 0 (r_ret (finish inb s1)) (r_out (finish inb s1)) (r_out (finish inb s2)).
Proof.
  intros (Hp & Ha & Hop & Hlog & Hht & Hout) Hap. unfold finish.
  rewrite <- Hp, <- Ha, <- Hop.
  destruct (emit_last_cong inb (c_out s1) (c_out s2) (c_op s1) (c_anchor s1) (c_p s1)
              Hap) as [H1 H2].
  destruct (emit_last inb (c_out s1) (c_op s1) (c_anchor s1) (c_p s1)) as [o1 p1].
  destruct (emit_last inb (c_out s2) (c_op s1) (c_anchor s1) (c_p s1)) as [o2 p2].
  cbn [fst snd r_ret r_out] in *. subst p2. split; [reflexivity|].
  intros a Ha'. apply H2.
  destruct (Z_lt_dec a (c_op s1)); [left; apply Hout; lia | right; lia].
Qed.


(** ** A stream [Decompress] cannot read back *)

Lemma zeros_const a : of_list [] a = 0.
Proof. unfold of_list. destruct (a <? 0); [reflexivity|]. destruct (Z.to_nat a); reflexivity. Qed.

Lemma Hash32_zeros p : Hash32 (of_list []) p = 0.
Proof. unfold Hash32, UnalignedLoad32. rewrite !zeros_const. reflexivity. Qed.

Lemma UnalignedLoad32_zeros p : UnalignedLoad32 (of_list []) p = 0.
Proof. unfold UnalignedLoad32. rewrite !zeros_const. reflexivity. Qed.

Lemma match_len_zeros s p mm :
  MIN_MATCH <= mm ->
  match_len (Z.to_nat mm) (of_list []) s p mm MIN_MATCH = mm.
Proof.
  intros Hmm. unfold MIN_MATCH in *.
  destruct (match_len_spec (of_list []) s p mm (Z.to_nat mm) 4 ltac:(lia) ltac:(lia))
    as (_ & _ & [H|H]); [exact H|].
  rewrite !zeros_const in H. congruence.
Qed.

Lemma enc_loop_unfold step in_len f st :
  enc_loop step in_len (S f) st
  = if c_p st <? in_len then enc_loop step in_len f (step st) else Some st.
Proof. reflexivity. Qed.

Lemma enc_loop_done step in_len f st :
  in_len <= c_p st -> enc_loop step in_len f st = Some st.
Proof.
  intros H. destruct f; cbn [enc_loop];
    test_is (c_p st <? in_len) false; reflexivity.
Qed.

(** First round on zero bytes: the bucket is empty. *)
Lemma fast_step_zeros_first rhs_first N out prev :
  5 <= N ->
  fast_step rhs_first (of_list []) N (mkC 0 0 0 out (mkTables reset prev) [])
  = mkC 1 0 0 out (mkTables (store reset 0 0) prev) [].
Proof.
  intros HN. unfold fast_step, fast_find.
  cbn [c_p c_anchor c_op c_out c_tab c_log HashTable Prev].
  rewrite !Hash32_zeros, !UnalignedLoad32_zeros.
  replace (N - 0 >=? MIN_MATCH) with true by (unfold MIN_MATCH; lia).
  change (reset 0 >? Max (0 - WINDOW_SIZE) NIL) with false.
  cbn [andb].
  reflexivity.
Qed.

(** Second round: position 0 matches position 1 to the end of the input. *)
Lemma fast_step_zeros_second rhs_first N out prev :
  5 <= N ->
  exists HT,
    fast_step rhs_first (of_list []) N (mkC 1 0 0 out (mkTables (store reset 0 0) prev) [])
    = mkC (1 + (N - 1)) (1 + (N - 1))
        (snd (emit_match (of_list []) out 0 0 1 1 (N - 1)))
        (fst (emit_match (of_list []) out 0 0 1 1 (N - 1)))
        (mkTables HT prev) [mkBackref 1 1 (N - 1)].
Proof.
  intros HN. unfold fast_step, fast_find.
  cbn [c_p c_anchor c_op c_out c_tab c_log HashTable Prev].
  rewrite !Hash32_zeros, !UnalignedLoad32_zeros.
  replace (N - 1 >=? MIN_MATCH) with true by (unfold MIN_MATCH; lia).
  change (store reset 0 0 0) with 0.
  change (0 >? Max (1 - WINDOW_SIZE) NIL) with true.
  change (0 =? 0) with true. cbn [andb].
  rewrite match_len_zeros by (unfold MIN_MATCH; lia).
  replace ((N - 1 =? MIN_MATCH) && (1 - 0 >=? 7 + 128)) with false
    by (unfold MIN_MATCH; lia).
  replace (N - 1 >=? MIN_MATCH) with true by (unfold MIN_MATCH; lia).
  change (1 - 0) with 1.
  destruct (emit_match (of_list []) out 0 0 1 1 (N - 1)) as [out' op'].
  cbn [fst snd app]. eexists. reflexivity.
Qed.

(** On [N] zero bytes [CompressFast] emits one token: the literal 0, then a
    match of length [N - 1] at distance 1. *)
Lemma CompressFast_zeros (rhs_first : bool) (N : Z) (tab : tables)
  (out : mem) :
  5 <= N ->
  exists r,
    CompressFast rhs_first tab (of_list []) N out = Some r /\
    r_ret r = snd (emit_match (of_list []) out 0 0 1 1 (N - 1)) /\
    r_out r = fst (emit_match (of_list []) out 0 0 1 1 (N - 1)).
Proof.
  intros HN. unfold CompressFast.
  replace (Z.to_nat N) with (S (S (Z.to_nat (N - 2)))) by lia.
  set (f := Z.to_nat (N - 2)). clearbody f.
  rewrite enc_loop_unfold. cbn [c_p].
  test_is (0 <? N) true.
  rewrite fast_step_zeros_first by exact HN.
  rewrite enc_loop_unfold. cbn [c_p].
  test_is (1 <? N) true.
  destruct (fast_step_zeros_second rhs_first N out (Prev tab) HN) as (HT & ->).
  rewrite enc_loop_done by (cbn [c_p]; lia).
  cbn [option_map]. unfold finish, emit_last.
  cbn [c_p c_anchor c_op c_out c_tab c_log].
  rewrite Z.eqb_refl. cbn [negb].
  eexists. split; [reflexivity|]. split; reflexivity.
Qed.

(** C1, as stated, fails: 270549140 zero bytes compress (fast path, either
    evaluation order) to nine bytes whose match length needs a five-byte
    extension; [Decompress] reads four of them and returns -1. *)
Lemma roundtrip_fails_on_long_match :
  (exists r,
      CompressFast false (mkTables reset reset) (of_list []) 270549140 (of_list [])
      = Some r /\
      r_ret r = 9 /\
      option_map dr_ret (Decompress (r_out r) (r_ret r) (of_list []) 270549140)
      = Some (-1)) /\
  (exists r,
      CompressFast true (mkTables reset reset) (of_list []) 270549140 (of_list [])
      = Some r /\
      r_ret r = 9 /\
      option_map dr_ret (Decompress (r_out r) (r_ret r) (of_list []) 270549140)
      = Some (-1)).
Proof.
  split.
  - destruct (CompressFast_zeros false 270549140 (mkTables reset reset) (of_list [])
                ltac:(lia)) as (r & Hr & Hret & Hout).
    exists r. split; [exact Hr|].
    rewrite Hret, Hout. split; vm_compute; reflexivity.
  - destruct (CompressFast_zeros true 270549140 (mkTables reset reset) (of_list [])
                ltac:(lia)) as (r & Hr & Hret & Hout).
    exists r. split; [exact Hr|].
    rewrite Hret, Hout. split; vm_compute; reflexivity.
Qed.

(** * Further properties of the code *)

(** ** The varint codec: sizes and the limit of the format *)

(** A value of [cap r] or more takes more than [r] bytes. *)
Lemma EncodeMod_loop_longer : forall r fuel m p x,
  (r < fuel)%nat -> cap r <= x ->
  p + Z.of_nat r < snd (EncodeMod_loop fuel m p x).
Proof.
  induction r as [|r IH]; intros fuel m p x Hf Hx.
  - pose proof (EncodeMod_loop_advance fuel m p x). lia.
  - destruct fuel as [|f]; [lia|]. cbn [EncodeMod_loop cap] in *.
    pose proof (cap_nonneg r) as Hc.
    test_is (128 <=? x) true.
    assert (Hq : cap r <= Z.shiftr (x - 128) 7).
    { rewrite shiftr_7. apply Z.div_le_lower_bound; lia. }
    pose proof (IH f (store m p (u8 (128 + Z.land (x - 128) 127))) (p + 1)
                  (Z.shiftr (x - 128) 7) ltac:(lia) Hq).
    lia.
Qed.

Lemma EncodeMod_count m p x (k : nat) :
  (1 <= k <= 5)%nat -> cap (k - 1) <= x < cap k ->
  snd (EncodeMod_loop 5 m p x) = p + Z.of_nat k.
Proof.
  intros Hk Hx.
  pose proof (cap_nonneg (k - 1)) as Hc.
  destruct (EncodeMod_loop_spec k 5 m p x ltac:(lia) ltac:(lia)) as ((_ & Hup) & _).
  pose proof (EncodeMod_loop_longer (k - 1) 5 m p x ltac:(lia) ltac:(lia)) as Hlo.
  lia.
Qed.

Lemma u32_range x : 0 <= u32 x < 4294967296.
Proof. unfold u32. apply Z.mod_pos_bound. lia. Qed.

Lemma ModSize_range x : 1 <= ModSize x <= 5.
Proof.
  unfold ModSize.
  repeat match goal with |- context [if ?c then _ else _] => destruct c end; lia.
Qed.

Lemma EncodeMod_snd m p x : snd (EncodeMod m p x) = p + ModSize (u32 x).
Proof.
  pose proof (u32_range x) as Hx. unfold EncodeMod, ModSize.
  destruct (u32 x <? 128) eqn:E1;
    [apply (EncodeMod_count m p (u32 x) 1); [lia | cbn [cap Nat.sub]; lia]|].
  destruct (u32 x <? 16512) eqn:E2;
    [apply (EncodeMod_count m p (u32 x) 2); [lia | cbn [cap Nat.sub]; lia]|].
  destruct (u32 x <? 2113664) eqn:E3;
    [apply (EncodeMod_count m p (u32 x) 3); [lia | cbn [cap Nat.sub]; lia]|].
  destruct (u32 x <? 270549120) eqn:E4;
    [apply (EncodeMod_count m p (u32 x) 4); [lia | cbn [cap Nat.sub]; lia]|].
  apply (EncodeMod_count m p (u32 x) 5); [lia | cbn [cap Nat.sub]; lia].
Qed.

Lemma EncodeMod_frame m p x a :
  a < p \/ snd (EncodeMod m p x) <= a -> fst (EncodeMod m p x) a = m a.
Proof.
  pose proof (u32_range x) as Hx. unfold EncodeMod.
  destruct (EncodeMod_loop_spec 5 5 m p (u32 x) ltac:(lia) ltac:(cbn [cap]; lia))
    as (_ & Hframe & _).
  apply Hframe.
Qed.

(** X1.  [EncodeMod] writes as many bytes as the value needs, one to five (one
    below 128, two below 16512, three below 2113664, four below 270549120),
    each of them a byte, and touches no other cell. *)
Theorem EncodeMod_size (m : mem) (p x : Z) :
  snd (EncodeMod m p x) = p + ModSize (u32 x) /\
  1 <= ModSize (u32 x) <= 5 /\
  (forall a, p <= a < snd (EncodeMod m p x) -> 0 <= fst (EncodeMod m p x) a < 256) /\
  (forall a, a < p \/ snd (EncodeMod m p x) <= a -> fst (EncodeMod m p x) a = m a).
Proof.
  split; [apply EncodeMod_snd|]. split; [apply ModSize_range|].
  split; [|apply EncodeMod_frame].
  intros a Ha. pose proof (u32_range x) as Hx. unfold EncodeMod in *.
  destruct (EncodeMod_loop_bytes 5 m p (u32 x) ltac:(cbn [cap]; lia))
    as (Hhead & Hlast & _).
  destruct (Z.eq_dec a (snd (EncodeMod_loop 5 m p (u32 x)) - 1)) as [->|Hne].
  - lia.
  - specialize (Hhead a ltac:(lia)). lia.
Qed.

(** X2.  [DecodeMod] reads back what [EncodeMod] wrote exactly when the value
    is below 270549120: four bytes hold no more, and [EncodeMod] writes a
    fifth byte that [DecodeMod] never reads. *)
Theorem varint_roundtrip_limit (m : mem) (p x : Z) :
  0 <= x < 4294967296 ->
  (DecodeMod (fst (EncodeMod m p x)) p = (x, snd (EncodeMod m p x))
   <-> x < 270549120).
Proof.
  intros Hx. split.
  - intros Hrt. destruct (Z_lt_dec x 270549120) as [Hl|Hl]; [exact Hl|exfalso].
    pose proof (DecodeMod_advance (fst (EncodeMod m p x)) p) as [Hadv _].
    rewrite Hrt in Hadv. cbn [snd] in Hadv.
    unfold EncodeMod in Hadv. rewrite (u32_small x) in Hadv by lia.
    rewrite (EncodeMod_count m p x 5) in Hadv; [lia | lia | cbn [cap Nat.sub]; lia].
  - intros Hl. rewrite <- cap_4 in Hl.
    destruct (EncodeMod_spec m p x ltac:(lia)) as (_ & _ & Hdec).
    apply Hdec. intros a _. reflexivity.
Qed.

(** The theorem at the first value that does not survive. *)
Lemma varint_roundtrip_limit_witness :
  DecodeMod (fst (EncodeMod (of_list []) 0 270549120)) 0
  = (270549120, snd (EncodeMod (of_list []) 0 270549120))
  <-> 270549120 < 270549120.
Proof. apply (varint_roundtrip_limit (of_list []) 0 270549120). lia. Defined.

(** ** The token byte and the distance field *)

(** X3.  What the compressors pack into the token byte and the two distance
    bytes, the decompressor's shifts and masks take apart again: the
    literal-run code, the match-length code and the 17-bit distance. *)
Theorem token_fields_roundtrip (m : mem) (p rc dist len : Z) :
  0 <= rc <= 7 -> 0 <= dist < WINDOW_SIZE -> 0 <= len ->
  Z.shiftr (u8 (Z.shiftl rc 5 + (Z.land (Z.shiftr dist 12) 16 + Min len 15))) 5
  = rc /\
  Z.land (u8 (Z.shiftl rc 5 + (Z.land (Z.shiftr dist 12) 16 + Min len 15))) 15
  = Min len 15 /\
  Z.shiftl
    (Z.land (u8 (Z.shiftl rc 5 + (Z.land (Z.shiftr dist 12) 16 + Min len 15))) 16)
    12
  + UnalignedLoad16 (UnalignedStore16 m p (u16 dist)) p = dist.
Proof.
  intros Hrc Hd Hl.
  destruct (dist_bits dist Hd) as [Hhb Hdist].
  assert (Hlc : 0 <= Min len 15 <= 15) by (rewrite Min_spec; lia).
  rewrite shiftl_mul by lia. change (2 ^ 5) with 32.
  rewrite Z.add_assoc.
  destruct (token_bits rc (Z.land (Z.shiftr dist 12) 16) (Min len 15) Hrc Hhb Hlc)
    as (Hb & H5 & H15 & H16).
  rewrite (u8_small _ Hb). rewrite H5, H15, H16.
  split; [reflexivity|]. split; [reflexivity|].
  rewrite (UnalignedStore16_load m p (u16 dist) (UnalignedStore16 m p (u16 dist))).
  - exact Hdist.
  - unfold u16. apply Z.mod_pos_bound. lia.
  - intros a _. reflexivity.
Qed.

(** The theorem at run code 7, distance 70000 and length code 20. *)
Lemma token_fields_roundtrip_witness :
  Z.shiftr (u8 (Z.shiftl 7 5 + (Z.land (Z.shiftr 70000 12) 16 + Min 20 15))) 5
  = 7 /\
  Z.land (u8 (Z.shiftl 7 5 + (Z.land (Z.shiftr 70000 12) 16 + Min 20 15))) 15
  = Min 20 15 /\
  Z.shiftl
    (Z.land (u8 (Z.shiftl 7 5 + (Z.land (Z.shiftr 70000 12) 16 + Min 20 15))) 16)
    12
  + UnalignedLoad16 (UnalignedStore16 (of_list []) 3 (u16 70000)) 3 = 70000.
Proof.
  apply (token_fields_roundtrip (of_list []) 3 7 70000 20);
    rewrite ?WINDOW_SIZE_val; lia.
Defined.

(** ** The scratch arrays are indexed within their bounds *)

(** X4.  [Hash32] of any four cells is an index of [HashTable];
    [s&WINDOW_MASK] is an index of [Prev], the residue of [s]; and two
    positions less than a window apart never share a slot of [Prev]. *)
Theorem table_indices_in_bounds (m : mem) (p s s' : Z) :
  0 <= Hash32 m p < HASH_SIZE /\
  0 <= Z.land s WINDOW_MASK < WINDOW_SIZE /\
  Z.land s WINDOW_MASK = s mod WINDOW_SIZE /\
  (Z.land s WINDOW_MASK = Z.land s' WINDOW_MASK ->
   - WINDOW_SIZE < s - s' < WINDOW_SIZE -> s = s').
Proof.
  split; [apply Hash32_range|]. split; [apply slot_range|].
  split; [apply slot_mod|]. apply slot_inj.
Qed.

(** ** What the copies do *)

(** X5.  [WildCopy] between two buffers moves whole eight-byte chunks: the
    [chunks n] cells from [d] on receive the source cells from [s] on, and no
    other cell changes.  For [n >= 1] that is at most seven cells more than
    asked for. *)
Theorem WildCopy_moves_chunks (sm dm : mem) (d s n : Z) :
  (forall a, d <= a < d + chunks n ->
             WildCopy (other sm) dm d s n a = sm (s + (a - d))) /\
  (forall a, a < d \/ d + chunks n <= a ->
             WildCopy (other sm) dm d s n a = dm a) /\
  8 <= chunks n /\ chunks n mod 8 = 0 /\
  (1 <= n -> n <= chunks n <= n + 7).
Proof.
  split; [intros a Ha; apply WildCopy_other; exact Ha|].
  split; [intros a Ha; apply WildCopy_frame; exact Ha|].
  destruct (chunks_mult n) as (q & Hq & Hq1 & Hq2 & Hq3).
  split; [lia|]. split.
  - rewrite Hq, Z.mul_comm. apply Z.mod_mul. lia.
  - apply chunks_bounds.
Qed.

(** The chunked copy inside one buffer, the source [dist >= 8] cells behind
    the destination. *)
Lemma WildCopy_pattern (m : mem) (d dist n : Z) :
  8 <= dist ->
  forall a, d <= a < d + chunks n ->
            WildCopy same m d (d - dist) n a
            = WildCopy same m d (d - dist) n (a - dist).
Proof.
  intros Hdist.
  apply (WildCopy_inv same m d (d - dist) n
           (fun i mm => forall a, d <= a < d + i -> mm a = mm (a - dist))).
  - intros i mm Hi Hinv a Ha. unfold same.
    destruct (Z_lt_dec a (d + i)) as [Hl|Hl].
    + rewrite !UnalignedCopy64_out by lia. apply Hinv. lia.
    + rewrite UnalignedCopy64_in by lia.
      rewrite UnalignedCopy64_out by lia. f_equal. lia.
  - intros a Ha. unfold same.
    rewrite UnalignedCopy64_in by lia.
    rewrite UnalignedCopy64_out by lia. f_equal. lia.
Qed.

(** X6.  [WildCopy] inside one buffer, the source at least eight cells behind
    the destination: every cell of the chunks written holds what the cell
    [dist] before it holds, so a pattern of period [dist] is continued; no
    other cell changes. *)
Theorem WildCopy_continues_pattern (m : mem) (d dist n : Z) :
  8 <= dist ->
  (forall a, d <= a < d + chunks n ->
             WildCopy same m d (d - dist) n a
             = WildCopy same m d (d - dist) n (a - dist)) /\
  (forall a, a < d \/ d + chunks n <= a ->
             WildCopy same m d (d - dist) n a = m a).
Proof.
  intros Hdist. split.
  - apply WildCopy_pattern. exact Hdist.
  - intros a Ha. apply WildCopy_frame. exact Ha.
Qed.

(** The theorem at distance 8, twenty bytes asked for. *)
Lemma WildCopy_continues_pattern_witness :
  (forall a, 8 <= a < 8 + chunks 20 ->
             WildCopy same (of_list [1; 2; 3; 4; 5; 6; 7; 8]) 8 (8 - 8) 20 a
             = WildCopy same (of_list [1; 2; 3; 4; 5; 6; 7; 8]) 8 (8 - 8) 20 (a - 8)) /\
  (forall a, a < 8 \/ 8 + chunks 20 <= a ->
             WildCopy same (of_list [1; 2; 3; 4; 5; 6; 7; 8]) 8 (8 - 8) 20 a
             = of_list [1; 2; 3; 4; 5; 6; 7; 8] a).
Proof.
  apply (WildCopy_continues_pattern (of_list [1; 2; 3; 4; 5; 6; 7; 8]) 8 8 20). lia.
Defined.

(** The byte loop, the source [dist >= 1] cells behind the destination. *)
Lemma byte_copy_pattern n : forall m d dist,
  1 <= dist ->
  (forall a, d <= a < d + Z.of_nat n ->
             byte_copy n m d (d - dist) a = byte_copy n m d (d - dist) (a - dist)) /\
  (forall a, a < d \/ d + Z.of_nat n <= a -> byte_copy n m d (d - dist) a = m a).
Proof.
  induction n as [|n IH]; intros m d dist Hd.
  - cbn [byte_copy]. split; intros a Ha; [lia | reflexivity].
  - cbn [byte_copy].
    replace (d - dist + 1) with (d + 1 - dist) by lia.
    destruct (IH (store m d (m (d - dist))) (d + 1) dist Hd) as [Hpat Hfr].
    split.
    + intros a Ha. destruct (Z.eq_dec a d) as [->|Hne].
      * rewrite !Hfr by lia. rewrite store_eq. rewrite store_neq by lia. reflexivity.
      * apply Hpat. lia.
    + intros a Ha. rewrite Hfr by lia. apply store_neq. lia.
Qed.

(** The byte loop with source and destination at the same cell changes
    nothing. *)
Lemma byte_copy_onto_itself n : forall m d a, byte_copy n m d d a = m a.
Proof.
  induction n as [|n IH]; intros m d a; cbn [byte_copy]; [reflexivity|].
  rewrite IH. unfold store. destruct (a =? d) eqn:E; [|reflexivity].
  apply Z.eqb_eq in E. subst a. reflexivity.
Qed.

Lemma byte_copy_app n1 : forall n2 m d s,
  byte_copy n2 (byte_copy n1 m d s) (d + Z.of_nat n1) (s + Z.of_nat n1)
  = byte_copy (n1 + n2) m d s.
Proof.
  induction n1 as [|n1 IH]; intros n2 m d s.
  - cbn [byte_copy Nat.add].
    replace (d + Z.of_nat 0) with d by lia.
    replace (s + Z.of_nat 0) with s by lia. reflexivity.
  - cbn [byte_copy Nat.add]. rewrite <- IH.
    replace (d + 1 + Z.of_nat n1) with (d + Z.of_nat (S n1)) by lia.
    replace (s + 1 + Z.of_nat n1) with (s + Z.of_nat (S n1)) by lia.
    reflexivity.
Qed.

(** X7.  The match copy of [Decompress] (lines 380-402).  When it goes
    through, the distance is at most the number of bytes produced and the
    length fits the capacity; the bytes produced before stay as they are; and
    for a distance of 1 or more each of the [len] new bytes equals the byte
    [dist] before it, whether the chunked or the byte-wise copy ran.  For a
    distance of 0 nothing is written: the [len] bytes counted as produced are
    whatever the output buffer held. *)
Theorem match_copy_repeats (inb : mem) (op_end token len ip1 : Z)
  (st st' : dstate) :
  4 <= len ->
  match_copy inb op_end token len ip1 st = Next st' ->
  Z.shiftl (Z.land token 16) 12 + UnalignedLoad16 inb ip1 <= d_op st /\
  d_op st + len <= op_end /\
  d_op st' = d_op st + len /\ d_ip st' = ip1 + 2 /\
  (forall a, a < d_op st -> d_out st' a = d_out st a) /\
  (1 <= Z.shiftl (Z.land token 16) 12 + UnalignedLoad16 inb ip1 ->
   forall a, d_op st <= a < d_op st + len ->
     d_out st' a
     = d_out st' (a - (Z.shiftl (Z.land token 16) 12 + UnalignedLoad16 inb ip1))) /\
  (Z.shiftl (Z.land token 16) 12 + UnalignedLoad16 inb ip1 = 0 ->
   forall a, d_out st' a = d_out st a).
Proof.
  intros Hlen. unfold match_copy.
  destruct (op_end - d_op st <? len) eqn:Ec; [discriminate|].
  apply Z.ltb_ge in Ec. cbv zeta.
  set (dist := Z.shiftl (Z.land token 16) 12 + UnalignedLoad16 inb ip1).
  destruct (d_op st <? dist) eqn:Ed; [discriminate|].
  apply Z.ltb_ge in Ed.
  pose proof (chunks_bounds len ltac:(lia)) as Hch.
  destruct (dist >=? 8) eqn:E8; intros Hst;
    apply (f_equal outcome_state) in Hst; cbn [outcome_state] in Hst;
    subst st'; cbn [d_ip d_op d_out].
  - pose proof (WildCopy_pattern (d_out st) (d_op st) dist len ltac:(lia))
      as Hpat.
    repeat (split; [lia|]).
    split; [intros a Ha; apply WildCopy_frame; lia|].
    split; [intros _ a Ha; apply Hpat; lia | intros H0; lia].
  - replace (d_op st - dist + 4) with (d_op st - dist + Z.of_nat 4) by lia.
    replace (d_op st + 4) with (d_op st + Z.of_nat 4) by lia.
    rewrite byte_copy_app.
    assert (Hn : Z.of_nat (4 + Z.to_nat (len - 4)) = len) by lia.
    repeat (split; [lia|]).
    split; [|split].
    + intros a Ha. apply byte_copy_frame. lia.
    + intros H1 a Ha.
      destruct (byte_copy_pattern (4 + Z.to_nat (len - 4)) (d_out st) (d_op st)
                  dist H1) as [Hpat _].
      apply Hpat. lia.
    + intros H0 a. rewrite H0. replace (d_op st - 0) with (d_op st) by lia.
      apply byte_copy_onto_itself.
Qed.

(** The theorem at a token of length 6 and distance 2, two bytes produced. *)
Lemma match_copy_repeats_witness :
  exists st',
    match_copy (of_list [2; 2; 0]) 8 2 6 1 (mkD 1 2 (of_list [65; 66]) 1 2) = Next st' /\
    d_op st' = 2 + 6 /\
    forall a, 2 <= a < 2 + 6 -> d_out st' a = d_out st' (a - 2).
Proof.
  eexists. split; [vm_compute; reflexivity|].
  destruct (match_copy_repeats (of_list [2; 2; 0]) 8 2 6 1
              (mkD 1 2 (of_list [65; 66]) 1 2) _ ltac:(lia) eq_refl)
    as (_ & _ & Hop & _ & _ & Hpat & _).
  split; [exact Hop|]. apply Hpat. vm_compute. discriminate.
Defined.

(** ** The literal copy of the decompressor *)

(** X8.  The literal phase of a round (lines 362-375), for a token of 32 or
    more.  When it goes through, the run is at least one byte and fits both
    what is left of the input and the capacity; the run's bytes are in the
    output, behind the bytes produced before, which stay as they are; and the
    round ends there exactly when the input is used up. *)
Theorem lit_phase_copies (inb : mem) (ip_end op_end token : Z)
  (st st' : dstate) :
  32 <= token ->
  lit_phase inb ip_end op_end token st = Next st' \/
  lit_phase inb ip_end op_end token st = Break st' ->
  exists run ip1,
    (run, ip1)
    = (if Z.shiftr token 5 =? 7
       then (7 + fst (DecodeMod inb (d_ip st)), snd (DecodeMod inb (d_ip st)))
       else (Z.shiftr token 5, d_ip st)) /\
    1 <= run /\ d_op st + run <= op_end /\ ip1 + run <= ip_end /\
    d_ip st' = ip1 + run /\ d_op st' = d_op st + run /\
    (forall k, 0 <= k < run -> d_out st' (d_op st + k) = inb (ip1 + k)) /\
    (forall a, a < d_op st -> d_out st' a = d_out st a) /\
    (lit_phase inb ip_end op_end token st = Break st' <-> ip_end <= d_ip st').
Proof.
  intros Ht Hres. unfold lit_phase in *.
  test_is (token >=? 32) true in Hres. test_is (token >=? 32) true.
  assert (Hrun0 : 1 <= Z.shiftr token 5).
  { rewrite shiftr_5. apply Z.div_le_lower_bound; lia. }
  pose proof (DecodeMod_advance inb (d_ip st)) as [_ Hval].
  destruct (DecodeMod inb (d_ip st)) as [x ip']. cbn [fst snd] in *.
  set (pr := if Z.shiftr token 5 =? 7 then (Z.shiftr token 5 + x, ip')
             else (Z.shiftr token 5, d_ip st)) in *.
  assert (Hpr : pr = (if Z.shiftr token 5 =? 7 then (7 + x, ip')
                      else (Z.shiftr token 5, d_ip st)) /\ 1 <= fst pr).
  { subst pr. destruct (Z.shiftr token 5 =? 7) eqn:E7; cbn [fst].
    - apply Z.eqb_eq in E7. rewrite E7. split; [reflexivity | lia].
    - split; [reflexivity | lia]. }
  destruct Hpr as [Hpr Hrun].
  destruct pr as [run ip1]. cbn [fst] in Hrun.
  exists run, ip1. split; [exact Hpr|].
  destruct ((op_end - d_op st <? run) || (ip_end - ip1 <? run)) eqn:Ec.
  { destruct Hres as [H|H]; discriminate. }
  apply orb_false_iff in Ec. destruct Ec as [Ec1 Ec2].
  apply Z.ltb_ge in Ec1, Ec2.
  pose proof (chunks_bounds run Hrun) as Hch.
  assert (Hst : st' = mkD (ip1 + run) (d_op st + run)
                        (WildCopy (other inb) (d_out st) (d_op st) ip1 run)
                        (Z.max (Z.max (d_rd st) ip1) (ip1 + chunks run))
                        (Z.max (d_wr st) (d_op st + chunks run))).
  { destruct (ip1 + run >=? ip_end); destruct Hres as [H|H];
      try discriminate; injection H as <-; reflexivity. }
  subst st'. cbn [d_ip d_op d_out].
  repeat (split; [lia|]).
  split; [intros k Hk; rewrite WildCopy_other by lia; f_equal; lia|].
  split; [intros a Ha; apply WildCopy_frame; lia|].
  destruct (ip1 + run >=? ip_end) eqn:Eb; split; intros H;
    try reflexivity; try discriminate; lia.
Qed.

(** The theorem at the stream 64, 65, 66 (a run of two), capacity 2. *)
Lemma lit_phase_copies_witness :
  exists st' run ip1,
    lit_phase (of_list [64; 65; 66]) 3 2 64 (mkD 1 0 (of_list []) 1 0) = Break st' /\
    1 <= run /\ d_ip st' = ip1 + run /\ d_op st' = 0 + run /\
    forall k, 0 <= k < run -> d_out st' (0 + k) = of_list [64; 65; 66] (ip1 + k).
Proof.
  eexists.
  destruct (lit_phase_copies (of_list [64; 65; 66]) 3 2 64
              (mkD 1 0 (of_list []) 1 0) _ ltac:(lia) (or_intror eq_refl))
    as (run & ip1 & _ & H1 & _ & _ & H2 & H3 & H4 & _).
  exists run, ip1. split; [reflexivity|].
  split; [exact H1|]. split; [exact H2|]. split; [exact H3 | exact H4].
Defined.

(** ** The decompressor: what the result depends on *)

Section Blind.

Variable inb : mem.
Variables ip_end op_end : Z.

Lemma lit_phase_blind token stA stB :
  sim stA stB ->
  osim (lit_phase inb ip_end op_end token stA) (lit_phase inb ip_end op_end token stB).
Proof.
  intros [Hip Hop]. unfold lit_phase. rewrite <- Hip, <- Hop.
  destruct (token >=? 32); [|cbn [osim]; split; assumption].
  destruct (if Z.shiftr token 5 =? 7
            then let '(x, ip') := DecodeMod inb (d_ip stA) in (Z.shiftr token 5 + x, ip')
            else (Z.shiftr token 5, d_ip stA)) as [run ip1].
  destruct ((op_end - d_op stA <? run) || (ip_end - ip1 <? run));
    [cbn [osim]; split; reflexivity|].
  destruct (ip1 + run >=? ip_end); cbn [osim]; split; reflexivity.
Qed.

Lemma match_phase_blind token stA stB :
  sim stA stB ->
  osim (match_phase inb op_end token stA) (match_phase inb op_end token stB).
Proof.
  intros [Hip Hop]. unfold match_phase. rewrite <- Hip.
  destruct (if Z.land token 15 + MIN_MATCH =? 15 + MIN_MATCH
            then let '(x, ip') := DecodeMod inb (d_ip stA) in
                 (Z.land token 15 + MIN_MATCH + x, ip')
            else (Z.land token 15 + MIN_MATCH, d_ip stA)) as [len ip1].
  unfold match_copy. rewrite <- Hop.
  destruct (op_end - d_op stA <? len); [cbn [osim]; split; reflexivity|].
  cbv zeta.
  destruct (d_op stA <? _); [cbn [osim]; split; reflexivity|].
  destruct (_ >=? 8); cbn [osim]; split; reflexivity.
Qed.

Lemma dec_step_blind stA stB :
  sim stA stB ->
  osim (dec_step inb ip_end op_end stA) (dec_step inb ip_end op_end stB).
Proof.
  intros Hs. pose proof Hs as [Hip Hop]. unfold dec_step. rewrite <- Hip.
  set (a1 := mkD (d_ip stA + 1) (d_op stA) (d_out stA)
               (Z.max (d_rd stA) (d_ip stA + 1)) (d_wr stA)).
  set (b1 := mkD (d_ip stA + 1) (d_op stB) (d_out stB)
               (Z.max (d_rd stB) (d_ip stA + 1)) (d_wr stB)).
  assert (H1 : sim a1 b1) by (split; [reflexivity | exact Hop]).
  pose proof (lit_phase_blind (inb (d_ip stA)) a1 b1 H1) as HL.
  destruct (lit_phase inb ip_end op_end (inb (d_ip stA)) a1) as [a2|a2|a2];
    destruct (lit_phase inb ip_end op_end (inb (d_ip stA)) b1) as [b2|b2|b2];
    cbn [osim] in HL; try contradiction; try exact HL.
  apply match_phase_blind. exact HL.
Qed.

Lemma dec_loop_blind : forall fuel stA stB,
  sim stA stB ->
  option_map dr_ret (dec_loop inb ip_end op_end fuel stA)
  = option_map dr_ret (dec_loop inb ip_end op_end fuel stB).
Proof.
  assert (Hfin : forall stA stB, sim stA stB ->
            dr_ret (dec_finish ip_end stA) = dr_ret (dec_finish ip_end stB)).
  { intros stA stB [Hip Hop]. unfold dec_finish. cbn [dr_ret].
    rewrite Hip, Hop. reflexivity. }
  induction fuel as [|f IH]; intros stA stB Hs; pose proof Hs as [Hip Hop];
    cbn [dec_loop]; rewrite <- Hip.
  - destruct (d_ip stA <? ip_end); [reflexivity|].
    cbn [option_map]. f_equal. apply Hfin. exact Hs.
  - destruct (d_ip stA <? ip_end).
    + pose proof (dec_step_blind stA stB Hs) as HS.
      destruct (dec_step inb ip_end op_end stA) as [a|a|a];
        destruct (dec_step inb ip_end op_end stB) as [b|b|b];
        cbn [osim] in HS; try contradiction.
      * apply IH. exact HS.
      * cbn [option_map]. f_equal. apply Hfin. exact HS.
      * reflexivity.
    + cbn [option_map]. f_equal. apply Hfin. exact Hs.
Qed.

End Blind.

(** X9.  What [Decompress] returns, a count or -1, does not depend on what the
    output buffer holds when it is called. *)
Theorem Decompress_return_ignores_buffer (inb : mem) (in_len : Z)
  (out out' : mem) (out_len : Z) :
  option_map dr_ret (Decompress inb in_len out out_len)
  = option_map dr_ret (Decompress inb in_len out' out_len).
Proof.
  unfold Decompress. apply dec_loop_blind. split; reflexivity.
Qed.

(** ** The decompressor: the declared capacity is a limit and nothing else *)

Section Capacity.

Variable inb : mem.
Variables ip_end m m' : Z.

Lemma lit_phase_capacity token st :
  match lit_phase inb ip_end m token st with
  | Fail _ => True
  | o =>
      (d_op (outcome_state o) <= m' -> lit_phase inb ip_end m' token st = o) /\
      (m' < d_op (outcome_state o) -> d_op st <= m' ->
       exists f, lit_phase inb ip_end m' token st = Fail f)
  end.
Proof.
  unfold lit_phase.
  destruct (token >=? 32) eqn:Et.
  2:{ cbn [outcome_state]. split; [reflexivity | lia]. }
  destruct (if Z.shiftr token 5 =? 7
            then let '(x, ip') := DecodeMod inb (d_ip st) in (Z.shiftr token 5 + x, ip')
            else (Z.shiftr token 5, d_ip st)) as [run ip1].
  destruct ((m - d_op st <? run) || (ip_end - ip1 <? run)) eqn:Ec; [exact I|].
  apply orb_false_iff in Ec. destruct Ec as [Ec1 Ec2].
  destruct (ip1 + run >=? ip_end); cbn [outcome_state d_op]; split.
  - intros H. test_is (m' - d_op st <? run) false. rewrite Ec2. reflexivity.
  - intros H _. test_is (m' - d_op st <? run) true. eexists. reflexivity.
  - intros H. test_is (m' - d_op st <? run) false. rewrite Ec2. reflexivity.
  - intros H _. test_is (m' - d_op st <? run) true. eexists. reflexivity.
Qed.

Lemma match_phase_capacity token st :
  match match_phase inb m token st with
  | Fail _ => True
  | o =>
      d_op st <= d_op (outcome_state o) /\
      (d_op (outcome_state o) <= m' -> match_phase inb m' token st = o) /\
      (m' < d_op (outcome_state o) ->
       exists f, match_phase inb m' token st = Fail f)
  end.
Proof.
  unfold match_phase.
  assert (Hl0 : 0 <= Z.land token 15).
  { rewrite land_15. apply Z.mod_pos_bound. lia. }
  pose proof (DecodeMod_advance inb (d_ip st)) as [_ Hval].
  destruct (DecodeMod inb (d_ip st)) as [x ip']. cbn [fst] in Hval.
  set (pr := if Z.land token 15 + MIN_MATCH =? 15 + MIN_MATCH
             then (Z.land token 15 + MIN_MATCH + x, ip')
             else (Z.land token 15 + MIN_MATCH, d_ip st)).
  assert (Hpr : 4 <= fst pr).
  { subst pr. unfold MIN_MATCH. destruct (_ =? _); cbn [fst]; lia. }
  destruct pr as [len ip1]. cbn [fst] in Hpr.
  unfold match_copy.
  destruct (m - d_op st <? len) eqn:Ec; [exact I|].
  cbv zeta.
  destruct (d_op st <? _) eqn:Ed; [exact I|].
  destruct (_ >=? 8) eqn:E8; cbn [outcome_state d_op];
    (split; [lia|]; split;
     [intros H; test_is (m' - d_op st <? len) false; reflexivity
     |intros H; test_is (m' - d_op st <? len) true; eexists; reflexivity]).
Qed.

Lemma dec_step_capacity st :
  match dec_step inb ip_end m st with
  | Fail _ => True
  | o =>
      (d_op (outcome_state o) <= m' -> dec_step inb ip_end m' st = o) /\
      (m' < d_op (outcome_state o) -> d_op st <= m' ->
       exists f, dec_step inb ip_end m' st = Fail f)
  end.
Proof.
  unfold dec_step.
  set (st1 := mkD (d_ip st + 1) (d_op st) (d_out st)
                (Z.max (d_rd st) (d_ip st + 1)) (d_wr st)).
  assert (Hop1 : d_op st1 = d_op st) by reflexivity.
  pose proof (lit_phase_capacity (inb (d_ip st)) st1) as HL.
  rewrite Hop1 in HL.
  destruct (lit_phase inb ip_end m (inb (d_ip st)) st1) as [st2|st2|st2];
    cbn [outcome_state] in HL.
  - destruct HL as [HLs HLf].
    pose proof (match_phase_capacity (inb (d_ip st)) st2) as HM.
    destruct (match_phase inb m (inb (d_ip st)) st2) as [st3|st3|st3];
      cbn [outcome_state] in HM |- *; [| |exact I];
      destruct HM as (Hge & HMs & HMf); split.
    + intros H. rewrite HLs by lia. apply HMs. exact H.
    + intros H Hst. destruct (Z_le_dec (d_op st2) m') as [Hle|Hgt].
      * rewrite HLs by exact Hle. apply HMf. exact H.
      * destruct (HLf ltac:(lia) Hst) as [f Hf]. rewrite Hf. eexists. reflexivity.
    + intros H. rewrite HLs by lia. apply HMs. exact H.
    + intros H Hst. destruct (Z_le_dec (d_op st2) m') as [Hle|Hgt].
      * rewrite HLs by exact Hle. apply HMf. exact H.
      * destruct (HLf ltac:(lia) Hst) as [f Hf]. rewrite Hf. eexists. reflexivity.
  - destruct HL as [HLs HLf]. split.
    + intros H. rewrite HLs by exact H. reflexivity.
    + intros H Hst. destruct (HLf H Hst) as [f Hf]. rewrite Hf. eexists. reflexivity.
  - exact I.
Qed.

Lemma dec_finish_count st :
  0 <= dr_ret (dec_finish ip_end st) -> dr_ret (dec_finish ip_end st) = d_op st.
Proof.
  unfold dec_finish. cbn [dr_ret]. destruct (d_ip st =? ip_end); lia.
Qed.

Lemma dec_loop_capacity : forall fuel st r,
  dec_loop inb ip_end m fuel st = Some r -> 0 <= dr_ret r ->
  (dr_ret r <= m' -> dec_loop inb ip_end m' fuel st = Some r) /\
  (m' < dr_ret r -> d_op st <= m' ->
   exists r', dec_loop inb ip_end m' fuel st = Some r' /\ dr_ret r' = -1).
Proof.
  induction fuel as [|f IH]; intros st r Hr Hret; cbn [dec_loop] in Hr |- *.
  - destruct (d_ip st <? ip_end); [discriminate|].
    injection Hr as <-. pose proof (dec_finish_count st Hret).
    split; [reflexivity | lia].
  - destruct (d_ip st <? ip_end).
    2:{ injection Hr as <-. pose proof (dec_finish_count st Hret).
        split; [reflexivity | lia]. }
    pose proof (dec_step_capacity st) as HS.
    destruct (dec_step inb ip_end m st) as [st1|st1|st1];
      cbn [outcome_state] in HS.
    + destruct HS as [HSs HSf].
      destruct (IH st1 r Hr Hret) as [IHs IHf].
      pose proof (dec_loop_ret_ge inb ip_end m f st1 r Hr) as Hge.
      split.
      * intros H. rewrite HSs by lia. apply IHs. exact H.
      * intros H Hst. destruct (Z_le_dec (d_op st1) m') as [Hle|Hgt].
        -- rewrite HSs by exact Hle. apply IHf; assumption.
        -- destruct (HSf ltac:(lia) Hst) as [x Hx]. rewrite Hx.
           eexists. split; reflexivity.
    + destruct HS as [HSs HSf]. injection Hr as <-.
      pose proof (dec_finish_count st1 Hret) as Hc.
      split.
      * intros H. rewrite HSs by lia. reflexivity.
      * intros H Hst. destruct (HSf ltac:(lia) Hst) as [x Hx]. rewrite Hx.
        eexists. split; reflexivity.
    + injection Hr as <-. cbn [dec_fail dr_ret] in Hret. lia.
Qed.

End Capacity.

(** X10.  The declared capacity only limits: a stream that decodes to [n]
    bytes under one capacity decodes to the same [n] bytes, with the same
    buffer left behind, under every capacity of [n] or more, and is refused
    under every smaller one. *)
Theorem Decompress_capacity_is_a_limit (inb : mem) (in_len : Z) (out : mem)
  (out_len out_len' : Z) (r : dresult) :
  Decompress inb in_len out out_len = Some r -> 0 <= dr_ret r ->
  0 <= out_len' ->
  (dr_ret r <= out_len' -> Decompress inb in_len out out_len' = Some r) /\
  (out_len' < dr_ret r ->
   option_map dr_ret (Decompress inb in_len out out_len') = Some (-1)).
Proof.
  unfold Decompress. intros Hr Hret Hcap.
  destruct (dec_loop_capacity inb in_len out_len out_len' _ _ r Hr Hret) as [Hs Hf].
  split; [exact Hs|].
  intros H. destruct (Hf H ltac:(cbn [d_op]; lia)) as (r' & Hr' & Hm).
  rewrite Hr'. cbn [option_map]. rewrite Hm. reflexivity.
Qed.

(** The theorem at the stream of sixteen 'A's: capacity 20 gives 16, so does
    capacity 16, and capacity 15 is refused. *)
Lemma Decompress_capacity_is_a_limit_witness :
  exists r,
    Decompress (of_list [43; 65; 1; 0]) 4 (of_list []) 20 = Some r /\
    dr_ret r = 16 /\
    Decompress (of_list [43; 65; 1; 0]) 4 (of_list []) 16 = Some r /\
    option_map dr_ret (Decompress (of_list [43; 65; 1; 0]) 4 (of_list []) 15)
    = Some (-1).
Proof.
  destruct (Decompress (of_list [43; 65; 1; 0]) 4 (of_list []) 20) as [r|] eqn:E;
    [|vm_compute in E; discriminate].
  assert (Hret : dr_ret r = 16).
  { assert (H : option_map dr_ret (Some r) = Some 16)
      by (rewrite <- E; vm_compute; reflexivity).
    cbn [option_map] in H. congruence. }
  exists r. split; [reflexivity|]. split; [exact Hret|].
  split.
  - apply (Decompress_capacity_is_a_limit _ _ _ 20 16 r E); lia.
  - apply (Decompress_capacity_is_a_limit _ _ _ 20 15 r E); lia.
Defined.

(** ** The decompressor at the edges *)

(** X11.  The empty stream decodes to no bytes and leaves the output buffer
    alone; a stream of one byte or more never decodes to no bytes: it gives -1
    or at least one byte, and -1 when the capacity is 0. *)
Theorem Decompress_edge_cases (inb : mem) (in_len : Z) (out : mem)
  (out_len : Z) :
  (in_len = 0 -> Decompress inb in_len out out_len = Some (mkDR 0 out 0 0)) /\
  (1 <= in_len -> 0 <= out_len ->
   exists r, Decompress inb in_len out out_len = Some r /\
             (dr_ret r = -1 \/ 1 <= dr_ret r <= out_len)).
Proof.
  split.
  - intros ->. reflexivity.
  - intros Hin Hout. unfold Decompress.
    destruct (dec_loop_spec inb in_len out_len (in_len + 7) (out_len + 7)
                ltac:(lia) ltac:(lia) (Z.to_nat in_len) (mkD 0 0 out 0 0))
      as (r & Hr & Hret & _); cbn [d_ip d_op d_rd d_wr]; try lia.
    exists r. split; [exact Hr|].
    pose proof (dec_loop_ret_gt inb in_len out_len (Z.to_nat in_len)
                  (mkD 0 0 out 0 0) r ltac:(cbn [d_ip]; lia) Hr) as Hgt.
    cbn [d_op] in *. lia.
Qed.

(** ** The compressors: further invariants of the main loops *)

(** The rule of lines 142-143 (and 253-254): a match of the minimum length
    is not taken after 135 or more pending literals. *)
Lemma snoc_neq {A} (l : list A) (x : A) : l ++ [x] <> l.
Proof.
  intros H. apply (f_equal (@length A)) in H.
  rewrite length_app in H. cbn [length] in H. lia.
Qed.

Lemma fast_step_rule rhs_first inb in_len st b :
  c_log (fast_step rhs_first inb in_len st) = c_log st ++ [b] ->
  br_pos b = c_p st /\
  (br_len b = MIN_MATCH -> c_p st - c_anchor st < 7 + 128).
Proof.
  unfold fast_step.
  destruct (fast_find inb in_len (HashTable (c_tab st)) (c_p st)) as [[bl0 dist] HT1].
  destruct ((bl0 =? MIN_MATCH) && (c_p st - c_anchor st >=? 7 + 128)) eqn:Ec.
  - change (0 >=? MIN_MATCH) with false. cbv iota. cbn [c_log].
    intros H. symmetry in H. apply snoc_neq in H. contradiction.
  - destruct (bl0 >=? MIN_MATCH).
    + destruct (emit_match inb (c_out st) (c_op st) (c_anchor st) (c_p st) dist bl0).
      cbn [c_log]. intros H. apply app_inv_head in H. injection H as <-.
      cbn [br_pos br_len]. split; [reflexivity|].
      intros Hb. apply andb_false_iff in Ec. destruct Ec as [Ec|Ec]; lia.
    + cbn [c_log]. intros H. symmetry in H. apply snoc_neq in H. contradiction.
Qed.

Lemma normal_step_rule level max_chain inb in_len st b :
  c_log (normal_step level max_chain inb in_len st) = c_log st ++ [b] ->
  br_pos b = c_p st /\
  (br_len b = MIN_MATCH -> c_p st - c_anchor st < 7 + 128).
Proof.
  unfold normal_step.
  destruct (if in_len - c_p st >=? MIN_MATCH
            then chain_walk (Z.to_nat max_chain) inb (Prev (c_tab st)) (c_p st)
                   (in_len - c_p st) (Max (c_p st - WINDOW_SIZE) NIL)
                   (HashTable (c_tab st) (Hash32 inb (c_p st))) 0 0
            else (0, 0)) as [bl0 dist].
  set (bl1 := if (bl0 =? MIN_MATCH) && (c_p st - c_anchor st >=? 7 + 128)
              then 0 else bl0).
  assert (Hbl1 : bl1 = MIN_MATCH -> c_p st - c_anchor st < 7 + 128).
  { subst bl1. unfold MIN_MATCH.
    destruct ((bl0 =? 4) && (c_p st - c_anchor st >=? 7 + 128)) eqn:Ec; [lia|].
    intros Hb. apply andb_false_iff in Ec. destruct Ec as [Ec|Ec]; lia. }
  set (best_len :=
         if (level >=? 5) && (bl1 >=? MIN_MATCH) && (bl1 <? in_len - c_p st)
            && negb (c_p st - c_anchor st =? 6)
         then
           if lazy_walk (Z.to_nat max_chain) inb (Prev (c_tab st)) (c_p st + 1)
                (bl1 + 1) bl1 (Max (c_p st + 1 - WINDOW_SIZE) NIL)
                (HashTable (c_tab st) (Hash32 inb (c_p st + 1)))
           then 0 else bl1
         else bl1).
  assert (Hbest : best_len = MIN_MATCH -> c_p st - c_anchor st < 7 + 128).
  { subst best_len. unfold MIN_MATCH in *.
    repeat match goal with
           | |- context [if ?c then _ else _] => destruct c
           end; lia. }
  destruct (best_len >=? MIN_MATCH).
  - destruct (emit_match inb (c_out st) (c_op st) (c_anchor st) (c_p st) dist best_len).
    cbn [c_log]. intros H. apply app_inv_head in H. injection H as <-.
    cbn [br_pos br_len]. split; [reflexivity | exact Hbest].
  - cbn [c_log]. intros H. symmetry in H. apply snoc_neq in H. contradiction.
Qed.

(** A property kept by every round, skip or emission, holds when the loop
    is left. *)
Section Keeps.

Variable inb : mem.
Variable in_len : Z.
Variable J : cstate -> Prop.

Hypothesis J_skip :
  forall st st',
    enc_inv st -> c_p st < in_len -> J st ->
    c_p st' = c_p st + 1 -> c_anchor st' = c_anchor st ->
    c_op st' = c_op st -> c_out st' = c_out st -> c_log st' = c_log st ->
    J st'.

Hypothesis J_emit :
  forall st st' dist best_len,
    enc_inv st -> c_p st < in_len -> J st ->
    valid_match inb (c_p st) (in_len - c_p st) dist best_len ->
    (best_len = MIN_MATCH -> c_p st - c_anchor st < 7 + 128) ->
    c_p st' = c_p st + best_len -> c_anchor st' = c_p st + best_len ->
    c_out st' = fst (emit_match inb (c_out st) (c_op st) (c_anchor st) (c_p st)
                       dist best_len) ->
    c_op st' = snd (emit_match inb (c_out st) (c_op st) (c_anchor st) (c_p st)
                      dist best_len) ->
    c_log st' = c_log st ++ [mkBackref (c_p st) dist best_len] ->
    J st'.

Lemma shape_keeps st st' :
  enc_inv st -> c_p st < in_len -> J st ->
  step_shape inb in_len st st' ->
  (forall b, c_log st' = c_log st ++ [b] ->
             br_len b = MIN_MATCH -> c_p st - c_anchor st < 7 + 128) ->
  J st'.
Proof.
  intros Hinv Hlt HJ Hshape Hrule.
  destruct Hshape as [Hp Han Hopq Hout Hl | dist best_len Hv Hp Han Hout Hopq Hl].
  - apply (J_skip st); assumption.
  - apply (J_emit st st' dist best_len); try assumption.
    apply (Hrule _ Hl).
Qed.

Lemma fast_loop_keeps rhs_first out prev :
  J (mkC 0 0 0 out (mkTables reset prev) []) ->
  exists st,
    enc_loop (fast_step rhs_first inb in_len) in_len (Z.to_nat in_len)
      (mkC 0 0 0 out (mkTables reset prev) []) = Some st /\
    enc_inv st /\ J st /\ in_len <= c_p st.
Proof.
  intros H0.
  destruct (enc_loop_inv (fast_step rhs_first inb in_len) in_len
              (fun st => enc_inv st /\ J st)) with
      (fuel := Z.to_nat in_len) (st := mkC 0 0 0 out (mkTables reset prev) [])
    as (st & Hst & [Hinv HJ] & Hp).
  - intros st [Hinv HJ] Hlt.
    pose proof Hinv as (Ha & _ & Hht & _).
    destruct (fast_step_shape rhs_first inb in_len st ltac:(lia) Hht)
      as (Hshape & Hht' & _).
    destruct (shape_enc_inv inb in_len st _ Hinv Hshape Hht') as [H1 H2].
    split; [split; [exact H1|] | exact H2].
    apply (shape_keeps st); try assumption.
    intros b Hb. apply (fast_step_rule rhs_first inb in_len st b Hb).
  - split; [apply enc_inv_init | exact H0].
  - cbn [c_p]. lia.
  - exists st. split; [exact Hst|]. split; [exact Hinv|]. split; [exact HJ | exact Hp].
Qed.

Lemma normal_loop_keeps level max_chain out prev :
  J (mkC 0 0 0 out (mkTables reset prev) []) ->
  exists st,
    enc_loop (normal_step level max_chain inb in_len) in_len (Z.to_nat in_len)
      (mkC 0 0 0 out (mkTables reset prev) []) = Some st /\
    enc_inv st /\ J st /\ in_len <= c_p st.
Proof.
  intros H0.
  destruct (enc_loop_inv (normal_step level max_chain inb in_len) in_len
              (fun st => (enc_inv st /\ prev_ok (c_p st) (Prev (c_tab st))) /\ J st))
    with (fuel := Z.to_nat in_len) (st := mkC 0 0 0 out (mkTables reset prev) [])
    as (st & Hst & [[Hinv _] HJ] & Hp).
  - intros st [[Hinv Hprev] HJ] Hlt.
    pose proof Hinv as (Ha & _ & Hht & _).
    destruct (normal_step_shape level max_chain inb in_len st ltac:(lia) Hht Hprev)
      as (Hshape & Hht' & Hprev').
    destruct (shape_enc_inv inb in_len st _ Hinv Hshape Hht') as [H1 H2].
    split; [split; [split; assumption|] | exact H2].
    apply (shape_keeps st); try assumption.
    intros b Hb. apply (normal_step_rule level max_chain inb in_len st b Hb).
  - split; [|exact H0]. cbn [c_p c_tab Prev]. apply enc_inv_init.
  - cbn [c_p]. lia.
  - exists st. split; [exact Hst|]. split; [exact Hinv|]. split; [exact HJ | exact Hp].
Qed.

End Keeps.

(** ** The size of what the compressors write *)

Lemma put_literals_snd inb out op anchor run t :
  snd (put_literals inb out op anchor run t) = op + 1 + ext_size run 7 + run.
Proof.
  unfold put_literals, ext_size.
  destruct (run >=? 7).
  - pose proof (EncodeMod_snd (store out op (u8 (Z.shiftl 7 5 + t))) (op + 1)
                  (run - 7)) as H.
    destruct (EncodeMod _ (op + 1) (run - 7)) as [o1 p1]. cbn [snd] in *. lia.
  - cbn [snd]. lia.
Qed.

Lemma put_match_snd out op len dist :
  snd (put_match out op len dist) = op + ext_size len 15 + 2.
Proof.
  unfold put_match, ext_size.
  destruct (len >=? 15).
  - pose proof (EncodeMod_snd out op (len - 15)) as H.
    destruct (EncodeMod out op (len - 15)) as [o1 p1]. cbn [snd] in *. lia.
  - cbn [snd]. lia.
Qed.

Lemma ext_size_0 base : 0 < base -> ext_size 0 base = 0.
Proof. intros H. unfold ext_size. test_is (0 >=? base) false. reflexivity. Qed.

(** A token with its back-reference takes the token byte, the literals with
    their extension, the length extension and two distance bytes. *)
Lemma emit_match_snd inb out op anchor p dist best_len :
  snd (emit_match inb out op anchor p dist best_len)
  = op + 1 + ext_size (p - anchor) 7 + (p - anchor)
    + ext_size (best_len - MIN_MATCH) 15 + 2.
Proof.
  unfold emit_match.
  destruct (anchor =? p) eqn:E; cbn [negb].
  - apply Z.eqb_eq in E. rewrite put_match_snd.
    replace (p - anchor) with 0 by lia. rewrite ext_size_0 by lia. lia.
  - pose proof (put_literals_snd inb out op anchor (p - anchor)
                  (Z.land (Z.shiftr dist 12) 16 + Min (best_len - MIN_MATCH) 15)) as H.
    destruct (put_literals inb out op anchor (p - anchor) _) as [o1 p1].
    cbn [snd] in H. rewrite put_match_snd. lia.
Qed.

Lemma emit_last_snd inb out op anchor p :
  snd (emit_last inb out op anchor p)
  = if anchor =? p then op else op + 1 + ext_size (p - anchor) 7 + (p - anchor).
Proof.
  unfold emit_last. destruct (anchor =? p); cbn [negb]; [reflexivity|].
  apply put_literals_snd.
Qed.

(** A token never takes more than the input it stands for, but for one byte
    per 16519 literals. *)
Lemma token_excess run best_len :
  0 <= run < 2 ^ 31 -> MIN_MATCH <= best_len < 2 ^ 31 ->
  (best_len = MIN_MATCH -> run < 7 + 128) ->
  16519 * (3 + ext_size run 7 + ext_size (best_len - MIN_MATCH) 15 - best_len) <= run.
Proof.
  unfold MIN_MATCH, ext_size. intros Hr Hb Hrule.
  destruct (run >=? 7) eqn:E7; destruct (best_len - 4 >=? 15) eqn:E15;
    rewrite ?u32_small by lia; unfold ModSize;
    repeat match goal with |- context [if ?c then _ else _] => destruct c eqn:? end;
    lia.
Qed.

Lemma last_excess run :
  0 <= run < 2 ^ 31 ->
  16519 * (1 + ext_size run 7 - 3) <= run.
Proof.
  unfold ext_size. intros Hr.
  destruct (run >=? 7) eqn:E7;
    rewrite ?u32_small by lia; unfold ModSize;
    repeat match goal with |- context [if ?c then _ else _] => destruct c eqn:? end;
    lia.
Qed.

Section SizeBound.

Variable inb : mem.
Variable in_len : Z.
Hypothesis Hlen : 0 <= in_len < 2 ^ 31.

(** So far the output exceeds the input passed by at most one byte per
    16519. *)

Lemma within_budget_skip st st' :
  enc_inv st -> c_p st < in_len -> within_budget in_len st ->
  c_p st' = c_p st + 1 -> c_anchor st' = c_anchor st ->
  c_op st' = c_op st -> c_out st' = c_out st -> c_log st' = c_log st ->
  within_budget in_len st'.
Proof.
  intros _ Hlt [H1 H2] Hp Han Hop _ _. unfold within_budget.
  rewrite Hp, Han, Hop. split; lia.
Qed.

Lemma within_budget_emit st st' dist best_len :
  enc_inv st -> c_p st < in_len -> within_budget in_len st ->
  valid_match inb (c_p st) (in_len - c_p st) dist best_len ->
  (best_len = MIN_MATCH -> c_p st - c_anchor st < 7 + 128) ->
  c_p st' = c_p st + best_len -> c_anchor st' = c_p st + best_len ->
  c_out st' = fst (emit_match inb (c_out st) (c_op st) (c_anchor st) (c_p st)
                     dist best_len) ->
  c_op st' = snd (emit_match inb (c_out st) (c_op st) (c_anchor st) (c_p st)
                    dist best_len) ->
  c_log st' = c_log st ++ [mkBackref (c_p st) dist best_len] ->
  within_budget in_len st'.
Proof.
  intros (Ha & _) Hlt [H1 H2] (Hbl & _) Hrule Hp Han _ Hop _.
  unfold within_budget. rewrite Hp, Han, Hop, emit_match_snd.
  pose proof (token_excess (c_p st - c_anchor st) best_len ltac:(lia) ltac:(lia) Hrule).
  unfold MIN_MATCH in *. split; lia.
Qed.

Lemma finish_within_budget st :
  enc_inv st -> within_budget in_len st -> in_len <= c_p st ->
  r_ret (finish inb st) <= in_len + in_len / 16519 + 3.
Proof.
  intros (Ha & _) [H1 H2] Hp. unfold finish.
  pose proof (emit_last_snd inb (c_out st) (c_op st) (c_anchor st) (c_p st)) as Hs.
  destruct (emit_last inb (c_out st) (c_op st) (c_anchor st) (c_p st)) as [o1 p1].
  cbn [snd r_ret] in *.
  assert (Hp' : c_p st = in_len) by lia.
  assert (Hq : 16519 * (p1 - in_len - 3) <= in_len).
  { destruct (c_anchor st =? c_p st) eqn:E.
    - lia.
    - pose proof (last_excess (c_p st - c_anchor st) ltac:(lia)). lia. }
  pose proof (Z.div_le_lower_bound in_len 16519 (p1 - in_len - 3) ltac:(lia) Hq).
  lia.
Qed.

End SizeBound.

(** X12.  The compressed stream is never longer than the input plus one byte
    per 16519 input bytes plus three: matches never cost more than they cover
    but for the extension of a long literal run, and a stream of literals
    costs its header. *)
Theorem compressed_size_bound (rhs_first : bool) (tab : tables) (inb : mem)
  (in_len : Z) (out : mem) (level : Z) :
  0 <= in_len < 2 ^ 31 -> 1 <= level <= 9 ->
  (exists r, CompressFast rhs_first tab inb in_len out = Some r /\
             r_ret r <= in_len + in_len / 16519 + 3) /\
  (exists r, Compress tab inb in_len out level = Some r /\
             r_ret r <= in_len + in_len / 16519 + 3).
Proof.
  intros Hlen Hlev.
  assert (H0 : within_budget in_len (mkC 0 0 0 out (mkTables reset (Prev tab)) [])).
  { unfold within_budget. cbn [c_p c_op c_anchor]. lia. }
  split.
  - unfold CompressFast.
    destruct (fast_loop_keeps inb in_len (within_budget in_len)
                (within_budget_skip in_len) (within_budget_emit inb in_len Hlen)
                rhs_first out (Prev tab) H0) as (st & Hst & Hinv & HJ & Hp).
    rewrite Hst. cbn [option_map]. eexists. split; [reflexivity|].
    apply finish_within_budget; assumption.
  - unfold Compress.
    test_is ((level <? 1) || (level >? 9)) false.
    destruct (normal_loop_keeps inb in_len (within_budget in_len)
                (within_budget_skip in_len) (within_budget_emit inb in_len Hlen)
                level (if level <? 9 then Z.shiftl 1 level else Z.shiftl 1 13)
                out (Prev tab) H0) as (st & Hst & Hinv & HJ & Hp).
    rewrite Hst. cbn [option_map]. eexists. split; [reflexivity|].
    apply finish_within_budget; assumption.
Qed.

(** The theorem at sixteen 'A's, level 5. *)
Lemma compressed_size_bound_witness :
  (exists r, CompressFast false (mkTables reset reset) (of_list (repeat 65 16)) 16
               (of_list []) = Some r /\
             r_ret r <= 16 + 16 / 16519 + 3) /\
  (exists r, Compress (mkTables reset reset) (of_list (repeat 65 16)) 16
               (of_list []) 5 = Some r /\
             r_ret r <= 16 + 16 / 16519 + 3).
Proof.
  apply (compressed_size_bound false (mkTables reset reset)
           (of_list (repeat 65 16)) 16 (of_list []) 5); lia.
Defined.

(** ** The returned length is an [int] *)

(** At [max_in_len] the bound on the stream is [INT_MAX]; one byte more of
    input and it is past it. *)
Lemma max_in_len_tight :
  max_in_len + max_in_len / 16519 + 3 = INT_MAX /\
  INT_MAX < (max_in_len + 1) + (max_in_len + 1) / 16519 + 3.
Proof. split; reflexivity. Qed.

(** Narrowing leaves what fits an [int] as it is. *)
Lemma to_int_small x : -2147483648 <= x <= 2147483647 -> to_int x = x.
Proof.
  intros Hx. unfold to_int.
  rewrite Z.mod_small by lia. lia.
Qed.

Lemma fits_int in_len x :
  0 <= in_len <= max_in_len ->
  x <= in_len + in_len / 16519 + 3 -> x <= INT_MAX.
Proof.
  unfold max_in_len, INT_MAX. intros Hlen Hx.
  pose proof (Z.div_le_mono in_len 2147353652 16519 ltac:(lia) ltac:(lia)) as Hd.
  change (2147353652 / 16519) with 129992 in Hd. lia.
Qed.

(** On an input of at most [max_in_len] bytes the length of the stream is
    the [int] that lines 199 and 348 return. *)
Lemma CompressFast_fits rhs_first tab inb in_len out r :
  0 <= in_len <= max_in_len ->
  CompressFast rhs_first tab inb in_len out = Some r ->
  0 <= r_ret r <= INT_MAX.
Proof.
  intros Hlen Hr.
  assert (Hlen' : 0 <= in_len < 2 ^ 31) by (unfold max_in_len in Hlen; lia).
  assert (H0 : within_budget in_len (mkC 0 0 0 out (mkTables reset (Prev tab)) [])).
  { unfold within_budget. cbn [c_p c_op c_anchor]. lia. }
  unfold CompressFast in Hr.
  destruct (fast_loop_keeps inb in_len (within_budget in_len)
              (within_budget_skip in_len) (within_budget_emit inb in_len Hlen')
              rhs_first out (Prev tab) H0) as (st & Hst & Hinv & HJ & Hp).
  rewrite Hst in Hr. cbn [option_map] in Hr. injection Hr as <-.
  split.
  - apply (finish_ret inb st Hinv).
  - apply (fits_int in_len); [exact Hlen|].
    apply finish_within_budget; assumption.
Qed.

Lemma Compress_fits tab inb in_len out level r :
  0 <= in_len <= max_in_len ->
  Compress tab inb in_len out level = Some r ->
  -1 <= r_ret r <= INT_MAX /\ (1 <= level <= 9 -> 0 <= r_ret r).
Proof.
  intros Hlen Hr.
  assert (Hlen' : 0 <= in_len < 2 ^ 31) by (unfold max_in_len in Hlen; lia).
  assert (H0 : within_budget in_len (mkC 0 0 0 out (mkTables reset (Prev tab)) [])).
  { unfold within_budget. cbn [c_p c_op c_anchor]. lia. }
  unfold Compress in Hr.
  destruct ((level <? 1) || (level >? 9)) eqn:E.
  - injection Hr as <-. cbn [r_ret]. unfold INT_MAX.
    apply orb_true_iff in E. lia.
  - destruct (normal_loop_keeps inb in_len (within_budget in_len)
                (within_budget_skip in_len) (within_budget_emit inb in_len Hlen')
                level (if level <? 9 then Z.shiftl 1 level else Z.shiftl 1 13)
                out (Prev tab) H0) as (st & Hst & Hinv & HJ & Hp).
    rewrite Hst in Hr. cbn [option_map] in Hr. injection Hr as <-.
    destruct (finish_ret inb st Hinv) as [Hret _].
    assert (Hup : r_ret (finish inb st) <= INT_MAX).
    { apply (fits_int in_len); [exact Hlen|].
      apply finish_within_budget; assumption. }
    split; [lia|]. intros _. exact Hret.
Qed.


(** ** Where the compressors write *)

Lemma put_literals_frame inb out op anchor run t a :
  1 <= run ->
  a < op \/ snd (put_literals inb out op anchor run t) + 7 <= a ->
  fst (put_literals inb out op anchor run t) a = out a.
Proof.
  intros Hrun. rewrite put_literals_snd. unfold put_literals, ext_size.
  pose proof (chunks_bounds run Hrun) as Hch.
  destruct (run >=? 7).
  - pose proof (EncodeMod_snd (store out op (u8 (Z.shiftl 7 5 + t))) (op + 1)
                  (run - 7)) as Hs.
    pose proof (EncodeMod_frame (store out op (u8 (Z.shiftl 7 5 + t))) (op + 1)
                  (run - 7) a) as Hf.
    pose proof (ModSize_range (u32 (run - 7))) as Hm.
    destruct (EncodeMod _ (op + 1) (run - 7)) as [o1 p1]. cbn [fst snd] in *.
    intros Ha. rewrite WildCopy_frame by lia. rewrite Hf by lia.
    apply store_neq. lia.
  - cbn [fst]. intros Ha. rewrite WildCopy_frame by lia. apply store_neq. lia.
Qed.

Lemma put_match_frame out op len dist a :
  a < op \/ snd (put_match out op len dist) <= a ->
  fst (put_match out op len dist) a = out a.
Proof.
  rewrite put_match_snd. unfold put_match, ext_size.
  destruct (len >=? 15).
  - pose proof (EncodeMod_snd out op (len - 15)) as Hs.
    pose proof (EncodeMod_frame out op (len - 15) a) as Hf.
    pose proof (ModSize_range (u32 (len - 15))) as Hm.
    destruct (EncodeMod out op (len - 15)) as [o1 p1]. cbn [fst snd] in *.
    intros Ha. rewrite UnalignedStore16_frame by lia. apply Hf. lia.
  - cbn [fst]. intros Ha. apply UnalignedStore16_frame; lia.
Qed.

Lemma ext_size_range x base : 0 <= ext_size x base <= 5.
Proof.
  unfold ext_size. pose proof (ModSize_range (u32 (x - base))).
  destruct (x >=? base); lia.
Qed.

(** A token is written from [op] on, and the wide copy of its literals
    stays within five bytes past its end. *)
Lemma emit_match_frame inb out op anchor p dist best_len a :
  anchor <= p ->
  a < op \/ snd (emit_match inb out op anchor p dist best_len) + 5 <= a ->
  fst (emit_match inb out op anchor p dist best_len) a = out a.
Proof.
  intros Hap. rewrite emit_match_snd. unfold emit_match.
  pose proof (ext_size_range (p - anchor) 7) as H7.
  pose proof (ext_size_range (best_len - MIN_MATCH) 15) as H15.
  destruct (anchor =? p) eqn:E; cbn [negb].
  - apply Z.eqb_eq in E. intros Ha.
    pose proof (put_match_snd
                  (store out op (u8 (Z.land (Z.shiftr dist 12) 16
                                     + Min (best_len - MIN_MATCH) 15)))
                  (op + 1) (best_len - MIN_MATCH) dist) as Hs.
    rewrite put_match_frame by lia. apply store_neq. lia.
  - apply Z.eqb_neq in E.
    pose proof (put_literals_snd inb out op anchor (p - anchor)
                  (Z.land (Z.shiftr dist 12) 16 + Min (best_len - MIN_MATCH) 15)) as Hs.
    pose proof (put_literals_frame inb out op anchor (p - anchor)
                  (Z.land (Z.shiftr dist 12) 16 + Min (best_len - MIN_MATCH) 15) a
                  ltac:(lia)) as Hf.
    destruct (put_literals inb out op anchor (p - anchor) _) as [o1 p1].
    cbn [fst snd] in *. intros Ha.
    pose proof (put_match_snd o1 p1 (best_len - MIN_MATCH) dist) as Hs2.
    rewrite put_match_frame by lia. apply Hf. lia.
Qed.

Lemma emit_last_frame inb out op anchor p a :
  anchor <= p ->
  a < op \/ snd (emit_last inb out op anchor p) + 7 <= a ->
  fst (emit_last inb out op anchor p) a = out a.
Proof.
  intros Hap. unfold emit_last.
  destruct (anchor =? p) eqn:E; cbn [negb]; [reflexivity|].
  apply Z.eqb_neq in E. apply put_literals_frame. lia.
Qed.

Section WriteFootprint.

Variable inb : mem.
Variable in_len : Z.
Variable out0 : mem.

Lemma untouched_skip st st' :
  enc_inv st -> c_p st < in_len -> untouched out0 st ->
  c_p st' = c_p st + 1 -> c_anchor st' = c_anchor st ->
  c_op st' = c_op st -> c_out st' = c_out st -> c_log st' = c_log st ->
  untouched out0 st'.
Proof.
  intros _ _ HJ _ _ Hop Hout _ a Ha. rewrite Hout. apply HJ. lia.
Qed.

Lemma untouched_emit st st' dist best_len :
  enc_inv st -> c_p st < in_len -> untouched out0 st ->
  valid_match inb (c_p st) (in_len - c_p st) dist best_len ->
  (best_len = MIN_MATCH -> c_p st - c_anchor st < 7 + 128) ->
  c_p st' = c_p st + best_len -> c_anchor st' = c_p st + best_len ->
  c_out st' = fst (emit_match inb (c_out st) (c_op st) (c_anchor st) (c_p st)
                     dist best_len) ->
  c_op st' = snd (emit_match inb (c_out st) (c_op st) (c_anchor st) (c_p st)
                    dist best_len) ->
  c_log st' = c_log st ++ [mkBackref (c_p st) dist best_len] ->
  untouched out0 st'.
Proof.
  intros (Ha & Hop0 & _) _ HJ _ _ _ _ Hout Hop _ a Hcell.
  pose proof (emit_match_advance inb (c_out st) (c_op st) (c_anchor st) (c_p st)
                dist best_len ltac:(lia)) as Hadv.
  rewrite Hout. rewrite Hop in Hcell.
  rewrite emit_match_frame by lia. apply HJ. lia.
Qed.

Lemma finish_untouched st :
  enc_inv st -> untouched out0 st ->
  forall a, a < 0 \/ r_ret (finish inb st) + 7 <= a ->
            r_out (finish inb st) a = out0 a.
Proof.
  intros (Ha & Hop0 & _) HJ a Hcell. unfold finish in *.
  pose proof (emit_last_advance inb (c_out st) (c_op st) (c_anchor st) (c_p st)
                ltac:(lia)) as Hadv.
  pose proof (emit_last_frame inb (c_out st) (c_op st) (c_anchor st) (c_p st) a
                ltac:(lia)) as Hf.
  destruct (emit_last inb (c_out st) (c_op st) (c_anchor st) (c_p st)) as [o1 p1].
  cbn [fst snd r_ret r_out] in *.
  rewrite Hf by lia. apply HJ. lia.
Qed.

End WriteFootprint.

(** X13.  On an input of at most [max_in_len] bytes the length returned
    fits an [int], and the compressors write the stream and at most seven
    bytes more: no cell of the output buffer before its start or from seven
    past the returned length on is changed. *)
Theorem compress_write_footprint (rhs_first : bool) (tab : tables) (inb : mem)
  (in_len : Z) (out : mem) (level : Z) :
  0 <= in_len <= max_in_len ->
  (exists r, CompressFast rhs_first tab inb in_len out = Some r /\
             0 <= r_ret r <= INT_MAX /\
             forall a, a < 0 \/ r_ret r + 7 <= a -> r_out r a = out a) /\
  (exists r, Compress tab inb in_len out level = Some r /\
             -1 <= r_ret r <= INT_MAX /\
             forall a, a < 0 \/ r_ret r + 7 <= a -> r_out r a = out a).
Proof.
  intros Hlen.
  assert (H0 : untouched out (mkC 0 0 0 out (mkTables reset (Prev tab)) [])).
  { intros a _. reflexivity. }
  split.
  - destruct (fast_loop_keeps inb in_len (untouched out)
                (untouched_skip in_len out) (untouched_emit inb in_len out)
                rhs_first out (Prev tab) H0) as (st & Hst & Hinv & HJ & Hp).
    assert (Hr : CompressFast rhs_first tab inb in_len out = Some (finish inb st)).
    { unfold CompressFast. rewrite Hst. reflexivity. }
    exists (finish inb st). split; [exact Hr|]. split.
    + apply (CompressFast_fits rhs_first tab inb in_len out _ Hlen Hr).
    + apply finish_untouched; assumption.
  - destruct ((level <? 1) || (level >? 9)) eqn:E.
    + exists (mkR (-1) out tab []). split.
      * unfold Compress. rewrite E. reflexivity.
      * cbn [r_ret r_out]. unfold INT_MAX. split; [lia|]. intros a _. reflexivity.
    + destruct (normal_loop_keeps inb in_len (untouched out)
                  (untouched_skip in_len out) (untouched_emit inb in_len out)
                  level (if level <? 9 then Z.shiftl 1 level else Z.shiftl 1 13)
                  out (Prev tab) H0) as (st & Hst & Hinv & HJ & Hp).
      assert (Hr : Compress tab inb in_len out level = Some (finish inb st)).
      { unfold Compress. rewrite E, Hst. reflexivity. }
      exists (finish inb st). split; [exact Hr|]. split.
      * apply (Compress_fits tab inb in_len out level _ Hlen Hr).
      * apply finish_untouched; assumption.
Qed.

(** The theorem at sixteen 'A's, level 5. *)
Lemma compress_write_footprint_witness :
  (exists r, CompressFast false (mkTables reset reset) (of_list (repeat 65 16)) 16
               (of_list []) = Some r /\
             0 <= r_ret r <= INT_MAX /\
             forall a, a < 0 \/ r_ret r + 7 <= a -> r_out r a = of_list [] a) /\
  (exists r, Compress (mkTables reset reset) (of_list (repeat 65 16)) 16
               (of_list []) 5 = Some r /\
             -1 <= r_ret r <= INT_MAX /\
             forall a, a < 0 \/ r_ret r + 7 <= a -> r_out r a = of_list [] a).
Proof.
  apply (compress_write_footprint false (mkTables reset reset)
           (of_list (repeat 65 16)) 16 (of_list []) 5).
  unfold max_in_len. lia.
Defined.

(** ** The back-references are repeats of the input, in order *)

Lemma in_order_snoc b hi : forall log lo,
  in_order lo log ->
  Forall (fun b' => br_pos b' + br_len b' <= hi) log ->
  lo <= hi -> hi <= br_pos b ->
  in_order lo (log ++ [b]).
Proof.
  induction log as [|b' l IH]; intros lo Hord Hall Hlo Hhi; cbn [app in_order].
  - split; [lia | exact I].
  - cbn [in_order] in Hord. destruct Hord as [H1 H2].
    inversion Hall as [|? ? Hb' Hl]; subst.
    split; [exact H1|]. apply IH; [exact H2 | exact Hl | exact Hb' | exact Hhi].
Qed.

Section TidyLog.

Variable inb : mem.
Variable in_len : Z.
Hypothesis Hbytes : bytes_ok inb.

Lemma tidy_log_skip st st' :
  enc_inv st -> c_p st < in_len -> tidy_log inb in_len st ->
  c_p st' = c_p st + 1 -> c_anchor st' = c_anchor st ->
  c_op st' = c_op st -> c_out st' = c_out st -> c_log st' = c_log st ->
  tidy_log inb in_len st'.
Proof.
  intros _ _ HJ _ Han _ _ Hl. unfold tidy_log. rewrite Hl, Han. exact HJ.
Qed.

Lemma tidy_log_emit st st' dist best_len :
  enc_inv st -> c_p st < in_len -> tidy_log inb in_len st ->
  valid_match inb (c_p st) (in_len - c_p st) dist best_len ->
  (best_len = MIN_MATCH -> c_p st - c_anchor st < 7 + 128) ->
  c_p st' = c_p st + best_len -> c_anchor st' = c_p st + best_len ->
  c_out st' = fst (emit_match inb (c_out st) (c_op st) (c_anchor st) (c_p st)
                     dist best_len) ->
  c_op st' = snd (emit_match inb (c_out st) (c_op st) (c_anchor st) (c_p st)
                    dist best_len) ->
  c_log st' = c_log st ++ [mkBackref (c_p st) dist best_len] ->
  tidy_log inb in_len st'.
Proof.
  intros (Ha & _) _ (Hgen & Hord & Hpast) (Hlen & _ & _ & Hrep) _ _ Han _ _ Hl.
  unfold tidy_log. rewrite Hl, Han. unfold MIN_MATCH in Hlen.
  split; [|split].
  - apply Forall_app. split; [exact Hgen|].
    constructor; [|constructor].
    unfold genuine. cbn [br_pos br_dist br_len]. unfold MIN_MATCH.
    split; [lia|]. split; [lia|]. apply Hrep. exact Hbytes.
  - apply (in_order_snoc _ (c_anchor st)); cbn [br_pos]; try assumption; lia.
  - apply Forall_app. split.
    + eapply Forall_impl; [|exact Hpast]. cbn beta. intros b Hb. lia.
    + constructor; [|constructor]. cbn [br_pos br_len]. lia.
Qed.

End TidyLog.

(** X14.  Every back-reference the compressors emit is a repeat of the input:
    at least four bytes long, ending inside the input, each byte equal to the
    byte [dist] before it; and the back-references come in the order of the
    input, none starting before the one before it ends. *)
Theorem backrefs_are_repeats (rhs_first : bool) (tab : tables) (inb : mem)
  (in_len : Z) (out : mem) (level : Z) :
  bytes_ok inb ->
  (exists r, CompressFast rhs_first tab inb in_len out = Some r /\
             Forall (genuine inb in_len) (r_log r) /\ in_order 0 (r_log r)) /\
  (exists r, Compress tab inb in_len out level = Some r /\
             Forall (genuine inb in_len) (r_log r) /\ in_order 0 (r_log r)).
Proof.
  intros Hbytes.
  assert (H0 : tidy_log inb in_len (mkC 0 0 0 out (mkTables reset (Prev tab)) [])).
  { unfold tidy_log. cbn [c_log c_anchor in_order]. repeat split; constructor. }
  split.
  - unfold CompressFast.
    destruct (fast_loop_keeps inb in_len (tidy_log inb in_len)
                (tidy_log_skip inb in_len) (tidy_log_emit inb in_len Hbytes)
                rhs_first out (Prev tab) H0) as (st & Hst & Hinv & HJ & Hp).
    rewrite Hst. cbn [option_map]. eexists. split; [reflexivity|].
    destruct (finish_ret inb st Hinv) as [_ Hlog]. rewrite Hlog.
    destruct HJ as (H1 & H2 & _). split; assumption.
  - unfold Compress.
    destruct ((level <? 1) || (level >? 9)).
    + eexists. split; [reflexivity|]. cbn [r_log in_order]. split; constructor.
    + destruct (normal_loop_keeps inb in_len (tidy_log inb in_len)
                  (tidy_log_skip inb in_len) (tidy_log_emit inb in_len Hbytes)
                  level (if level <? 9 then Z.shiftl 1 level else Z.shiftl 1 13)
                  out (Prev tab) H0) as (st & Hst & Hinv & HJ & Hp).
      rewrite Hst. cbn [option_map]. eexists. split; [reflexivity|].
      destruct (finish_ret inb st Hinv) as [_ Hlog]. rewrite Hlog.
      destruct HJ as (H1 & H2 & _). split; assumption.
Qed.

(** The theorem at sixteen 'A's, level 5. *)
Lemma backrefs_are_repeats_witness :
  (exists r, CompressFast false (mkTables reset reset) (of_list (repeat 65 16)) 16
               (of_list []) = Some r /\
             Forall (genuine (of_list (repeat 65 16)) 16) (r_log r) /\
             in_order 0 (r_log r)) /\
  (exists r, Compress (mkTables reset reset) (of_list (repeat 65 16)) 16
               (of_list []) 5 = Some r /\
             Forall (genuine (of_list (repeat 65 16)) 16) (r_log r) /\
             in_order 0 (r_log r)).
Proof.
  apply (backrefs_are_repeats false (mkTables reset reset)
           (of_list (repeat 65 16)) 16 (of_list []) 5).
  apply of_list_bytes_ok. reflexivity.
Defined.

(** ** The length of the stream, from its back-references *)

Lemma log_end_snoc b : forall log lo,
  log_end lo (log ++ [b]) = br_pos b + br_len b.
Proof.
  induction log as [|b' l IH]; intros lo; cbn [app log_end]; [reflexivity | apply IH].
Qed.

Lemma tokens_size_snoc b : forall log lo,
  tokens_size lo (log ++ [b])
  = tokens_size lo log
    + (1 + ext_size (br_pos b - log_end lo log) 7 + (br_pos b - log_end lo log)
       + ext_size (br_len b - MIN_MATCH) 15 + 2).
Proof.
  induction log as [|b' l IH]; intros lo; cbn [app tokens_size log_end].
  - lia.
  - rewrite IH. lia.
Qed.

Section Accounting.

Variable inb : mem.
Variable in_len : Z.

Lemma accounted_skip st st' :
  enc_inv st -> c_p st < in_len -> accounted in_len st ->
  c_p st' = c_p st + 1 -> c_anchor st' = c_anchor st ->
  c_op st' = c_op st -> c_out st' = c_out st -> c_log st' = c_log st ->
  accounted in_len st'.
Proof.
  intros _ Hlt (H1 & H2 & H3) Hp Han Hop _ Hl. unfold accounted.
  rewrite Hp, Han, Hop, Hl. split; [lia|]. split; assumption.
Qed.

Lemma accounted_emit st st' dist best_len :
  enc_inv st -> c_p st < in_len -> accounted in_len st ->
  valid_match inb (c_p st) (in_len - c_p st) dist best_len ->
  (best_len = MIN_MATCH -> c_p st - c_anchor st < 7 + 128) ->
  c_p st' = c_p st + best_len -> c_anchor st' = c_p st + best_len ->
  c_out st' = fst (emit_match inb (c_out st) (c_op st) (c_anchor st) (c_p st)
                     dist best_len) ->
  c_op st' = snd (emit_match inb (c_out st) (c_op st) (c_anchor st) (c_p st)
                    dist best_len) ->
  c_log st' = c_log st ++ [mkBackref (c_p st) dist best_len] ->
  accounted in_len st'.
Proof.
  intros _ _ (H1 & H2 & H3) (Hlen & _) _ Hp Han _ Hop Hl. unfold accounted.
  rewrite Hp, Han, Hop, Hl, emit_match_snd, tokens_size_snoc, log_end_snoc.
  cbn [br_pos br_len]. rewrite <- H2, <- H3.
  split; [lia|]. split; [lia | reflexivity].
Qed.

Lemma finish_accounted st :
  accounted in_len st -> in_len <= c_p st ->
  r_ret (finish inb st) = stream_size in_len (c_log st).
Proof.
  intros (H1 & H2 & H3) Hp. unfold finish, stream_size, tail_size.
  pose proof (emit_last_snd inb (c_out st) (c_op st) (c_anchor st) (c_p st)) as Hs.
  destruct (emit_last inb (c_out st) (c_op st) (c_anchor st) (c_p st)) as [o1 p1].
  cbn [snd r_ret] in *. rewrite Hs, <- H2, <- H3.
  replace (c_p st) with in_len by lia.
  destruct (c_anchor st =? in_len); lia.
Qed.

End Accounting.

(** X15.  On an input of at most [max_in_len] bytes, the length returned is
    what the tokens of the stream add up to: per back-reference the token
    byte, the literals before it with the extension of their count, the
    extension of the match length and two distance bytes; then the trailing
    literals with their header.  It fits an [int]. *)
Theorem stream_size_accounting (rhs_first : bool) (tab : tables) (inb : mem)
  (in_len : Z) (out : mem) (level : Z) :
  0 <= in_len <= max_in_len -> 1 <= level <= 9 ->
  (exists r, CompressFast rhs_first tab inb in_len out = Some r /\
             r_ret r = stream_size in_len (r_log r) /\
             0 <= r_ret r <= INT_MAX) /\
  (exists r, Compress tab inb in_len out level = Some r /\
             r_ret r = stream_size in_len (r_log r) /\
             0 <= r_ret r <= INT_MAX).
Proof.
  intros Hlen Hlev.
  assert (H0 : accounted in_len (mkC 0 0 0 out (mkTables reset (Prev tab)) [])).
  { unfold accounted. cbn [c_p c_op c_anchor c_log tokens_size log_end].
    split; [lia|]. split; reflexivity. }
  split.
  - destruct (fast_loop_keeps inb in_len (accounted in_len)
                (accounted_skip in_len) (accounted_emit inb in_len)
                rhs_first out (Prev tab) H0) as (st & Hst & Hinv & HJ & Hp).
    assert (Hr : CompressFast rhs_first tab inb in_len out = Some (finish inb st)).
    { unfold CompressFast. rewrite Hst. reflexivity. }
    exists (finish inb st). split; [exact Hr|]. split.
    + destruct (finish_ret inb st Hinv) as [_ Hlog]. rewrite Hlog.
      apply finish_accounted; assumption.
    + apply (CompressFast_fits rhs_first tab inb in_len out _ Hlen Hr).
  - assert (E : (level <? 1) || (level >? 9) = false).
    { apply orb_false_iff. lia. }
    destruct (normal_loop_keeps inb in_len (accounted in_len)
                (accounted_skip in_len) (accounted_emit inb in_len)
                level (if level <? 9 then Z.shiftl 1 level else Z.shiftl 1 13)
                out (Prev tab) H0) as (st & Hst & Hinv & HJ & Hp).
    assert (Hr : Compress tab inb in_len out level = Some (finish inb st)).
    { unfold Compress. rewrite E, Hst. reflexivity. }
    exists (finish inb st). split; [exact Hr|]. split.
    + destruct (finish_ret inb st Hinv) as [_ Hlog]. rewrite Hlog.
      apply finish_accounted; assumption.
    + destruct (Compress_fits tab inb in_len out level _ Hlen Hr) as [Hint Hpos].
      specialize (Hpos Hlev). lia.
Qed.

(** The theorem at sixteen 'A's, level 5. *)
Lemma stream_size_accounting_witness :
  (exists r, CompressFast false (mkTables reset reset) (of_list (repeat 65 16)) 16
               (of_list []) = Some r /\
             r_ret r = stream_size 16 (r_log r) /\
             0 <= r_ret r <= INT_MAX) /\
  (exists r, Compress (mkTables reset reset) (of_list (repeat 65 16)) 16
               (of_list []) 5 = Some r /\
             r_ret r = stream_size 16 (r_log r) /\
             0 <= r_ret r <= INT_MAX).
Proof.
  apply (stream_size_accounting false (mkTables reset reset)
           (of_list (repeat 65 16)) 16 (of_list []) 5).
  - unfold max_in_len. lia.
  - lia.
Defined.

(** ** A stream longer than an [int] holds *)

(** [ramp] over one group of three. *)
Lemma ramp_3 q :
  ramp (3 * q) = q mod 85 /\
  ramp (3 * q + 1) = 85 + (q / 85) mod 85 /\
  ramp (3 * q + 2) = 170 + (q / 7225) mod 85.
Proof.
  unfold ramp.
  assert (H0 : (3 * q) mod 3 = 0) by (Z.to_euclidean_division_equations; lia).
  assert (H1 : (3 * q + 1) mod 3 = 1) by (Z.to_euclidean_division_equations; lia).
  assert (H2 : (3 * q + 2) mod 3 = 2) by (Z.to_euclidean_division_equations; lia).
  assert (D0 : (3 * q) / 3 = q) by (Z.to_euclidean_division_equations; lia).
  assert (D1 : (3 * q + 1) / 3 = q) by (Z.to_euclidean_division_equations; lia).
  assert (D2 : (3 * q + 2) / 3 = q) by (Z.to_euclidean_division_equations; lia).
  rewrite H0, H1, H2, D0, D1, D2.
  change (85 ^ 0) with 1. change (85 ^ 1) with 85. change (85 ^ 2) with 7225.
  rewrite Z.div_1_r. repeat split; lia.
Qed.

Lemma ramp_range a : 0 <= ramp a < 255.
Proof.
  unfold ramp.
  pose proof (Z.mod_pos_bound a 3 ltac:(lia)).
  pose proof (Z.mod_pos_bound (a / 3 / 85 ^ (a mod 3)) 85 ltac:(lia)).
  lia.
Qed.

(** Three digits in base 85 give a number up to a multiple of 85^3. *)
Lemma digits_agree q q' :
  q mod 85 = q' mod 85 ->
  (q / 85) mod 85 = (q' / 85) mod 85 ->
  (q / 7225) mod 85 = (q' / 7225) mod 85 ->
  exists c, q' - q = 614125 * c.
Proof.
  intros H0 H1 H2.
  exists (q' / 614125 - q / 614125).
  Z.to_euclidean_division_equations; lia.
Qed.

(** No three bytes of [ramp] come back within 3 * 85^3 places. *)
Lemma ramp_no_repeat x y :
  0 <= x < y -> y - x < 1842375 ->
  ramp x = ramp y -> ramp (x + 1) = ramp (y + 1) -> ramp (x + 2) = ramp (y + 2) ->
  False.
Proof.
  intros Hxy Hd E0 E1 E2.
  pose proof (Z.div_mod x 3 ltac:(lia)) as Hx.
  pose proof (Z.mod_pos_bound x 3 ltac:(lia)) as Hrx.
  pose proof (Z.div_mod y 3 ltac:(lia)) as Hy.
  pose proof (Z.mod_pos_bound y 3 ltac:(lia)) as Hry.
  set (q := x / 3) in *. set (r := x mod 3) in *.
  set (q' := y / 3) in *. set (r' := y mod 3) in *.
  clearbody q r q' r'.
  destruct (ramp_3 q) as (A0 & A1 & A2).
  destruct (ramp_3 (q + 1)) as (B0 & B1 & B2).
  destruct (ramp_3 q') as (A0' & A1' & A2').
  destruct (ramp_3 (q' + 1)) as (B0' & B1' & B2').
  pose proof (Z.mod_pos_bound q 85 ltac:(lia)).
  pose proof (Z.mod_pos_bound (q / 85) 85 ltac:(lia)).
  pose proof (Z.mod_pos_bound (q / 7225) 85 ltac:(lia)).
  pose proof (Z.mod_pos_bound q' 85 ltac:(lia)).
  pose proof (Z.mod_pos_bound (q' / 85) 85 ltac:(lia)).
  pose proof (Z.mod_pos_bound (q' / 7225) 85 ltac:(lia)).
  assert (Hr : r = 0 \/ r = 1 \/ r = 2) by lia.
  assert (Hr' : r' = 0 \/ r' = 1 \/ r' = 2) by lia.
  assert (Same : r = r').
  { destruct Hr as [-> | [-> | ->]]; destruct Hr' as [-> | [-> | ->]]; try reflexivity;
      exfalso; subst x y;
      repeat match goal with
             | H : context [3 * ?a + 0] |- _ => replace (3 * a + 0) with (3 * a) in H by lia
             end;
      rewrite ?A0, ?A1, ?A2, ?A0', ?A1', ?A2' in E0; lia. }
  subst r'.
  assert (Hdig : exists c, q' - q = 614125 * c).
  { destruct Hr as [-> | [-> | ->]]; subst x y.
    - replace (3 * q + 0) with (3 * q) in * by lia.
      replace (3 * q' + 0) with (3 * q') in * by lia.
      rewrite A0, A0' in E0. rewrite A1, A1' in E1. rewrite A2, A2' in E2.
      apply digits_agree; lia.
    - replace (3 * q + 1 + 1) with (3 * q + 2) in * by lia.
      replace (3 * q' + 1 + 1) with (3 * q' + 2) in * by lia.
      replace (3 * q + 1 + 2) with (3 * (q + 1)) in * by lia.
      replace (3 * q' + 1 + 2) with (3 * (q' + 1)) in * by lia.
      rewrite A1, A1' in E0. rewrite A2, A2' in E1. rewrite B0, B0' in E2.
      apply digits_agree; [|lia|lia].
      clear - E2. Z.to_euclidean_division_equations; lia.
    - replace (3 * q + 2 + 1) with (3 * (q + 1)) in * by lia.
      replace (3 * q' + 2 + 1) with (3 * (q' + 1)) in * by lia.
      replace (3 * q + 2 + 2) with (3 * (q + 1) + 1) in * by lia.
      replace (3 * q' + 2 + 2) with (3 * (q' + 1) + 1) in * by lia.
      rewrite A2, A2' in E0. rewrite B0, B0' in E1. rewrite B1, B1' in E2.
      assert (E0' : (q / 7225) mod 85 = (q' / 7225) mod 85) by lia.
      assert (E2' : ((q + 1) / 85) mod 85 = ((q' + 1) / 85) mod 85) by lia.
      apply digits_agree; [| |exact E0'].
      + clear - E1. Z.to_euclidean_division_equations; lia.
      + clear - E1 E2'. Z.to_euclidean_division_equations; lia. }
  destruct Hdig as (c & Hc). lia.
Qed.

(** [long_input] holds bytes, and 255 at 4 to 7 only. *)
Lemma long_input_bytes : bytes_ok long_input.
Proof.
  intros a. unfold long_input.
  pose proof (ramp_range a). pose proof (ramp_range (a + 8)).
  destruct (a <? 4); [lia|]. destruct (a <? 8); lia.
Qed.

Lemma long_input_255 a : long_input a = 255 <-> 4 <= a < 8.
Proof.
  unfold long_input.
  pose proof (ramp_range a). pose proof (ramp_range (a + 8)).
  destruct (a <? 4) eqn:E4; [|destruct (a <? 8) eqn:E8]; lia.
Qed.

Lemma long_input_ramp a : 8 <= a -> long_input a = ramp a.
Proof.
  intros Ha. unfold long_input.
  destruct (a <? 4) eqn:E4; [lia|]. destruct (a <? 8) eqn:E8; [lia|]. reflexivity.
Qed.

Lemma long_input_head a : a < 4 -> long_input a = ramp (a + 8).
Proof.
  intros Ha. unfold long_input. destruct (a <? 4) eqn:E4; [reflexivity | lia].
Qed.

(** The input repeats four bytes once within any window: those at 0, at 8. *)
Lemma long_input_unique s p :
  0 <= s < p -> p - s < WINDOW_SIZE ->
  (forall k, 0 <= k < 4 -> long_input (s + k) = long_input (p + k)) ->
  s = 0 /\ p = 8.
Proof.
  rewrite WINDOW_SIZE_val. intros Hsp Hw H.
  pose proof (H 0 ltac:(lia)) as H0. pose proof (H 1 ltac:(lia)) as H1.
  pose proof (H 2 ltac:(lia)) as H2. pose proof (H 3 ltac:(lia)) as H3.
  pose proof (long_input_255 (s + 0)) as S0. pose proof (long_input_255 (p + 0)) as P0.
  pose proof (long_input_255 (s + 1)) as S1. pose proof (long_input_255 (p + 1)) as P1.
  pose proof (long_input_255 (s + 2)) as S2. pose proof (long_input_255 (p + 2)) as P2.
  pose proof (long_input_255 (s + 3)) as S3. pose proof (long_input_255 (p + 3)) as P3.
  rewrite <- H0 in P0. rewrite <- H1 in P1. rewrite <- H2 in P2. rewrite <- H3 in P3.
  assert (Hs : s = 0 \/ 8 <= s) by lia.
  assert (Hp : 8 <= p) by lia.
  clear S0 S1 S2 S3 P0 P1 P2 P3.
  rewrite (long_input_ramp (p + 0)) in H0 by lia.
  rewrite (long_input_ramp (p + 1)) in H1 by lia.
  rewrite (long_input_ramp (p + 2)) in H2 by lia.
  destruct Hs as [-> | Hs].
  - split; [reflexivity|].
    rewrite long_input_head in H0, H1, H2 by lia.
    destruct (Z.eq_dec p 8) as [E|E]; [exact E|]. exfalso.
    apply (ramp_no_repeat 8 p ltac:(lia) ltac:(lia)).
    + replace p with (p + 0) by lia. exact H0.
    + exact H1.
    + exact H2.
  - exfalso.
    rewrite (long_input_ramp (s + 0)) in H0 by lia.
    rewrite (long_input_ramp (s + 1)) in H1 by lia.
    rewrite (long_input_ramp (s + 2)) in H2 by lia.
    apply (ramp_no_repeat s p ltac:(lia) ltac:(lia)).
    + replace s with (s + 0) at 1 by lia. replace p with (p + 0) by lia. exact H0.
    + exact H1.
    + exact H2.
Qed.

(** A round only appends to the log, and so does the loop. *)
Lemma normal_step_log level max_chain inb in_len st :
  exists l, c_log (normal_step level max_chain inb in_len st) = c_log st ++ l.
Proof.
  unfold normal_step.
  destruct (if in_len - c_p st >=? MIN_MATCH
            then chain_walk (Z.to_nat max_chain) inb (Prev (c_tab st)) (c_p st)
                   (in_len - c_p st) (Max (c_p st - WINDOW_SIZE) NIL)
                   (HashTable (c_tab st) (Hash32 inb (c_p st))) 0 0
            else (0, 0)) as [bl0 dist].
  match goal with
  | |- context [if ?c >=? MIN_MATCH then _ else _] => destruct (c >=? MIN_MATCH)
  end.
  - destruct (emit_match _ _ _ _ _ _ _). cbn [c_log]. eexists. reflexivity.
  - cbn [c_log]. exists []. rewrite app_nil_r. reflexivity.
Qed.

Lemma enc_loop_log step in_len :
  (forall st, exists l, c_log (step st) = c_log st ++ l) ->
  forall fuel st st',
    enc_loop step in_len fuel st = Some st' ->
    exists l, c_log st' = c_log st ++ l.
Proof.
  intros Hstep. induction fuel as [|f IH]; intros st st'; cbn [enc_loop];
    destruct (c_p st <? in_len); intros H; try discriminate.
  - injection H as <-. exists []. rewrite app_nil_r. reflexivity.
  - destruct (IH _ _ H) as (l & Hl). destruct (Hstep st) as (l0 & Hl0).
    exists (l0 ++ l). rewrite Hl, Hl0, app_assoc. reflexivity.
  - injection H as <-. exists []. rewrite app_nil_r. reflexivity.
Qed.

(** The loop, taken up after its first [k] rounds. *)
Lemma enc_loop_rounds step in_len st' : forall k fuel st,
  enc_loop step in_len fuel st = Some st' ->
  (forall j, (j < k)%nat -> c_p (Nat.iter j step st) < in_len) ->
  exists fuel', enc_loop step in_len fuel' (Nat.iter k step st) = Some st'.
Proof.
  induction k as [|k IH]; intros fuel st H Hlt.
  - exists fuel. exact H.
  - destruct (IH fuel st H) as (f & Hf).
    { intros j Hj. apply Hlt. lia. }
    specialize (Hlt k ltac:(lia)).
    destruct f as [|f]; cbn [enc_loop] in Hf;
      replace (c_p (Nat.iter k step st) <? in_len) with true in Hf by lia;
      [discriminate|].
    exists f. exact Hf.
Qed.

(** On [long_input] of 2147483647 bytes, [Compress] at level 1 emits one
    back-reference, the four bytes at 8 for those at 0. *)
Lemma Compress_long_input :
  exists r,
    Compress (mkTables reset reset) long_input 2147483647 (of_list []) 1 = Some r /\
    r_log r = [mkBackref 8 8 4] /\
    r_ret r = 2147483653.
Proof.
  set (N := 2147483647).
  set (st0 := mkC 0 0 0 (of_list []) (mkTables reset reset) []).
  assert (H0 : tidy_log long_input N st0 /\ accounted N st0).
  { split.
    - unfold tidy_log. cbn [st0 c_log c_anchor in_order]. repeat split; constructor.
    - unfold accounted. cbn [st0 c_p c_op c_anchor c_log tokens_size log_end].
      split; [subst N; lia|]. split; reflexivity. }
  destruct (normal_loop_keeps long_input N
              (fun st => tidy_log long_input N st /\ accounted N st)
              (fun st st' Hinv Hlt HJ Hp Han Hop Hout Hl =>
                 conj (tidy_log_skip long_input N st st' Hinv Hlt (proj1 HJ)
                         Hp Han Hop Hout Hl)
                      (accounted_skip N st st' Hinv Hlt (proj2 HJ)
                         Hp Han Hop Hout Hl))
              (fun st st' dist best_len Hinv Hlt HJ Hv Hrule Hp Han Hout Hop Hl =>
                 conj (tidy_log_emit long_input N long_input_bytes st st' dist best_len
                         Hinv Hlt (proj1 HJ) Hv Hrule Hp Han Hout Hop Hl)
                      (accounted_emit long_input N st st' dist best_len
                         Hinv Hlt (proj2 HJ) Hv Hrule Hp Han Hout Hop Hl))
              1 2 (of_list []) reset H0)
    as (st & Hst & Hinv & [Htidy Hacc] & Hp).
  fold st0 in Hst.
  (* the first nine rounds *)
  destruct (enc_loop_rounds _ _ _ 9 _ _ Hst) as (f & Hf).
  { intros j Hj.
    do 9 (destruct j as [|j]; [lazy; reflexivity|]). lia. }
  destruct (enc_loop_log _ _ (normal_step_log 1 2 long_input N) _ _ _ Hf) as (l & Hl).
  assert (Hl9 : c_log (Nat.iter 9 (normal_step 1 2 long_input N) st0)
                = [mkBackref 8 8 4]) by (lazy; reflexivity).
  rewrite Hl9 in Hl. cbn [app] in Hl.
  (* nothing else repeats *)
  assert (Hnil : l = []).
  { destruct Htidy as (Hgen & Hord & _).
    destruct Hinv as (_ & _ & _ & Hok).
    rewrite Hl in Hgen, Hord, Hok.
    destruct l as [|b l']; [reflexivity|]. exfalso.
    cbn [in_order br_pos br_len] in Hord. destruct Hord as (_ & Hb & _).
    inversion Hgen as [|? ? _ Hgen']; subst. inversion Hgen' as [|? ? Hg _]; subst.
    inversion Hok as [|? ? _ Hok']; subst. inversion Hok' as [|? ? Ho _]; subst.
    destruct Hg as (Hlen & _ & Hrep). destruct Ho as (Hd & Hdp).
    unfold MIN_MATCH in Hlen.
    destruct (long_input_unique (br_pos b - br_dist b) (br_pos b)
                ltac:(lia) ltac:(lia)) as [_ Hpos].
    { intros k Hk. apply Hrep. lia. }
    lia. }
  subst l.
  exists (finish long_input st). split.
  - change (option_map (finish long_input)
              (enc_loop (normal_step 1 2 long_input N) N (Z.to_nat N) st0)
            = Some (finish long_input st)).
    rewrite Hst. reflexivity.
  - destruct (finish_ret long_input st Hinv) as [_ Hlog].
    split; [rewrite Hlog; exact Hl|].
    rewrite (finish_accounted long_input N st Hacc Hp), Hl.
    reflexivity.
Qed.


(** ** Streams without a back-reference *)

Section LiteralOnly.

Variable inb : mem.
Variable in_len : Z.
Variable out0 : mem.

Lemma no_token_yet_skip st st' :
  enc_inv st -> c_p st < in_len -> no_token_yet in_len out0 st ->
  c_p st' = c_p st + 1 -> c_anchor st' = c_anchor st ->
  c_op st' = c_op st -> c_out st' = c_out st -> c_log st' = c_log st ->
  no_token_yet in_len out0 st'.
Proof.
  intros _ Hlt (H1 & H2) Hp Han Hop Hout Hl. unfold no_token_yet.
  rewrite Hp, Han, Hop, Hout, Hl. split; [lia | exact H2].
Qed.

Lemma no_token_yet_emit st st' dist best_len :
  enc_inv st -> c_p st < in_len -> no_token_yet in_len out0 st ->
  valid_match inb (c_p st) (in_len - c_p st) dist best_len ->
  (best_len = MIN_MATCH -> c_p st - c_anchor st < 7 + 128) ->
  c_p st' = c_p st + best_len -> c_anchor st' = c_p st + best_len ->
  c_out st' = fst (emit_match inb (c_out st) (c_op st) (c_anchor st) (c_p st)
                     dist best_len) ->
  c_op st' = snd (emit_match inb (c_out st) (c_op st) (c_anchor st) (c_p st)
                    dist best_len) ->
  c_log st' = c_log st ++ [mkBackref (c_p st) dist best_len] ->
  no_token_yet in_len out0 st'.
Proof.
  intros _ _ (H1 & _) (Hlen & _) _ Hp _ _ _ Hl. unfold no_token_yet.
  rewrite Hp, Hl. split; [lia|].
  intros H. apply app_eq_nil in H. destruct H as [_ H]. discriminate.
Qed.

(** The trailing literals alone: the header byte, the extension of the
    count, the bytes. *)
Lemma finish_literal_only st :
  no_token_yet in_len out0 st -> in_len <= c_p st -> c_log st = [] ->
  1 <= in_len ->
  r_ret (finish inb st) = in_len + 1 + ext_size in_len 7 /\
  r_out (finish inb st) 0 = 32 * Z.min in_len 7 /\
  forall k, 0 <= k < in_len ->
            r_out (finish inb st) (1 + ext_size in_len 7 + k) = inb k.
Proof.
  intros (H1 & H2) Hp Hl Hn. destruct (H2 Hl) as (Han & Hop & Hout).
  unfold finish, emit_last. rewrite Han, Hop, Hout.
  replace (c_p st) with in_len by lia.
  test_is (0 =? in_len) false. cbn [negb].
  replace (in_len - 0) with in_len by lia.
  pose proof (put_literals_snd inb out0 0 0 in_len 0) as Hs.
  pose proof (chunks_bounds in_len Hn) as Hch.
  pose proof (ext_size_range in_len 7) as He.
  assert (Hcells :
            fst (put_literals inb out0 0 0 in_len 0) 0 = 32 * Z.min in_len 7 /\
            forall k, 0 <= k < in_len ->
              fst (put_literals inb out0 0 0 in_len 0) (1 + ext_size in_len 7 + k)
              = inb k).
  { unfold put_literals, ext_size in *.
    destruct (in_len >=? 7) eqn:E7.
    - pose proof (EncodeMod_snd (store out0 0 (u8 (Z.shiftl 7 5 + 0))) (0 + 1)
                    (in_len - 7)) as Hm.
      pose proof (EncodeMod_frame (store out0 0 (u8 (Z.shiftl 7 5 + 0))) (0 + 1)
                    (in_len - 7) 0 ltac:(lia)) as Hf.
      destruct (EncodeMod _ (0 + 1) (in_len - 7)) as [o1 p1]. cbn [fst snd] in *.
      split.
      + rewrite WildCopy_frame by lia. rewrite Hf, store_eq.
        replace (Z.min in_len 7) with 7 by lia. reflexivity.
      + intros k Hk. rewrite WildCopy_other by lia. f_equal. lia.
    - cbn [fst snd] in *. split.
      + rewrite WildCopy_frame by lia. rewrite store_eq.
        replace (Z.min in_len 7) with in_len by lia.
        rewrite shiftl_mul by lia. change (2 ^ 5) with 32.
        rewrite u8_small by lia. lia.
      + intros k Hk. rewrite WildCopy_other by lia. f_equal. lia. }
  destruct (put_literals inb out0 0 0 in_len 0) as [o1 p1].
  cbn [fst snd r_ret r_out] in *. split; [lia | exact Hcells].
Qed.

(** Inputs shorter than [MIN_MATCH] are never probed. *)
Lemma short_skip :
  in_len < MIN_MATCH -> forall st st',
  enc_inv st -> c_p st < in_len ->
  no_token_yet in_len out0 st /\ c_log st = [] ->
  c_p st' = c_p st + 1 -> c_anchor st' = c_anchor st ->
  c_op st' = c_op st -> c_out st' = c_out st -> c_log st' = c_log st ->
  no_token_yet in_len out0 st' /\ c_log st' = [].
Proof.
  intros _ st st' Hinv Hlt [HJ Hnil] Hp Han Hop Hout Hl.
  split; [apply (no_token_yet_skip st); assumption | congruence].
Qed.

Lemma short_emit :
  in_len < MIN_MATCH -> forall st st' dist best_len,
  enc_inv st -> c_p st < in_len ->
  no_token_yet in_len out0 st /\ c_log st = [] ->
  valid_match inb (c_p st) (in_len - c_p st) dist best_len ->
  (best_len = MIN_MATCH -> c_p st - c_anchor st < 7 + 128) ->
  c_p st' = c_p st + best_len -> c_anchor st' = c_p st + best_len ->
  c_out st' = fst (emit_match inb (c_out st) (c_op st) (c_anchor st) (c_p st)
                     dist best_len) ->
  c_op st' = snd (emit_match inb (c_out st) (c_op st) (c_anchor st) (c_p st)
                    dist best_len) ->
  c_log st' = c_log st ++ [mkBackref (c_p st) dist best_len] ->
  no_token_yet in_len out0 st' /\ c_log st' = [].
Proof.
  intros Hshort st st' dist best_len (Ha & _) _ _ (Hlen & _). lia.
Qed.

End LiteralOnly.

(** X16.  On an input of 1 to [max_in_len] bytes the length returned fits an
    [int]; when the compressors find no match, the stream is the input behind
    a header: the token byte with the count (7 for seven or more), the
    extension of the count, then the input bytes. *)
Theorem literal_only_stream (rhs_first : bool) (tab : tables) (inb : mem)
  (in_len : Z) (out : mem) (level : Z) :
  1 <= in_len <= max_in_len -> 1 <= level <= 9 ->
  (exists r, CompressFast rhs_first tab inb in_len out = Some r /\
             0 <= r_ret r <= INT_MAX /\
             (r_log r = [] ->
              r_ret r = in_len + 1 + ext_size in_len 7 /\
              r_out r 0 = 32 * Z.min in_len 7 /\
              forall k, 0 <= k < in_len ->
                        r_out r (1 + ext_size in_len 7 + k) = inb k)) /\
  (exists r, Compress tab inb in_len out level = Some r /\
             0 <= r_ret r <= INT_MAX /\
             (r_log r = [] ->
              r_ret r = in_len + 1 + ext_size in_len 7 /\
              r_out r 0 = 32 * Z.min in_len 7 /\
              forall k, 0 <= k < in_len ->
                        r_out r (1 + ext_size in_len 7 + k) = inb k)).
Proof.
  intros Hlen Hlev.
  assert (Hlen0 : 0 <= in_len <= max_in_len) by lia.
  assert (Hlen1 : 1 <= in_len) by lia.
  assert (H0 : no_token_yet in_len out (mkC 0 0 0 out (mkTables reset (Prev tab)) [])).
  { unfold no_token_yet. cbn [c_p c_op c_anchor c_log c_out].
    split; [lia|]. intros _. repeat split. }
  split.
  - destruct (fast_loop_keeps inb in_len (no_token_yet in_len out)
                (no_token_yet_skip in_len out) (no_token_yet_emit inb in_len out)
                rhs_first out (Prev tab) H0) as (st & Hst & Hinv & HJ & Hp).
    assert (Hr : CompressFast rhs_first tab inb in_len out = Some (finish inb st)).
    { unfold CompressFast. rewrite Hst. reflexivity. }
    exists (finish inb st). split; [exact Hr|]. split.
    + apply (CompressFast_fits rhs_first tab inb in_len out _ Hlen0 Hr).
    + destruct (finish_ret inb st Hinv) as [_ Hlog]. rewrite Hlog. intros Hnil.
      apply (finish_literal_only inb in_len out); assumption.
  - assert (E : (level <? 1) || (level >? 9) = false).
    { apply orb_false_iff. lia. }
    destruct (normal_loop_keeps inb in_len (no_token_yet in_len out)
                (no_token_yet_skip in_len out) (no_token_yet_emit inb in_len out)
                level (if level <? 9 then Z.shiftl 1 level else Z.shiftl 1 13)
                out (Prev tab) H0) as (st & Hst & Hinv & HJ & Hp).
    assert (Hr : Compress tab inb in_len out level = Some (finish inb st)).
    { unfold Compress. rewrite E, Hst. reflexivity. }
    exists (finish inb st). split; [exact Hr|]. split.
    + destruct (Compress_fits tab inb in_len out level _ Hlen0 Hr) as [Hint Hpos].
      specialize (Hpos Hlev). lia.
    + destruct (finish_ret inb st Hinv) as [_ Hlog]. rewrite Hlog. intros Hnil.
      apply (finish_literal_only inb in_len out); assumption.
Qed.

(** The theorem at the eight bytes 1..8, level 1. *)
Lemma literal_only_stream_witness :
  (exists r, CompressFast false (mkTables reset reset)
               (of_list [1; 2; 3; 4; 5; 6; 7; 8]) 8 (of_list []) = Some r /\
             0 <= r_ret r <= INT_MAX /\
             (r_log r = [] ->
              r_ret r = 8 + 1 + ext_size 8 7 /\
              r_out r 0 = 32 * Z.min 8 7 /\
              forall k, 0 <= k < 8 ->
                        r_out r (1 + ext_size 8 7 + k)
                        = of_list [1; 2; 3; 4; 5; 6; 7; 8] k)) /\
  (exists r, Compress (mkTables reset reset)
               (of_list [1; 2; 3; 4; 5; 6; 7; 8]) 8 (of_list []) 1 = Some r /\
             0 <= r_ret r <= INT_MAX /\
             (r_log r = [] ->
              r_ret r = 8 + 1 + ext_size 8 7 /\
              r_out r 0 = 32 * Z.min 8 7 /\
              forall k, 0 <= k < 8 ->
                        r_out r (1 + ext_size 8 7 + k)
                        = of_list [1; 2; 3; 4; 5; 6; 7; 8] k)).
Proof.
  apply (literal_only_stream false (mkTables reset reset)
           (of_list [1; 2; 3; 4; 5; 6; 7; 8]) 8 (of_list []) 1).
  - unfold max_in_len. lia.
  - lia.
Defined.

(** X17.  An input shorter than [MIN_MATCH] is never searched: the empty input
    gives the empty stream and leaves the output buffer alone; one, two or
    three bytes give the token byte [in_len<<5] followed by the bytes. *)
Theorem short_input_is_one_token (rhs_first : bool) (tab : tables) (inb : mem)
  (in_len : Z) (out : mem) (level : Z) :
  0 <= in_len < MIN_MATCH -> 1 <= level <= 9 ->
  (exists r, CompressFast rhs_first tab inb in_len out = Some r /\
             r_log r = [] /\
             r_ret r = (if in_len =? 0 then 0 else in_len + 1) /\
             (in_len = 0 -> r_out r = out) /\
             (1 <= in_len ->
              r_out r 0 = 32 * in_len /\
              forall k, 0 <= k < in_len -> r_out r (1 + k) = inb k)) /\
  (exists r, Compress tab inb in_len out level = Some r /\
             r_log r = [] /\
             r_ret r = (if in_len =? 0 then 0 else in_len + 1) /\
             (in_len = 0 -> r_out r = out) /\
             (1 <= in_len ->
              r_out r 0 = 32 * in_len /\
              forall k, 0 <= k < in_len -> r_out r (1 + k) = inb k)).
Proof.
  intros Hlen Hlev.
  assert (Hshort : in_len < MIN_MATCH) by lia.
  assert (H0 : no_token_yet in_len out (mkC 0 0 0 out (mkTables reset (Prev tab)) [])
               /\ c_log (mkC 0 0 0 out (mkTables reset (Prev tab)) []) = []).
  { unfold no_token_yet. cbn [c_p c_op c_anchor c_log c_out].
    split; [|reflexivity]. split; [lia|]. intros _. repeat split. }
  assert (Hfin : forall st,
            enc_inv st -> no_token_yet in_len out st /\ c_log st = [] ->
            in_len <= c_p st ->
            r_log (finish inb st) = [] /\
            r_ret (finish inb st) = (if in_len =? 0 then 0 else in_len + 1) /\
            (in_len = 0 -> r_out (finish inb st) = out) /\
            (1 <= in_len ->
             r_out (finish inb st) 0 = 32 * in_len /\
             forall k, 0 <= k < in_len -> r_out (finish inb st) (1 + k) = inb k)).
  { intros st Hinv [HJ Hnil] Hp.
    destruct (finish_ret inb st Hinv) as [_ Hlog].
    split; [congruence|].
    destruct (Z.eq_dec in_len 0) as [Hz|Hnz].
    - destruct HJ as (H1 & H2). destruct (H2 Hnil) as (Han & Hop & Hout).
      unfold finish, emit_last. rewrite Han, Hop, Hout.
      replace (c_p st) with 0 by lia. subst in_len.
      cbn [Z.eqb negb r_ret r_out]. split; [reflexivity|].
      split; [reflexivity | lia].
    - destruct (finish_literal_only inb in_len out st HJ Hp Hnil ltac:(lia))
        as (Hret & Hb0 & Hbk).
      unfold MIN_MATCH in Hlen.
      assert (He : ext_size in_len 7 = 0).
      { unfold ext_size. test_is (in_len >=? 7) false. reflexivity. }
      rewrite He in Hret, Hbk.
      test_is (in_len =? 0) false.
      split; [lia|]. split; [lia|]. intros _.
      split; [rewrite Hb0; lia|].
      intros k Hk. rewrite <- (Hbk k Hk). reflexivity. }
  split.
  - unfold CompressFast.
    destruct (fast_loop_keeps inb in_len
                (fun st => no_token_yet in_len out st /\ c_log st = [])
                (short_skip in_len out Hshort)
                (short_emit inb in_len out Hshort)
                rhs_first out (Prev tab) H0) as (st & Hst & Hinv & HJ & Hp).
    rewrite Hst. cbn [option_map]. eexists. split; [reflexivity|].
    apply Hfin; assumption.
  - unfold Compress.
    test_is ((level <? 1) || (level >? 9)) false.
    destruct (normal_loop_keeps inb in_len
                (fun st => no_token_yet in_len out st /\ c_log st = [])
                (short_skip in_len out Hshort)
                (short_emit inb in_len out Hshort)
                level (if level <? 9 then Z.shiftl 1 level else Z.shiftl 1 13)
                out (Prev tab) H0) as (st & Hst & Hinv & HJ & Hp).
    rewrite Hst. cbn [option_map]. eexists. split; [reflexivity|].
    apply Hfin; assumption.
Qed.

(** The theorem at the three bytes 7, 8, 9, level 9. *)
Lemma short_input_is_one_token_witness :
  (exists r, CompressFast false (mkTables reset reset) (of_list [7; 8; 9]) 3
               (of_list []) = Some r /\
             r_log r = [] /\
             r_ret r = (if 3 =? 0 then 0 else 3 + 1) /\
             (3 = 0 -> r_out r = of_list []) /\
             (1 <= 3 ->
              r_out r 0 = 32 * 3 /\
              forall k, 0 <= k < 3 -> r_out r (1 + k) = of_list [7; 8; 9] k)) /\
  (exists r, Compress (mkTables reset reset) (of_list [7; 8; 9]) 3
               (of_list []) 9 = Some r /\
             r_log r = [] /\
             r_ret r = (if 3 =? 0 then 0 else 3 + 1) /\
             (3 = 0 -> r_out r = of_list []) /\
             (1 <= 3 ->
              r_out r 0 = 32 * 3 /\
              forall k, 0 <= k < 3 -> r_out r (1 + k) = of_list [7; 8; 9] k)).
Proof.
  apply (short_input_is_one_token false (mkTables reset reset)
           (of_list [7; 8; 9]) 3 (of_list []) 9); unfold MIN_MATCH; lia.
Defined.

(** ** The compressors read the input, and at most one byte more *)

Section InputLocal.

Variables in1 in2 : mem.
Variable L : Z.
Hypothesis Hin : agree 0 L in1 in2.

Lemma UnalignedLoad32_local p :
  0 <= p -> p + 4 <= L -> UnalignedLoad32 in1 p = UnalignedLoad32 in2 p.
Proof.
  intros H0 H4. unfold UnalignedLoad32.
  rewrite (Hin p), (Hin (p + 1)), (Hin (p + 2)), (Hin (p + 3)) by lia.
  reflexivity.
Qed.

Lemma Hash32_local p :
  0 <= p -> p + 4 <= L -> Hash32 in1 p = Hash32 in2 p.
Proof.
  intros H0 H4. unfold Hash32. rewrite UnalignedLoad32_local by assumption.
  reflexivity.
Qed.

Lemma match_len_local s p mm :
  0 <= s <= p -> p + mm <= L ->
  forall fuel len, 0 <= len ->
    match_len fuel in1 s p mm len = match_len fuel in2 s p mm len.
Proof.
  intros Hs Hp. induction fuel as [|f IH]; intros len Hl; cbn [match_len].
  - reflexivity.
  - destruct (len <? mm) eqn:E; cbn [andb]; [|reflexivity].
    apply Z.ltb_lt in E.
    rewrite (Hin (s + len)), (Hin (p + len)) by lia.
    destruct (in2 (s + len) =? in2 (p + len)); [|reflexivity].
    apply IH. lia.
Qed.

Lemma put_literals_input out op anchor run t :
  1 <= run -> 0 <= anchor -> anchor + run <= L ->
  snd (put_literals in1 out op anchor run t)
  = snd (put_literals in2 out op anchor run t) /\
  forall a, a < snd (put_literals in1 out op anchor run t) ->
            fst (put_literals in1 out op anchor run t) a
            = fst (put_literals in2 out op anchor run t) a.
Proof.
  intros Hrun Ha HL. unfold put_literals.
  destruct (if run >=? 7
            then EncodeMod (store out op (u8 (Z.shiftl 7 5 + t))) (op + 1) (run - 7)
            else (store out op (u8 (Z.shiftl run 5 + t)), op + 1)) as [o1 q1].
  cbn [fst snd]. split; [reflexivity|].
  intros a Hlt. pose proof (chunks_bounds run Hrun) as Hch.
  destruct (Z_lt_dec a q1) as [Hl|Hl].
  - rewrite !WildCopy_frame by lia. reflexivity.
  - rewrite !WildCopy_other by lia. apply Hin. lia.
Qed.

Lemma emit_match_input out op anchor p dist best_len :
  0 <= anchor <= p -> p <= L ->
  snd (emit_match in1 out op anchor p dist best_len)
  = snd (emit_match in2 out op anchor p dist best_len) /\
  agree 0 (snd (emit_match in1 out op anchor p dist best_len))
    (fst (emit_match in1 out op anchor p dist best_len))
    (fst (emit_match in2 out op anchor p dist best_len)).
Proof.
  intros Hap HL. unfold emit_match.
  destruct (anchor =? p) eqn:E; cbn [negb].
  - split; [reflexivity | intros a _; reflexivity].
  - apply Z.eqb_neq in E.
    destruct (put_literals_input out op anchor (p - anchor)
                (Z.land (Z.shiftr dist 12) 16 + Min (best_len - MIN_MATCH) 15)
                ltac:(lia) ltac:(lia) ltac:(lia)) as [Hs Hf].
    destruct (put_literals in1 out op anchor (p - anchor) _) as [o1 q1].
    destruct (put_literals in2 out op anchor (p - anchor) _) as [o2 q2].
    cbn [fst snd] in *. subst q2.
    destruct (put_match_cong o1 o2 q1 (best_len - MIN_MATCH) dist) as [Hs2 Hf2].
    split; [exact Hs2|].
    intros a Ha. apply Hf2.
    destruct (Z_lt_dec a q1) as [Hl|Hl]; [left; apply Hf; exact Hl | right; lia].
Qed.

Lemma emit_last_input out op anchor p :
  0 <= anchor <= p -> p <= L ->
  snd (emit_last in1 out op anchor p) = snd (emit_last in2 out op anchor p) /\
  agree 0 (snd (emit_last in1 out op anchor p))
    (fst (emit_last in1 out op anchor p)) (fst (emit_last in2 out op anchor p)).
Proof.
  intros Hap HL. unfold emit_last.
  destruct (anchor =? p) eqn:E; cbn [negb].
  - split; [reflexivity | intros a _; reflexivity].
  - apply Z.eqb_neq in E.
    destruct (put_literals_input out op anchor (p - anchor) 0
                ltac:(lia) ltac:(lia) ltac:(lia)) as [Hs Hf].
    split; [exact Hs|]. intros a Ha. apply Hf. lia.
Qed.

Lemma fast_find_local in_len HT p :
  0 <= p -> in_len <= L -> ht_ok p HT ->
  fast_find in1 in_len HT p = fast_find in2 in_len HT p.
Proof.
  intros Hp HL Hht. unfold fast_find.
  destruct (in_len - p >=? MIN_MATCH) eqn:Em; [|reflexivity].
  unfold MIN_MATCH in *. cbv zeta.
  rewrite (Hash32_local p) by lia.
  rewrite (UnalignedLoad32_local p) by lia.
  pose proof (Hht (Hash32 in2 p)) as Hs. unfold NIL in Hs.
  destruct (HT (Hash32 in2 p) >? Max (p - WINDOW_SIZE) NIL) eqn:Es;
    cbn [andb]; [|reflexivity].
  rewrite Max_spec in Es. unfold NIL in Es.
  rewrite (UnalignedLoad32_local (HT (Hash32 in2 p))) by lia.
  rewrite (match_len_local (HT (Hash32 in2 p)) p (in_len - p)) by lia.
  reflexivity.
Qed.

Section Walks.

Variable prev : table.
Variable p : Z.
Hypothesis Hp : 0 <= p.
Hypothesis Hok : prev_ok p prev.

Lemma chain_walk_local max_match :
  MIN_MATCH <= max_match -> p + max_match <= L ->
  forall chain_len s best_len dist,
    NIL <= s < p -> 0 <= best_len < max_match ->
    chain_walk chain_len in1 prev p max_match (Max (p - WINDOW_SIZE) NIL)
      s best_len dist
    = chain_walk chain_len in2 prev p max_match (Max (p - WINDOW_SIZE) NIL)
        s best_len dist.
Proof.
  intros Hmm HL. unfold MIN_MATCH in Hmm.
  induction chain_len as [|c IH]; intros s best_len dist Hs Hbl; cbn [chain_walk].
  - reflexivity.
  - destruct (s >? Max (p - WINDOW_SIZE) NIL) eqn:Es; [|reflexivity].
    rewrite Max_spec in Es. unfold NIL in *.
    rewrite (Hin (s + best_len)), (Hin (p + best_len)) by lia.
    rewrite (UnalignedLoad32_local s), (UnalignedLoad32_local p) by lia.
    rewrite (match_len_local s p max_match) by (unfold MIN_MATCH; lia).
    pose proof (Hok s ltac:(lia) ltac:(lia)) as Hn. unfold NIL in Hn.
    destruct (match_len_spec in2 s p max_match (Z.to_nat max_match) MIN_MATCH
                ltac:(unfold MIN_MATCH; lia) ltac:(unfold MIN_MATCH; lia))
      as (Hlen & _).
    set (ml := match_len (Z.to_nat max_match) in2 s p max_match MIN_MATCH) in *.
    unfold MIN_MATCH in Hlen.
    destruct ((in2 (s + best_len) =? in2 (p + best_len))
              && (UnalignedLoad32 in2 s =? UnalignedLoad32 in2 p)).
    + destruct (ml >? best_len) eqn:Eg.
      * destruct (ml =? max_match) eqn:Ef; [reflexivity|].
        apply Z.eqb_neq in Ef.
        destruct (Nat.eqb c 0); [reflexivity|].
        apply IH; lia.
      * destruct (Nat.eqb c 0); [reflexivity|]. apply IH; lia.
    + destruct (Nat.eqb c 0); [reflexivity|]. apply IH; lia.
Qed.

Lemma lazy_walk_local best_len :
  3 <= best_len -> p + 1 + best_len + 1 <= L ->
  forall chain_len s,
    NIL <= s < p ->
    lazy_walk chain_len in1 prev (p + 1) (best_len + 1) best_len
      (Max (p + 1 - WINDOW_SIZE) NIL) s
    = lazy_walk chain_len in2 prev (p + 1) (best_len + 1) best_len
        (Max (p + 1 - WINDOW_SIZE) NIL) s.
Proof.
  intros Hbl HL.
  induction chain_len as [|c IH]; intros s Hs; cbn [lazy_walk].
  - reflexivity.
  - destruct (s >? Max (p + 1 - WINDOW_SIZE) NIL) eqn:Es; [|reflexivity].
    rewrite Max_spec in Es. unfold NIL in *.
    rewrite (Hin (s + best_len)), (Hin (p + 1 + best_len)) by lia.
    rewrite (UnalignedLoad32_local s), (UnalignedLoad32_local (p + 1)) by lia.
    rewrite (match_len_local s (p + 1) (best_len + 1)) by (unfold MIN_MATCH; lia).
    pose proof (Hok s ltac:(lia) ltac:(lia)) as Hn. unfold NIL in Hn.
    rewrite IH by lia. reflexivity.
Qed.

End Walks.

Lemma insert_run_local n : forall tab p,
  0 <= p -> p + Z.of_nat n + 3 <= L ->
  insert_run n in1 tab p = insert_run n in2 tab p.
Proof.
  induction n as [|n IH]; intros tab p Hp HL; cbn [insert_run]; [reflexivity|].
  unfold insert_chained. rewrite (Hash32_local p) by lia.
  apply IH; lia.
Qed.

End InputLocal.

Lemma shape_within inb in_len st st' :
  step_shape inb in_len st st' -> c_p st < in_len -> c_p st' <= in_len.
Proof.
  intros [Hp _ _ _ _ | dist best_len (Hlen & _) Hp _ _ _ _] Hlt; lia.
Qed.

Section TwoInputs.

Variables in1 in2 : mem.
Variables in_len L : Z.
Hypothesis Hin : agree 0 L in1 in2.
Hypothesis HL : in_len <= L.

Lemma emit_match_both out1 out2 op anchor p dist best_len :
  0 <= anchor <= p -> p <= L -> agree 0 op out1 out2 ->
  snd (emit_match in1 out1 op anchor p dist best_len)
  = snd (emit_match in2 out2 op anchor p dist best_len) /\
  agree 0 (snd (emit_match in1 out1 op anchor p dist best_len))
    (fst (emit_match in1 out1 op anchor p dist best_len))
    (fst (emit_match in2 out2 op anchor p dist best_len)).
Proof.
  intros Hap Hp Hout.
  destruct (emit_match_input in1 in2 L Hin out1 op anchor p dist best_len Hap Hp)
    as [H1 H2].
  destruct (emit_match_same in2 out1 out2 op anchor p dist best_len ltac:(lia) Hout)
    as [H3 H4].
  split; [congruence|].
  intros a Ha. rewrite H2 by exact Ha. apply H4. rewrite <- H1. exact Ha.
Qed.

Lemma finish_both s1 s2 :
  same_in in_len s1 s2 -> 0 <= c_anchor s1 <= c_p s1 -> c_p s1 <= L ->
  r_ret (finish in1 s1) = r_ret (finish in2 s2) /\
  agree 0 (r_ret (finish in1 s1)) (r_out (finish in1 s1)) (r_out (finish in2 s2)) /\
  r_log (finish in1 s1) = r_log (finish in2 s2).
Proof.
  intros (Hp & Ha & Hop & Hlog & Hout & _) Hap HpL.
  unfold finish. rewrite <- Hp, <- Ha, <- Hop, <- Hlog.
  destruct (emit_last_input in1 in2 L Hin (c_out s1) (c_op s1) (c_anchor s1) (c_p s1)
              Hap HpL) as [H1 H2].
  destruct (emit_last_cong in2 (c_out s1) (c_out s2) (c_op s1) (c_anchor s1) (c_p s1)
              ltac:(lia)) as [H3 H4].
  destruct (emit_last in1 (c_out s1) (c_op s1) (c_anchor s1) (c_p s1)) as [o1 p1].
  destruct (emit_last in2 (c_out s1) (c_op s1) (c_anchor s1) (c_p s1)) as [o2 p2].
  destruct (emit_last in2 (c_out s2) (c_op s1) (c_anchor s1) (c_p s1)) as [o3 p3].
  cbn [fst snd r_ret r_out r_log] in *. subst p2 p3.
  split; [reflexivity|]. split; [|reflexivity].
  intros a Ha'. rewrite H2 by exact Ha'. apply H4.
  destruct (Z_lt_dec a (c_op s1)); [left; apply Hout; lia | right; lia].
Qed.

Lemma fast_step_input rhs_first s1 s2 :
  same_in in_len s1 s2 -> enc_inv s1 -> c_p s1 < in_len ->
  same_in in_len (fast_step rhs_first in1 in_len s1)
    (fast_step rhs_first in2 in_len s2).
Proof.
  intros (Hp & Ha & Hop & Hlog & Hout & Htab) (Hap & _ & Hht & _) Hlt.
  unfold fast_step. rewrite <- Hp, <- Ha, <- Hop, <- Hlog.
  destruct (Z_lt_dec (in_len - c_p s1) MIN_MATCH) as [Hshort|Hlong].
  - unfold fast_find. test_is (in_len - c_p s1 >=? MIN_MATCH) false.
    cbv beta iota zeta. change (0 =? MIN_MATCH) with false. cbn [andb].
    cbv beta iota zeta. change (0 >=? MIN_MATCH) with false. cbv beta iota zeta.
    unfold same_in. cbn [c_p c_anchor c_op c_log c_out c_tab].
    repeat (split; [reflexivity|]). split; [exact Hout | left; lia].
  - destruct Htab as [Hc|Htab]; [contradiction|]. rewrite <- Htab.
    rewrite (fast_find_local in1 in2 L Hin in_len (HashTable (c_tab s1)) (c_p s1))
      by (assumption || lia).
    destruct (fast_find in2 in_len (HashTable (c_tab s1)) (c_p s1))
      as [[bl0 dist] HT1].
    set (best_len := if (bl0 =? MIN_MATCH) && (c_p s1 - c_anchor s1 >=? 7 + 128)
                     then 0 else bl0).
    destruct (best_len >=? MIN_MATCH) eqn:Eb.
    + destruct (emit_match_both (c_out s1) (c_out s2) (c_op s1) (c_anchor s1)
                  (c_p s1) dist best_len Hap ltac:(lia) Hout) as [H1 H2].
      destruct (emit_match in1 (c_out s1) (c_op s1) (c_anchor s1) (c_p s1) dist best_len)
        as [o1 p1].
      destruct (emit_match in2 (c_out s2) (c_op s1) (c_anchor s1) (c_p s1) dist best_len)
        as [o2 p2].
      cbn [fst snd] in *. subst p2.
      unfold same_in. cbn [c_p c_anchor c_op c_log c_out c_tab].
      repeat (split; [reflexivity|]). split; [exact H2|].
      unfold MIN_MATCH in *.
      destruct (Z_lt_dec (in_len - (c_p s1 + best_len)) 4) as [Hs|Hs];
        [left; exact Hs | right].
      unfold fast_insert.
      destruct rhs_first;
        rewrite !(Hash32_local in1 in2 L Hin) by lia; reflexivity.
    + unfold same_in. cbn [c_p c_anchor c_op c_log c_out c_tab].
      repeat (split; [reflexivity|]). split; [exact Hout | right; reflexivity].
Qed.

Lemma normal_step_input level max_chain s1 s2 :
  level <= 4 \/ in_len + 1 <= L ->
  same_in in_len s1 s2 -> enc_inv s1 -> prev_ok (c_p s1) (Prev (c_tab s1)) ->
  c_p s1 < in_len ->
  same_in in_len (normal_step level max_chain in1 in_len s1)
    (normal_step level max_chain in2 in_len s2).
Proof.
  intros Hlazy (Hp & Ha & Hop & Hlog & Hout & Htab) (Hap & _ & Hht & _) Hok Hlt.
  unfold normal_step. rewrite <- Hp, <- Ha, <- Hop, <- Hlog.
  set (p := c_p s1) in *.
  destruct (Z_lt_dec (in_len - p) MIN_MATCH) as [Hshort|Hlong].
  - test_is (in_len - p >=? MIN_MATCH) false.
    cbv beta iota zeta. change (0 =? MIN_MATCH) with false. cbn [andb].
    cbv beta iota zeta. change (0 >=? MIN_MATCH) with false.
    rewrite ?andb_false_r. cbn [andb]. cbv beta iota zeta.
    change (0 >=? MIN_MATCH) with false. cbv beta iota zeta.
    unfold same_in. cbn [c_p c_anchor c_op c_log c_out c_tab].
    repeat (split; [reflexivity|]). split; [exact Hout | left; lia].
  - destruct Htab as [Hc|Htab]; [contradiction|]. rewrite <- Htab.
    test_is (in_len - p >=? MIN_MATCH) true.
    unfold MIN_MATCH in Hlong.
    rewrite (Hash32_local in1 in2 L Hin p) by lia.
    rewrite (chain_walk_local in1 in2 L Hin (Prev (c_tab s1)) p ltac:(lia) Hok
               (in_len - p) ltac:(unfold MIN_MATCH; lia) ltac:(lia))
      by (try apply Hht; lia).
    destruct (chain_walk (Z.to_nat max_chain) in2 (Prev (c_tab s1)) p (in_len - p)
                (Max (p - WINDOW_SIZE) NIL)
                (HashTable (c_tab s1) (Hash32 in2 p)) 0 0) as [bl0 dist].
    set (bl1 := if (bl0 =? MIN_MATCH) && (p - c_anchor s1 >=? 7 + 128)
                then 0 else bl0).
    assert (Hbest :
              (if (level >=? 5) && (bl1 >=? MIN_MATCH) && (bl1 <? in_len - p)
                  && negb (p - c_anchor s1 =? 6)
               then
                 if lazy_walk (Z.to_nat max_chain) in1 (Prev (c_tab s1)) (p + 1)
                      (bl1 + 1) bl1 (Max (p + 1 - WINDOW_SIZE) NIL)
                      (HashTable (c_tab s1) (Hash32 in1 (p + 1)))
                 then 0 else bl1
               else bl1)
              = (if (level >=? 5) && (bl1 >=? MIN_MATCH) && (bl1 <? in_len - p)
                    && negb (p - c_anchor s1 =? 6)
                 then
                   if lazy_walk (Z.to_nat max_chain) in2 (Prev (c_tab s1)) (p + 1)
                        (bl1 + 1) bl1 (Max (p + 1 - WINDOW_SIZE) NIL)
                        (HashTable (c_tab s1) (Hash32 in2 (p + 1)))
                   then 0 else bl1
                 else bl1)).
    { destruct ((level >=? 5) && (bl1 >=? MIN_MATCH) && (bl1 <? in_len - p)
                && negb (p - c_anchor s1 =? 6)) eqn:Ec; [|reflexivity].
      apply andb_true_iff in Ec. destruct Ec as [Ec _].
      apply andb_true_iff in Ec. destruct Ec as [Ec E3].
      apply andb_true_iff in Ec. destruct Ec as [E1 E2].
      unfold MIN_MATCH in E2.
      rewrite (Hash32_local in1 in2 L Hin (p + 1)) by lia.
      rewrite (lazy_walk_local in1 in2 L Hin (Prev (c_tab s1)) p ltac:(lia) Hok
                 bl1 ltac:(lia) ltac:(lia))
        by (pose proof (Hht (Hash32 in2 (p + 1))); lia).
      reflexivity. }
    rewrite Hbest.
    set (best_len :=
           if (level >=? 5) && (bl1 >=? MIN_MATCH) && (bl1 <? in_len - p)
              && negb (p - c_anchor s1 =? 6)
           then
             if lazy_walk (Z.to_nat max_chain) in2 (Prev (c_tab s1)) (p + 1)
                  (bl1 + 1) bl1 (Max (p + 1 - WINDOW_SIZE) NIL)
                  (HashTable (c_tab s1) (Hash32 in2 (p + 1)))
             then 0 else bl1
           else bl1).
    destruct (best_len >=? MIN_MATCH) eqn:Eb.
    + destruct (emit_match_both (c_out s1) (c_out s2) (c_op s1) (c_anchor s1)
                  p dist best_len Hap ltac:(lia) Hout) as [H1 H2].
      destruct (emit_match in1 (c_out s1) (c_op s1) (c_anchor s1) p dist best_len)
        as [o1 p1].
      destruct (emit_match in2 (c_out s2) (c_op s1) (c_anchor s1) p dist best_len)
        as [o2 p2].
      cbn [fst snd] in *. subst p2.
      unfold same_in. cbn [c_p c_anchor c_op c_log c_out c_tab].
      repeat (split; [reflexivity|]). split; [exact H2|].
      unfold MIN_MATCH in *.
      destruct (Z_lt_dec (in_len - (p + best_len)) 4) as [Hs|Hs];
        [left; exact Hs | right].
      apply (insert_run_local in1 in2 L Hin); lia.
    + unfold same_in. cbn [c_p c_anchor c_op c_log c_out c_tab].
      repeat (split; [reflexivity|]). split; [exact Hout | right].
      unfold insert_chained. rewrite (Hash32_local in1 in2 L Hin p) by lia.
      reflexivity.
Qed.

End TwoInputs.



(** X19.  At level 5 the byte past the input does matter: the sixteen bytes
    "abcdQZbcdeGabcde" compress to 16 bytes when a 'G' follows them in memory
    (the lazy walk then prefers the match one byte on) and to 17 bytes when a
    0 follows. *)
Theorem lazy_matching_reads_one_past :
  map (of_list [97; 98; 99; 100; 81; 90; 98; 99; 100; 101; 71;
                97; 98; 99; 100; 101; 71])
      (map Z.of_nat (seq 0 16))
  = map (of_list [97; 98; 99; 100; 81; 90; 98; 99; 100; 101; 71;
                  97; 98; 99; 100; 101; 0])
      (map Z.of_nat (seq 0 16)) /\
  option_map (fun r => (r_ret r, r_log r))
    (Compress (mkTables reset reset)
       (of_list [97; 98; 99; 100; 81; 90; 98; 99; 100; 101; 71;
                 97; 98; 99; 100; 101; 71]) 16 (of_list []) 5)
  = Some (16, [mkBackref 12 6 4]) /\
  option_map (fun r => (r_ret r, r_log r))
    (Compress (mkTables reset reset)
       (of_list [97; 98; 99; 100; 81; 90; 98; 99; 100; 101; 71;
                 97; 98; 99; 100; 101; 0]) 16 (of_list []) 5)
  = Some (17, [mkBackref 11 11 4]).
Proof. repeat split; vm_compute; reflexivity. Qed.

(** ** The chain walk returns the longest match of its candidates *)

Section Longest.

Variable inb : mem.
Variable prev : table.
Variables p max_match limit : Z.
Hypothesis Hbytes : bytes_ok inb.
Hypothesis Hmm : MIN_MATCH <= max_match.

Lemma match_at_range c : MIN_MATCH <= match_at inb p max_match c <= max_match.
Proof.
  unfold match_at.
  destruct (match_len_spec inb c p max_match (Z.to_nat max_match) MIN_MATCH
              Hmm ltac:(unfold MIN_MATCH in *; lia)) as (H & _).
  exact H.
Qed.

Lemma quick_reject_sound c best_len :
  best_len = 0 \/ MIN_MATCH <= best_len ->
  UnalignedLoad32 inb c = UnalignedLoad32 inb p ->
  inb (c + best_len) <> inb (p + best_len) ->
  match_at inb p max_match c <= best_len.
Proof.
  intros Hbl Hload Hne.
  destruct (Z_le_dec (match_at inb p max_match c) best_len) as [Hle|Hgt];
    [exact Hle | exfalso].
  apply Hne. destruct Hbl as [->|Hbl].
  - apply (UnalignedLoad32_inj inb c p Hbytes Hload 0). lia.
  - unfold match_at in Hgt.
    destruct (match_len_spec inb c p max_match (Z.to_nat max_match) MIN_MATCH
                Hmm ltac:(unfold MIN_MATCH in *; lia)) as (_ & Heq & _).
    apply Heq. lia.
Qed.

Lemma chain_walk_longest : forall chain_len s best_len dist,
  best_len = 0 \/ MIN_MATCH <= best_len ->
  best_len <= fst (chain_walk chain_len inb prev p max_match limit s best_len dist) /\
  (forall c, In c (chain_list chain_len prev limit s) ->
             UnalignedLoad32 inb c = UnalignedLoad32 inb p ->
             match_at inb p max_match c <= fst (chain_walk chain_len inb prev p max_match limit
                              s best_len dist)) /\
  (chain_walk chain_len inb prev p max_match limit s best_len dist
   = (best_len, dist) \/
   exists c, In c (chain_list chain_len prev limit s) /\
             UnalignedLoad32 inb c = UnalignedLoad32 inb p /\
             chain_walk chain_len inb prev p max_match limit s best_len dist
             = (match_at inb p max_match c, p - c)).
Proof.
  induction chain_len as [|n IH]; intros s best_len dist Hbl;
    cbn [chain_walk chain_list].
  - cbn [fst]. split; [lia|]. split; [intros c []|]. left. reflexivity.
  - destruct (s >? limit) eqn:Es.
    2:{ cbn [fst]. split; [lia|]. split; [intros c []|]. left. reflexivity. }
    pose proof (match_at_range s) as Hr. fold (match_at inb p max_match s).
    destruct ((inb (s + best_len) =? inb (p + best_len))
              && (UnalignedLoad32 inb s =? UnalignedLoad32 inb p)) eqn:Ec.
    + apply andb_true_iff in Ec. destruct Ec as [_ Eload]. apply Z.eqb_eq in Eload.
      destruct (match_at inb p max_match s >? best_len) eqn:Eg.
      * destruct (match_at inb p max_match s =? max_match) eqn:Ef.
        -- apply Z.eqb_eq in Ef. cbn [fst]. split; [lia|]. split.
           ++ intros c _ _. pose proof (match_at_range c). lia.
           ++ right. exists s. split; [left; reflexivity|]. split; [exact Eload|].
              reflexivity.
        -- destruct (Nat.eqb n 0) eqn:En.
           ++ apply Nat.eqb_eq in En. subst n. cbn [fst chain_list].
              split; [lia|]. split.
              ** intros c [<-|[]] _. lia.
              ** right. exists s. split; [left; reflexivity|].
                 split; [exact Eload | reflexivity].
           ++ destruct (IH (prev (Z.land s WINDOW_MASK)) (match_at inb p max_match s) (p - s)
                          ltac:(right; lia)) as (H1 & H2 & H3).
              split; [lia|]. split.
              ** intros c [<-|Hc] Hl; [exact H1 | apply H2; assumption].
              ** right. destruct H3 as [H3|(c & Hc & Hl & H3)].
                 --- exists s. split; [left; reflexivity|].
                     split; [exact Eload | exact H3].
                 --- exists c. split; [right; exact Hc|]. split; assumption.
      * destruct (Nat.eqb n 0) eqn:En.
        -- apply Nat.eqb_eq in En. subst n. cbn [fst chain_list].
           split; [lia|]. split.
           ++ intros c [<-|[]] _. lia.
           ++ left. reflexivity.
        -- destruct (IH (prev (Z.land s WINDOW_MASK)) best_len dist Hbl)
             as (H1 & H2 & H3).
           split; [exact H1|]. split.
           ++ intros c [<-|Hc] Hl; [lia | apply H2; assumption].
           ++ destruct H3 as [H3|(c & Hc & Hl & H3)]; [left; exact H3|].
              right. exists c. split; [right; exact Hc|]. split; assumption.
    + assert (Hhead : UnalignedLoad32 inb s = UnalignedLoad32 inb p ->
                      match_at inb p max_match s <= best_len).
      { intros Hl. apply quick_reject_sound; [exact Hbl | exact Hl|].
        apply andb_false_iff in Ec. destruct Ec as [Ec|Ec].
        - apply Z.eqb_neq in Ec. exact Ec.
        - apply Z.eqb_neq in Ec. contradiction. }
      destruct (Nat.eqb n 0) eqn:En.
      * apply Nat.eqb_eq in En. subst n. cbn [fst chain_list].
        split; [lia|]. split.
        -- intros c [<-|[]] Hl. apply Hhead. exact Hl.
        -- left. reflexivity.
      * destruct (IH (prev (Z.land s WINDOW_MASK)) best_len dist Hbl)
          as (H1 & H2 & H3).
        split; [exact H1|]. split.
        -- intros c [<-|Hc] Hl; [specialize (Hhead Hl); lia | apply H2; assumption].
        -- destruct H3 as [H3|(c & Hc & Hl & H3)]; [left; exact H3|].
           right. exists c. split; [right; exact Hc|]. split; assumption.
Qed.

End Longest.

(** X20.  The chain walk of [Compress] (lines 226-250) returns the longest
    match among the candidates it may look at, the first [chain_len] positions
    of the chain that lie above [limit]: no candidate whose four bytes equal
    those at [p] matches further than the returned length, and unless the walk
    returns (0, 0) the returned distance is that of a candidate whose match
    has the returned length. *)
Theorem chain_walk_finds_longest (inb : mem) (prev : table)
  (p max_match limit s : Z) (chain_len : nat) :
  bytes_ok inb -> MIN_MATCH <= max_match ->
  (forall c, In c (chain_list chain_len prev limit s) ->
             UnalignedLoad32 inb c = UnalignedLoad32 inb p ->
             match_at inb p max_match c
             <= fst (chain_walk chain_len inb prev p max_match limit s 0 0)) /\
  (chain_walk chain_len inb prev p max_match limit s 0 0 = (0, 0) \/
   exists c, In c (chain_list chain_len prev limit s) /\
             UnalignedLoad32 inb c = UnalignedLoad32 inb p /\
             chain_walk chain_len inb prev p max_match limit s 0 0
             = (match_at inb p max_match c, p - c)).
Proof.
  intros Hb Hmm.
  destruct (chain_walk_longest inb prev p max_match limit Hb Hmm chain_len s 0 0
              ltac:(left; reflexivity)) as (_ & H2 & H3).
  split; [exact H2 | exact H3].
Qed.

(** The theorem at "abcdXabcdeYabcde": position 11, candidates 5 then 0. *)
Lemma chain_walk_finds_longest_witness :
  (forall c,
      In c (chain_list 4 (store (fun _ => NIL) 5 0) (-1) 5) ->
      UnalignedLoad32
        (of_list [97; 98; 99; 100; 88; 97; 98; 99; 100; 101; 89;
                  97; 98; 99; 100; 101]) c
      = UnalignedLoad32
          (of_list [97; 98; 99; 100; 88; 97; 98; 99; 100; 101; 89;
                    97; 98; 99; 100; 101]) 11 ->
      match_at
        (of_list [97; 98; 99; 100; 88; 97; 98; 99; 100; 101; 89;
                  97; 98; 99; 100; 101]) 11 5 c
      <= fst (chain_walk 4
                (of_list [97; 98; 99; 100; 88; 97; 98; 99; 100; 101; 89;
                          97; 98; 99; 100; 101])
                (store (fun _ => NIL) 5 0) 11 5 (-1) 5 0 0)) /\
  chain_walk 4
    (of_list [97; 98; 99; 100; 88; 97; 98; 99; 100; 101; 89;
              97; 98; 99; 100; 101])
    (store (fun _ => NIL) 5 0) 11 5 (-1) 5 0 0 = (5, 6).
Proof.
  split; [|vm_compute; reflexivity].
  apply (chain_walk_finds_longest
           (of_list [97; 98; 99; 100; 88; 97; 98; 99; 100; 101; 89;
                     97; 98; 99; 100; 101])
           (store (fun _ => NIL) 5 0) 11 5 (-1) 5 4).
  - apply of_list_bytes_ok. reflexivity.
  - unfold MIN_MATCH. lia.
Defined.


(** X21.  The lazy-matching walk (lines 265-286) drops the match at [p] only
    for a reason: when it answers yes, one of its candidates repeats the
    [target_len] bytes from [x] on. *)
Theorem lazy_walk_sound (inb : mem) (prev : table)
  (x target_len best_len limit s : Z) (chain_len : nat) :
  bytes_ok inb -> MIN_MATCH <= target_len ->
  lazy_walk chain_len inb prev x target_len best_len limit s = true ->
  exists c, In c (chain_list chain_len prev limit s) /\
            forall k, 0 <= k < target_len -> inb (c + k) = inb (x + k).
Proof.
  intros Hb Ht. revert s.
  induction chain_len as [|n IH]; intros s; cbn [lazy_walk chain_list];
    [discriminate|].
  destruct (s >? limit); [|discriminate].
  destruct ((inb (s + best_len) =? inb (x + best_len))
            && (UnalignedLoad32 inb s =? UnalignedLoad32 inb x)
            && (match_len (Z.to_nat target_len) inb s x target_len MIN_MATCH
                =? target_len)) eqn:Ec.
  - intros _. apply andb_true_iff in Ec. destruct Ec as [Ec Elen].
    apply andb_true_iff in Ec. destruct Ec as [_ Eload].
    apply Z.eqb_eq in Eload, Elen.
    exists s. split; [left; reflexivity|].
    intros k Hk.
    destruct (match_len_spec inb s x target_len (Z.to_nat target_len) MIN_MATCH
                Ht ltac:(unfold MIN_MATCH in *; lia)) as (_ & Heq & _).
    rewrite Elen in Heq. unfold MIN_MATCH in Heq.
    destruct (Z_lt_dec k 4) as [Hl|Hl].
    + apply (UnalignedLoad32_inj inb s x Hb Eload). lia.
    + apply Heq. lia.
  - destruct (Nat.eqb n 0); [discriminate|].
    intros H. destruct (IH _ H) as (c & Hc & Hrep).
    exists c. split; [right; exact Hc | exact Hrep].
Qed.

(** The theorem at "abcdeXabcde", the walk for position 6 from candidate 0. *)
Lemma lazy_walk_sound_witness :
  exists c,
    In c (chain_list 4 (fun _ => NIL) (-1) 0) /\
    forall k, 0 <= k < 5 ->
      of_list [97; 98; 99; 100; 101; 88; 97; 98; 99; 100; 101] (c + k)
      = of_list [97; 98; 99; 100; 101; 88; 97; 98; 99; 100; 101] (6 + k).
Proof.
  apply (lazy_walk_sound
           (of_list [97; 98; 99; 100; 101; 88; 97; 98; 99; 100; 101])
           (fun _ => NIL) 6 5 4 (-1) 0 4).
  - apply of_list_bytes_ok. reflexivity.
  - unfold MIN_MATCH. lia.
  - vm_compute. reflexivity.
Defined.

(** ** Round trip under any capacity *)

(** X22.  The stream of either compressor decodes under every declared
    capacity of [in_len] or more to the [in_len] input bytes, and is refused
    under every smaller one. *)
Theorem roundtrip_any_capacity (inb : mem) (in_len : Z) (rhs_first : bool)
  (tab : tables) (out : mem) (level out_len : Z) :
  bytes_ok inb -> 0 <= in_len <= 270549126 -> 1 <= level <= 9 ->
  0 <= out_len ->
  (exists r,
      CompressFast rhs_first tab inb in_len out = Some r /\
      forall C D0,
        agree 0 (r_ret r) (r_out r) C ->
        (in_len <= out_len ->
         exists d, Decompress C (r_ret r) D0 out_len = Some d /\
                   dr_ret d = in_len /\ agree 0 in_len (dr_out d) inb) /\
        (out_len < in_len ->
         option_map dr_ret (Decompress C (r_ret r) D0 out_len) = Some (-1))) /\
  (exists r,
      Compress tab inb in_len out level = Some r /\
      forall C D0,
        agree 0 (r_ret r) (r_out r) C ->
        (in_len <= out_len ->
         exists d, Decompress C (r_ret r) D0 out_len = Some d /\
                   dr_ret d = in_len /\ agree 0 in_len (dr_out d) inb) /\
        (out_len < in_len ->
         option_map dr_ret (Decompress C (r_ret r) D0 out_len) = Some (-1))).
Proof.
  intros Hb Hlen Hlevel Hcap.
  assert (Hsize : in_len <= cap 4 + 6) by (rewrite cap_4; lia).
  assert (Hany : forall C n D0 d,
            Decompress C n D0 in_len = Some d -> dr_ret d = in_len ->
            agree 0 in_len (dr_out d) inb ->
            (in_len <= out_len ->
             exists d', Decompress C n D0 out_len = Some d' /\
                        dr_ret d' = in_len /\ agree 0 in_len (dr_out d') inb) /\
            (out_len < in_len ->
             option_map dr_ret (Decompress C n D0 out_len) = Some (-1))).
  { intros C n D0 d Hd Hret Hout. unfold Decompress in *.
    destruct (dec_loop_capacity C n in_len out_len _ _ d Hd ltac:(lia)) as [Hs Hf].
    split.
    - intros H. exists d. split; [apply Hs; lia | split; assumption].
    - intros H. destruct (Hf ltac:(lia) ltac:(cbn [d_op]; lia)) as (r' & Hr' & Hm).
      rewrite Hr'. cbn [option_map]. rewrite Hm. reflexivity. }
  split.
  - destruct (CompressFast_roundtrip inb Hb in_len Hsize ltac:(lia) rhs_first tab out)
      as (r & Hr & Hrt).
    exists r. split; [exact Hr|]. intros C D0 HC.
    destruct (Hrt C D0 HC) as (d & Hd & Hret & Hout).
    apply (Hany C (r_ret r) D0 d); assumption.
  - destruct (Compress_roundtrip inb Hb in_len Hsize ltac:(lia) tab out level Hlevel)
      as (r & Hr & Hrt).
    exists r. split; [exact Hr|]. intros C D0 HC.
    destruct (Hrt C D0 HC) as (d & Hd & Hret & Hout).
    apply (Hany C (r_ret r) D0 d); assumption.
Qed.

(** The theorem at sixteen 'A's, level 5, capacity 20. *)
Lemma roundtrip_any_capacity_witness :
  (exists r,
      CompressFast false (mkTables reset reset) (of_list (repeat 65 16)) 16
        (of_list []) = Some r /\
      forall C D0,
        agree 0 (r_ret r) (r_out r) C ->
        (16 <= 20 ->
         exists d, Decompress C (r_ret r) D0 20 = Some d /\
                   dr_ret d = 16 /\ agree 0 16 (dr_out d) (of_list (repeat 65 16))) /\
        (20 < 16 ->
         option_map dr_ret (Decompress C (r_ret r) D0 20) = Some (-1))) /\
  (exists r,
      Compress (mkTables reset reset) (of_list (repeat 65 16)) 16
        (of_list []) 5 = Some r /\
      forall C D0,
        agree 0 (r_ret r) (r_out r) C ->
        (16 <= 20 ->
         exists d, Decompress C (r_ret r) D0 20 = Some d /\
                   dr_ret d = 16 /\ agree 0 16 (dr_out d) (of_list (repeat 65 16))) /\
        (20 < 16 ->
         option_map dr_ret (Decompress C (r_ret r) D0 20) = Some (-1))).
Proof.
  apply (roundtrip_any_capacity (of_list (repeat 65 16)) 16 false
           (mkTables reset reset) (of_list []) 5 20); try lia.
  apply of_list_bytes_ok. reflexivity.
Defined.

End ULZ.
